(** * dflow: local DAG scheduler, IO containers and live status objects

    A shallow embedding of [src/dflow/dag.py], [src/dflow/io.py] and
    [src/dflow/argo_objects.py], with the properties of the design
    document stated over it. *)

From Stdlib Require Import ZArith NArith Lia.
From stdpp Require Import base option list gmap strings sorting.

Open Scope string_scope.
Open Scope nat_scope.
Open Scope list_scope.

(** ** Python list primitives used by the sources *)

Module PyList.

Section ops.
Context {A : Type} `{EqDecision A}.

(** [x in l] *)
Definition contains (x : A) (l : list A) : bool := bool_decide (x ∈ l).

(** [l.index(x)]: the first position holding [x]; [None] stands for
    [ValueError]. *)
Fixpoint index (x : A) (l : list A) : option nat :=
  match l with
  | [] => None
  | y :: l' => if decide (x = y) then Some 0 else S <$> index x l'
  end.

(** [l.remove(x)]: drops the first occurrence; [None] stands for
    [ValueError]. *)
Fixpoint remove (x : A) (l : list A) : option (list A) :=
  match l with
  | [] => None
  | y :: l' => if decide (x = y) then Some l' else (y ::.) <$> remove x l'
  end.
End ops.

End PyList.

(** ** dag.py: the local debug scheduler *)

Module Dag.

(** A [Task] object is known by its identity: [dep not in self.finished],
    [self.tasks.index(task)] and [self.waiting.remove(task)] compare
    objects, and two names of one object denote one task. *)
Definition ref := nat.

Section scheduler.
(** The value of [Task.outputs]; the scheduler only copies it. *)
Context {Outputs : Type}.

Record Task := mkTask {
  dependencies : list ref;
  continue_on_failed : bool;
  phase : string;
  outputs : option Outputs;
}.

Definition set_phase (p : string) (t : Task) : Task :=
  mkTask (dependencies t) (continue_on_failed t) p (outputs t).
Definition set_outputs (o : Outputs) (t : Task) : Task :=
  mkTask (dependencies t) (continue_on_failed t) (phase t) (Some o).

(** What the run leaves behind for an observer: each call of
    [pool.submit] and each [self.finished.append], in program order. *)
Inductive event :=
| EvSubmit (t : ref)
| EvFinished (t : ref).

(** The scheduler's view while [DAG.run] executes.  [store] holds the
    Task objects of the orchestrating process; the worker processes get
    pickled copies, so nothing but the statements of [resolve] and [run]
    writes to it.  [futures] is the dict from future to task index, a
    future being named by its submission number. *)
Record DAG := mkDAG {
  tasks : list ref;
  store : ref → Task;
  waiting : list ref;
  running : list ref;
  finished : list ref;
  futures : list (nat * nat);
  submitted : nat;
  trace : list event;
}.

Definition update_task (f : Task → Task) (t : ref) (s : DAG) : DAG :=
  mkDAG (tasks s) (λ r, if decide (r = t) then f (store s r) else store s r)
        (waiting s) (running s) (finished s) (futures s) (submitted s)
        (trace s).

Inductive exn :=
| ValueError
| IndexError
| StopIteration
| TaskFailed (j : nat)      (* RuntimeError("Task %s failed") *)
| CyclicGraph.              (* AssertionError("cyclic graph") *)

Inductive result :=
| Ok (s : DAG)
| Err (e : exn) (s : DAG).

(** The inner loop of [resolve]: all dependencies are in [finished]. *)
Definition ready (s : DAG) (t : ref) : bool :=
  forallb (λ dep, PyList.contains dep (finished s))
          (dependencies (store s t)).

(** The body of [if ready:] in [resolve]. *)
Definition dispatch (s : DAG) (t : ref) : result :=
  let s1 := update_task (set_phase "Pending") t s in
  match PyList.index t (tasks s1) with
  | None => Err ValueError s1
  | Some i =>
    let fut := submitted s1 in
    match PyList.remove t (waiting s1) with
    | None =>
      Err ValueError
          (mkDAG (tasks s1) (store s1) (waiting s1) (running s1)
                 (finished s1) (futures s1 ++ [(fut, i)]) (S fut)
                 (trace s1 ++ [EvSubmit t]))
    | Some w =>
      Ok (mkDAG (tasks s1) (store s1) w (running s1 ++ [t])
                (finished s1) (futures s1 ++ [(fut, i)]) (S fut)
                (trace s1 ++ [EvSubmit t]))
    end
  end.

(** [for task in self.waiting:] is a list iterator: it holds a position
    [i], yields [self.waiting[i]] while [i] is in range of the list as it
    is at that moment, and moves on by one, whatever the body removed.
    [n] bounds the number of passes. *)
Fixpoint resolve_from (n i : nat) (s : DAG) : result :=
  match n with
  | O => Ok s
  | S n' =>
    match waiting s !! i with
    | None => Ok s
    | Some t =>
      if ready s t then
        match dispatch s t with
        | Ok s' => resolve_from n' (S i) s'
        | Err e s' => Err e s'
        end
      else resolve_from n' (S i) s
    end
  end.

Definition resolve (s : DAG) : result :=
  resolve_from (length (waiting s)) 0 s.

(** One completed future, as the environment decides it: which of the
    pending futures [as_completed] yields first, and what
    [future.result()] does, [None] when it raises. *)
Record completion := mkCompletion {
  which : nat;
  returned : option Outputs;
}.

(** [futures.pop(future)] for the future at position [k] of the dict. *)
Definition pop_future (k : nat) (s : DAG) : DAG :=
  mkDAG (tasks s) (store s) (waiting s) (running s) (finished s)
        (delete k (futures s)) (submitted s) (trace s).

(** [self.running.remove(self.tasks[j]); self.finished.append(self.tasks[j])],
    [rest] being [self.running] after the removal. *)
Definition mark_finished (tj : ref) (rest : list ref) (s : DAG) : DAG :=
  mkDAG (tasks s) (store s) (waiting s) rest (finished s ++ [tj])
        (futures s) (submitted s) (trace s ++ [EvFinished tj]).

(** The body of the [while] loop in [run]. *)
Definition run_body (s : DAG) (c : completion) : result :=
  match futures s with
  | [] => Err StopIteration s
  | _ :: _ =>
    let k := which c mod length (futures s) in
    match futures s !! k with
    | None => Err StopIteration s
    | Some (fut, j) =>
      let s0 := pop_future k s in
      match tasks s0 !! j with
      | None => Err IndexError s0
      | Some tj =>
        let after_result :=
          match returned c with
          | None =>
            let s1 := update_task (set_phase "Failed") tj s0 in
            if continue_on_failed (store s1 tj) then Ok s1
            else Err (TaskFailed j) s1
          | Some o => Ok (update_task (set_outputs o) tj s0)
          end in
        match after_result with
        | Err e s1 => Err e s1
        | Ok s1 =>
          match PyList.remove tj (running s1) with
          | None => Err ValueError s1
          | Some rest => resolve (mark_finished tj rest s1)
          end
        end
      end
    end
  end.

Inductive outcome :=
| Returned                 (* [run] returned None *)
| Raised (e : exn)         (* [run] raised *)
| Blocked.                 (* still waiting for a future to complete *)

(** The [while len(self.running) > 0] loop and what follows it; the
    schedule lists the completions in the order they happen. *)
Fixpoint run_loop (s : DAG) (sched : list completion) : outcome * DAG :=
  match running s with
  | [] =>
    if decide (length (finished s) = length (tasks s)) then (Returned, s)
    else (Raised CyclicGraph, s)
  | _ :: _ =>
    match sched with
    | [] => (Blocked, s)
    | c :: sched' =>
      match run_body s c with
      | Ok s' => run_loop s' sched'
      | Err e s' => (Raised e, s')
      end
    end
  end.

(** The state [run] sets up before its first [resolve]. *)
Definition start (ts : list ref) (st : ref → Task) : DAG :=
  mkDAG ts st ts [] [] [] 0 [].

Definition run (ts : list ref) (st : ref → Task)
    (sched : list completion) : outcome * DAG :=
  match resolve (start ts st) with
  | Ok s => run_loop s sched
  | Err e s => (Raised e, s)
  end.

(** *** Vocabulary of the scheduler's properties *)

(** The content of [self.finished] as the trace tells it. *)
Fixpoint finished_of (tr : list event) : list ref :=
  match tr with
  | [] => []
  | EvFinished t :: tr' => t :: finished_of tr'
  | EvSubmit _ :: tr' => finished_of tr'
  end.

(** Every submission comes after the completion of each dependency:
    the events before position [i] are what had happened when the
    [i]-th event was emitted. *)
Definition dependencies_first (deps : ref → list ref)
    (tr : list event) : Prop :=
  ∀ i t, tr !! i = Some (EvSubmit t) →
    ∀ dep, dep ∈ deps t → dep ∈ finished_of (take i tr).

Definition submitted_before (tr : list event) (t u : ref) : Prop :=
  ∃ i j, i < j ∧ tr !! i = Some (EvSubmit t) ∧ tr !! j = Some (EvSubmit u).

(** A valid dependency set: every dependency of a task of the DAG is a
    task of the DAG, and the dependency relation on the tasks of the DAG
    has no infinite descending chain, which on a finite graph says that
    it has no cycle. *)
Definition depends_on (ts : list ref) (st : ref → Task) (d t : ref) : Prop :=
  t ∈ ts ∧ d ∈ dependencies (st t).

Record valid (ts : list ref) (st : ref → Task) : Prop := {
  valid_closed : ∀ t d, depends_on ts st d t → d ∈ ts;
  valid_acyclic : well_founded (depends_on ts st);
}.

(** What holds of the scheduler's state every time the loop of [run] is
    about to test [len(self.running) > 0]. *)
Record inv (ts : list ref) (st : ref → Task) (s : DAG) : Prop := {
  inv_tasks : tasks s = ts;
  inv_static : ∀ r,
    dependencies (store s r) = dependencies (st r) ∧
    continue_on_failed (store s r) = continue_on_failed (st r);
  inv_perm : waiting s ++ running s ++ finished s ≡ₚ ts;
  inv_futures : ∃ rs,
    Forall2 (λ fj r, ts !! fj.2 = Some r) (futures s) rs ∧ rs ≡ₚ running s;
  inv_finished : finished s = finished_of (trace s);
  inv_order : dependencies_first (λ t, dependencies (st t)) (trace s);
  inv_phase : ∀ r, r ∈ running s ++ finished s →
    phase (store s r) = "Pending" ∨ phase (store s r) = "Failed";
  inv_submitted : ∀ r, r ∈ running s ++ finished s → EvSubmit r ∈ trace s;
  inv_untouched : ∀ r, EvSubmit r ∉ trace s → store s r = st r;
}.

(** After a [resolve], nothing running means that no waiting task is
    ready. *)
Definition idle_means_stuck (s : DAG) : Prop :=
  running s = [] → ∀ t, t ∈ waiting s → ready s t = false.

#[global] Instance event_eq_dec : EqDecision event.
Proof. solve_decision. Defined.

(** The tasks handed to the pool, in the order of the calls. *)
Fixpoint submitted_of (tr : list event) : list ref :=
  match tr with
  | [] => []
  | EvSubmit t :: tr' => t :: submitted_of tr'
  | EvFinished _ :: tr' => submitted_of tr'
  end.

(** Every [self.finished.append] of a task comes after a [pool.submit] of
    this task. *)
Definition finished_after_submitted (tr : list event) : Prop :=
  ∀ i t, tr !! i = Some (EvFinished t) →
    ∃ j, j < i ∧ tr !! j = Some (EvSubmit t).

(** The position of the first [self.finished.append] of [t] in the trace. *)
Definition first_finished (tr : list event) (t : ref) : nat :=
  match list_find (λ e, e = EvFinished t) tr with
  | Some (i, _) => i
  | None => length tr
  end.

(** The elements at the even and at the odd positions of a list. *)
Fixpoint evens {A} (l : list A) : list A :=
  match l with
  | [] => []
  | x :: l' => x :: match l' with [] => [] | _ :: l'' => evens l'' end
  end.

Definition odds {A} (l : list A) : list A :=
  match l with
  | [] => []
  | _ :: l' => evens l'
  end.

(** The states [run] goes through at the head of its loop. *)
Inductive reachable (ts : list ref) (st : ref → Task) : DAG → Prop :=
| reach_start s :
    resolve (start ts st) = Ok s → reachable ts st s
| reach_step s c s' :
    reachable ts st s → running s ≠ [] → run_body s c = Ok s' →
    reachable ts st s'.

End scheduler.

Arguments Task : clear implicits.
Arguments DAG : clear implicits.
Arguments completion : clear implicits.
Arguments result : clear implicits.

End Dag.

(** Small DAGs and completions to run the scheduler on. *)
Module DagSamples.
Import Dag.
Definition fresh_task (deps : list ref) (tolerant : bool) : Task unit :=
  mkTask deps tolerant "Waiting" None.
Definition succeeds (k : nat) : completion unit := mkCompletion k (Some tt).
Definition raises (k : nat) : completion unit := mkCompletion k None.
(** Tasks 0 and 2 have no dependency, 1 depends on 0 and 3 on 2. *)
Definition two_chains : ref → Task unit := λ r,
  match r with
  | 1 => fresh_task [0] false
  | 3 => fresh_task [2] false
  | _ => fresh_task [] false
  end.
Definition lone : ref → Task unit := λ _, fresh_task [] false.
Definition tolerant_pair : ref → Task unit := λ r,
  match r with
  | 0 => fresh_task [] true
  | _ => fresh_task [0] false
  end.
End DagSamples.

(** ** io.py: auto-named parameter and artifact collections *)

Module Io.

(** Python objects live in a heap and are known by their location.  A value
    is an immutable scalar or a reference to an object. *)
Definition loc := nat.

Inductive val :=
| VNone
| VBool (b : bool)
| VInt (z : Z)
| VStr (s : string)
| VRef (l : loc).

(** An instance with its attribute dict (an [InputParameter], an
    [OutputArtifact], an [S3Artifact], ...), a dict keyed by names (the
    [data] of an [AutonamedDict]) and a list (the [save] list of an
    [OutputArtifact]).  Attribute dicts and dicts keep insertion order. *)
Inductive obj :=
| Instance (cls : string) (attrs : list (string * val))
| Dict (items : list (string * val))
| List (items : list val).

Abbreviation heap := (gmap loc obj).

Fixpoint assoc_get (k : string) (l : list (string * val)) : option val :=
  match l with
  | [] => None
  | (k', v) :: l' => if decide (k = k') then Some v else assoc_get k l'
  end.

Fixpoint assoc_set (k : string) (v : val) (l : list (string * val))
    : list (string * val) :=
  match l with
  | [] => [(k, v)]
  | (k', v') :: l' =>
    if decide (k = k') then (k, v) :: l' else (k', v') :: assoc_set k v l'
  end.

(** The values an object holds, and the same object holding other values. *)
Definition children (o : obj) : list val :=
  match o with
  | Instance _ attrs => attrs.*2
  | Dict items => items.*2
  | List items => items
  end.

Definition rebuild (o : obj) (vs : list val) : obj :=
  match o with
  | Instance cls attrs => Instance cls (zip (attrs.*1) vs)
  | Dict items => Dict (zip (items.*1) vs)
  | List _ => List vs
  end.

(** [copy.deepcopy]: scalars are returned as they are; an object met for
    the first time gets a new, empty object of its class, recorded in the
    memo before its content is copied into it, and an object met again is
    replaced by the copy the memo has for it.  [n] bounds the depth of the
    descent. *)
Abbreviation copy_state := (heap * gmap loc loc)%type.

Fixpoint copy_all (f : val → copy_state → option (val * copy_state))
    (vs : list val) (σ : copy_state) : option (list val * copy_state) :=
  match vs with
  | [] => Some ([], σ)
  | v :: vs' =>
    match f v σ with
    | None => None
    | Some (v', σ1) =>
      match copy_all f vs' σ1 with
      | None => None
      | Some (vs'', σ2) => Some (v' :: vs'', σ2)
      end
    end
  end.

Fixpoint deepcopy_rec (n : nat) (v : val) (σ : copy_state)
    : option (val * copy_state) :=
  match v with
  | VRef l =>
    match σ.2 !! l with
    | Some l' => Some (VRef l', σ)
    | None =>
      match n with
      | O => None
      | S n' =>
        match σ.1 !! l with
        | None => None
        | Some o =>
          let l' := fresh (dom σ.1) in
          match copy_all (deepcopy_rec n') (children o)
                         (<[l' := rebuild o []]> σ.1, <[l := l']> σ.2) with
          | None => None
          | Some (vs, (h, memo)) =>
            Some (VRef l', (<[l' := rebuild o vs]> h, memo))
          end
        end
      end
    end
  | _ => Some (v, σ)
  end.

Definition deepcopy (v : val) (h : heap) : option (val * heap) :=
  match deepcopy_rec (S (size h)) v (h, ∅) with
  | Some (v', (h', _)) => Some (v', h')
  | None => None
  end.

(** [value.name] and [value.name = x] on an instance; [None] stands for
    [AttributeError]. *)
Definition getattr (v : val) (a : string) (h : heap) : option val :=
  match v with
  | VRef l =>
    match h !! l with
    | Some (Instance _ attrs) => assoc_get a attrs
    | _ => None
    end
  | _ => None
  end.

Definition setattr (v : val) (a : string) (x : val) (h : heap) : option heap :=
  match v with
  | VRef l =>
    match h !! l with
    | Some (Instance cls attrs) =>
      Some (<[l := Instance cls (assoc_set a x attrs)]> h)
    | _ => None
    end
  | _ => None
  end.

(** [UserDict.__setitem__] and [UserDict.__getitem__] on the dict at [d];
    [None] stands for [KeyError]. *)
Definition dict_setitem (d : loc) (key : string) (x : val) (h : heap)
    : option heap :=
  match h !! d with
  | Some (Dict items) => Some (<[d := Dict (assoc_set key x items)]> h)
  | _ => None
  end.

Definition getitem (d : loc) (key : string) (h : heap) : option val :=
  match h !! d with
  | Some (Dict items) => assoc_get key items
  | _ => None
  end.

(** [AutonamedDict.__setitem__] *)
Definition setitem (d : loc) (key : string) (value : val) (h : heap)
    : option heap :=
  match deepcopy value h with
  | None => None
  | Some (value', h1) =>
    match setattr value' "name" (VStr key) h1 with
    | None => None
    | Some h2 => dict_setitem d key value' h2
    end
  end.

(** *** Vocabulary of the properties *)

(** No reference dangles. *)
Definition closed (h : heap) : Prop :=
  ∀ l o l', h !! l = Some o → VRef l' ∈ children o → l' ∈ dom h.

(** [l'] is held by the object at [l]; [reach] follows such links. *)
Definition points_to (h : heap) (l l' : loc) : Prop :=
  ∃ o, h !! l = Some o ∧ VRef l' ∈ children o.

Definition reach (h : heap) : loc → loc → Prop := rtc (points_to h).

(** What holds of the heap and the memo while the objects of [h0] are
    being copied: the objects of [h0] are as they were, the memo sends
    objects of [h0] to new objects of the same class, and new objects hold
    new objects only. *)
Record copying (h0 : heap) (σ : copy_state) : Prop := {
  cp_frame : ∀ l, l ∈ dom h0 → σ.1 !! l = h0 !! l;
  cp_memo : ∀ l l', σ.2 !! l = Some l' →
    (l' ∉ dom h0) ∧
    (∃ o o', h0 !! l = Some o ∧ σ.1 !! l' = Some o' ∧
             rebuild o' [] = rebuild o []);
  cp_new : ∀ l o l', σ.1 !! l = Some o → l ∉ dom h0 →
    VRef l' ∈ children o → l' ∈ dom σ.1 ∧ l' ∉ dom h0;
}.

(** A value of the heap [h0], and a value made by the copier. *)
Definition val_in (h0 : heap) (v : val) : Prop :=
  ∀ l, v = VRef l → l ∈ dom h0.
Definition val_new (h0 : heap) (σ : copy_state) (v : val) : Prop :=
  ∀ l, v = VRef l → l ∈ dom σ.1 ∧ l ∉ dom h0.

(** What a call of the copier promises: it keeps the invariant and the
    memo, and writes to new locations only. *)
Definition copied (h0 : heap) (σ σ' : copy_state) : Prop :=
  copying h0 σ' ∧ σ.2 ⊆ σ'.2 ∧
  (∀ l, l ∈ dom σ.1 → σ'.1 !! l = σ.1 !! l).

(** The copier at depth [n] returns when at most [n - 1] objects of [h0]
    are not in the memo yet. *)
Definition copier_ok (h0 : heap) (n : nat) : Prop :=
  ∀ v σ, copying h0 σ → val_in h0 v → size (dom h0 ∖ dom σ.2) < n →
    ∃ v' σ', deepcopy_rec n v σ = Some (v', σ') ∧ copied h0 σ σ' ∧
             val_new h0 σ' v' ∧
             (∀ l, v = VRef l → ∃ l', v' = VRef l' ∧ σ'.2 !! l = Some l') ∧
             ((∀ l, v ≠ VRef l) → v' = v).

(** A value that is no reference: [None], a bool, an int or a str. *)
Definition scalar (v : val) : Prop := ∀ l, v ≠ VRef l.

(** [UserDict.update(other)] for a plain dict [other]: every item is
    assigned through [__setitem__], in the order of [other]. *)
Fixpoint update (d : loc) (items : list (string * val)) (h : heap)
    : option heap :=
  match items with
  | [] => Some h
  | (key, value) :: items' =>
    match setitem d key value h with
    | None => None
    | Some h' => update d items' h'
    end
  end.

(** [AutonamedDict(value)], as [Inputs.__setattr__] and
    [Outputs.__setattr__] build it from a plain dict: [UserDict.__init__]
    makes an empty [data] and updates it with [value]. *)
Definition autonamed_dict (value : list (string * val)) (h : heap)
    : option (loc * heap) :=
  let d := fresh (dom h) in
  match update d value (<[d := Dict []]> h) with
  | Some h' => Some (d, h')
  | None => None
  end.

(** [for par in self.parameters.values(): par.step_id = step_id] *)
Fixpoint set_each (a : string) (x : val) (entries : list val) (h : heap)
    : option heap :=
  match entries with
  | [] => Some h
  | e :: entries' =>
    match setattr e a x h with
    | None => None
    | Some h' => set_each a x entries' h'
    end
  end.

(** [Inputs.set_step_id] and [Outputs.set_step_id], for the collections
    at [parameters] and [artifacts]. *)
Definition set_step_id (parameters artifacts : loc) (step_id : val)
    (h : heap) : option heap :=
  match h !! parameters with
  | Some (Dict pars) =>
    match set_each "step_id" step_id (pars.*2) h with
    | Some h1 =>
      match h1 !! artifacts with
      | Some (Dict arts) => set_each "step_id" step_id (arts.*2) h1
      | _ => None
      end
    | None => None
    end
  | _ => None
  end.

(** [repr(entry)] for the four kinds of entries: the text of a deferred
    reference.  [None] stands for an entry this model has no text for (a
    [name] or [step_id] that is no str). *)
Definition kind_of (cls : string) : option string :=
  if decide (cls = "InputParameter") then Some "inputs.parameters"
  else if decide (cls = "InputArtifact") then Some "inputs.artifacts"
  else if decide (cls = "OutputParameter") then Some "outputs.parameters"
  else if decide (cls = "OutputArtifact") then Some "outputs.artifacts"
  else None.

Definition repr (v : val) (h : heap) : option string :=
  match v with
  | VRef l =>
    match h !! l with
    | Some (Instance cls attrs) =>
      match kind_of cls, assoc_get "name" attrs with
      | Some kind, Some VNone => Some ""
      | Some kind, Some (VStr name) =>
        match assoc_get "step_id" attrs with
        | Some VNone => Some (kind +:+ "." +:+ name)
        | Some (VStr step_id) =>
          Some (step_id +:+ "." +:+ kind +:+ "." +:+ name)
        | _ => None
        end
      | _, _ => None
      end
    | _ => None
    end
  | _ => None
  end.

(** The values of [items] are instances of the heap. *)
Definition instances (h : heap) (items : list (string * val)) : Prop :=
  ∀ k v, (k, v) ∈ items →
    ∃ p cls attrs, v = VRef p ∧ h !! p = Some (Instance cls attrs).

(** [closed], as a check that runs. *)
Definition closedb (h : heap) : bool :=
  forallb (λ lo : loc * obj,
             forallb (λ v, match v with
                           | VRef l' => bool_decide (is_Some (h !! l'))
                           | _ => true
                           end) (children lo.2))
          (map_to_list h).

End Io.

(** An input parameter named "old" at 1 whose value is the list at 2, and
    an empty collection at 0. *)
Module IoSamples.
Import Io.
Definition sample_heap : heap :=
  <[0 := Dict []]>
  (<[1 := Instance "InputParameter"
           [("name", VStr "old"); ("step_id", VNone); ("type", VNone);
            ("value", VRef 2)]]>
  (<[2 := List [VInt 1; VRef 2]]> ∅)).
End IoSamples.

(** ** argo_objects.py: pod names *)

Module PodName.

(** A Python [str] is a sequence of code points; [len] counts them and a
    slice cuts between them. *)
Definition str := list N.

(** [s.encode()]: the UTF-8 bytes of [s]; [None] stands for
    [UnicodeEncodeError], raised on a surrogate. *)
Definition utf8_char (c : N) : option (list N) :=
  if (c <? 0x80)%N then Some [c]
  else if (c <? 0x800)%N then
    Some [0xC0 + c / 0x40; 0x80 + c mod 0x40]%N
  else if (c <? 0x10000)%N then
    if ((0xD800 <=? c) && (c <=? 0xDFFF))%N then None
    else Some [0xE0 + c / 0x1000; 0x80 + (c / 0x40) mod 0x40;
               0x80 + c mod 0x40]%N
  else if (c <? 0x110000)%N then
    Some [0xF0 + c / 0x40000; 0x80 + (c / 0x1000) mod 0x40;
          0x80 + (c / 0x40) mod 0x40; 0x80 + c mod 0x40]%N
  else None.

Fixpoint encode (s : str) : option (list N) :=
  match s with
  | [] => Some []
  | c :: s' =>
    match utf8_char c, encode s' with
    | Some bs, Some bs' => Some (bs ++ bs')
    | _, _ => None
    end
  end.

(** [str(n)] for a non-negative integer: its decimal digits, the most
    significant first.  [fuel] bounds the number of digits. *)
Fixpoint digits (fuel : nat) (n : N) (acc : str) : str :=
  match fuel with
  | O => acc
  | S fuel' =>
    let acc' := (48 + n mod 10)%N :: acc in
    if (n / 10 =? 0)%N then acc' else digits fuel' (n / 10)%N acc'
  end.

Definition str_of_int (n : N) : str := digits (S (N.to_nat (N.log2 n))) n [].

(** The number a string of decimal digits denotes. *)
Definition int_of_str (s : str) : N :=
  fold_left (λ n c, 10 * n + (c - 48))%N s 0%N.

Definition max_k8s_resource_name_length : nat := 253.
Definition k8s_naming_hash_length : nat := 10.

Definition FNV_32_PRIME : N := 0x01000193.
Definition FNV1_32_INIT : N := 0x811c9dc5.

(** [fnva(data, hval_init, fnv_prime, fnv_size)] *)
Definition fnva (data : list N) (hval_init fnv_prime fnv_size : N) : N :=
  fold_left (λ hval byte, (N.lxor hval byte * fnv_prime) mod fnv_size)%N
            data hval_init.

(** The 32-bit FNV-1a hash as its definition words it: start from the
    offset basis 2166136261 and, for each byte, xor the byte in, then
    multiply by the prime 16777619 modulo 2^32. *)
Fixpoint fnv1a_32_from (h : N) (data : list N) : N :=
  match data with
  | [] => h
  | b :: data' => fnv1a_32_from ((N.lxor h b * 16777619) mod 4294967296)%N data'
  end.
Definition fnv1a_32 (data : list N) : N := fnv1a_32_from 2166136261%N data.

(** ["%s-%s" % (a, b)] *)
Definition dash (a b : str) : str := a ++ [45%N] ++ b.

Definition get_pod_name (wf_name node_name template_name node_id : str)
    : option str :=
  if decide (wf_name = node_name) then Some wf_name
  else
    let prefix := dash wf_name template_name in
    let max_prefix_length :=
      max_k8s_resource_name_length - k8s_naming_hash_length in
    let prefix :=
      if max_prefix_length - 1 <? length prefix
      then take (max_prefix_length - 1) prefix else prefix in
    match encode node_name with
    | None => None
    | Some data =>
      let hash_val := fnva data FNV1_32_INIT FNV_32_PRIME (2 ^ 32)%N in
      Some (dash prefix (str_of_int hash_val))
    end.

(** ["abc"] as a [str]. *)
Definition of_string (s : string) : str :=
  (λ a, N.of_nat (Ascii.nat_of_ascii a)) <$> String.list_ascii_of_string s.

End PodName.

(** ** argo_objects.py: documents, errors *)

Module Doc.

(** A parsed JSON or YAML value.  A mapping keeps the order of its keys. *)
#[local] Unset Elimination Schemes.
Inductive json :=
| JNull
| JBool (b : bool)
| JInt (z : Z)
| JStr (s : string)
| JList (items : list json)
| JDict (items : list (string * json)).
#[local] Set Elimination Schemes.

Abbreviation dict := (list (string * json)).

(** Induction on a document, with the property known of every value it
    holds. *)
Section json_ind.
Variable P : json → Prop.
Hypothesis HNull : P JNull.
Hypothesis HBool : ∀ b, P (JBool b).
Hypothesis HInt : ∀ z, P (JInt z).
Hypothesis HStr : ∀ s, P (JStr s).
Hypothesis HList : ∀ items, Forall P items → P (JList items).
Hypothesis HDict : ∀ items, Forall (λ kv, P kv.2) items → P (JDict items).

Fixpoint json_ind (j : json) : P j :=
  match j with
  | JNull => HNull
  | JBool b => HBool b
  | JInt z => HInt z
  | JStr s => HStr s
  | JList items =>
    HList items
      ((fix go (l : list json) : Forall P l :=
          match l with
          | [] => @List.Forall_nil _ P
          | x :: l' => @List.Forall_cons _ P x l' (json_ind x) (go l')
          end) items)
  | JDict items =>
    HDict items
      ((fix go (l : list (string * json)) : Forall (λ kv, P kv.2) l :=
          match l with
          | [] => @List.Forall_nil _ (λ kv, P kv.2)
          | kv :: l' => @List.Forall_cons _ (λ kv, P kv.2) kv l' (json_ind kv.2) (go l')
          end) items)
  end.
End json_ind.

(** [k in d], [d[k]], [d[k] = v] and [del d[k]]. *)
Fixpoint dget (k : string) (d : dict) : option json :=
  match d with
  | [] => None
  | (k', v) :: d' => if decide (k = k') then Some v else dget k d'
  end.

Definition has (k : string) (d : dict) : bool :=
  match dget k d with Some _ => true | None => false end.

Fixpoint dset (k : string) (v : json) (d : dict) : dict :=
  match d with
  | [] => [(k, v)]
  | (k', v') :: d' =>
    if decide (k = k') then (k, v) :: d' else (k', v') :: dset k v d'
  end.

Fixpoint ddel (k : string) (d : dict) : dict :=
  match d with
  | [] => []
  | (k', v') :: d' => if decide (k = k') then ddel k d' else (k', v') :: ddel k d'
  end.

(** The exceptions of the methods, and [Other] for one that a call into
    another library raises. *)
Inductive pyerr :=
| AssertionError
| AttributeError
| KeyError
| IndexError
| TypeError
| Other (cls : string).

Inductive res (A : Type) :=
| Ok (a : A)
| Raise (e : pyerr).
Arguments Ok {A} a.
Arguments Raise {A} e.

Definition bind {A B} (m : res A) (f : A → res B) : res B :=
  match m with
  | Ok a => f a
  | Raise e => Raise e
  end.

Definition of_option {A} (e : pyerr) (o : option A) : res A :=
  match o with
  | Some a => Ok a
  | None => Raise e
  end.

Fixpoint map_res {A B} (f : A → res B) (l : list A) : res (list B) :=
  match l with
  | [] => Ok []
  | x :: l' =>
    bind (f x) (λ y, bind (map_res f l') (λ ys, Ok (y :: ys)))
  end.

(** [l.sort(key=...)]: a stable sort, by insertion from the right. *)
Fixpoint insert_by {A} (le : A → A → bool) (x : A) (l : list A) : list A :=
  match l with
  | [] => [x]
  | y :: l' => if le x y then x :: y :: l' else y :: insert_by le x l'
  end.

Definition sort_by {A} (le : A → A → bool) (l : list A) : list A :=
  foldr (insert_by le) [] l.

(** [s[-n:]] *)
Definition last_chars (n : nat) (s : string) : string :=
  String.substring (String.length s - n) n s.

End Doc.

(** ** argo_objects.py: the output artifacts of a step *)

Module Step.
Import Doc.

(** The process-wide settings the methods read: [config["mode"]] and
    [s3_config["repo_type"]]. *)
Record Config := mkConfig {
  mode : string;
  repo_type : string;
}.

(** The object passed as [s3], by what the methods ask of it:
    [isinstance(s3, S3Artifact)], [s3.key] (a string), [s3.to_dict()],
    [s3.oss().to_dict()] and [s3.local_path].  The last two are [None] for
    an object without an [oss] method or a [local_path] attribute. *)
Record Handle := mkHandle {
  is_S3Artifact : bool;
  key : string;
  to_dict : dict;
  oss_to_dict : option dict;
  local_path : option json;
}.

(** [step.outputs] after [handle_io]: the parameters by name and the
    artifacts by name.  [None] is an absent attribute.  A parameter is kept
    as the outcome of [jsonpickle.loads(parameter.value)]: the list of
    records read, or the exception of the read. *)
Record Outputs := mkOutputs {
  parameters : option (list (string * res (list json)));
  artifacts : option (list (string * dict));
}.

Record ArgoStep := mkArgoStep {
  outputs : option Outputs;
}.

(** [d[name]] and [d[name] = a] on a mapping with string keys. *)
Fixpoint aget {A} (name : string) (d : list (string * A)) : option A :=
  match d with
  | [] => None
  | (n, a) :: d' => if decide (name = n) then Some a else aget name d'
  end.

Fixpoint aset {A} (name : string) (a : A) (d : list (string * A))
    : list (string * A) :=
  match d with
  | [] => [(name, a)]
  | (n, a') :: d' =>
    if decide (name = n) then (n, a) :: d' else (n, a') :: aset name a d'
  end.

(** [self.outputs.artifacts[name]] *)
Definition get_artifact (self : ArgoStep) (name : string) : res dict :=
  bind (of_option AttributeError (outputs self)) (λ o,
  bind (of_option AttributeError (artifacts o)) (λ arts,
  of_option KeyError (aget name arts))).

(** The step after a write to the object [self.outputs.artifacts[name]]. *)
Definition put_artifact (self : ArgoStep) (name : string) (a : dict)
    : ArgoStep :=
  match outputs self with
  | Some o =>
    match artifacts o with
    | Some arts =>
      mkArgoStep (Some (mkOutputs (parameters o) (Some (aset name a arts))))
    | None => self
    end
  | None => self
  end.

(** [key[-4:] == ".tgz"] *)
Definition ends_with_tgz (k : string) : bool :=
  bool_decide (last_chars 4 k = ".tgz").

(** The right-hand side of an assignment is evaluated before its target:
    [s3.local_path] and [s3.oss()] are read before the artifact is looked
    up. *)
Definition modify_output_artifact (cfg : Config) (self : ArgoStep)
    (name : string) (s3 : Handle) : res ArgoStep :=
  if decide (mode cfg = "debug") then
    bind (of_option AttributeError (local_path s3)) (λ lp,
    bind (get_artifact self name) (λ art,
    Ok (put_artifact self name (dset "local_path" lp art))))
  else if negb (is_S3Artifact s3) then Raise AssertionError
  else
    bind
      (if decide (repo_type cfg = "s3") then
         bind (get_artifact self name) (λ a,
         Ok (dset "s3" (JDict (to_dict s3)) a))
       else if decide (repo_type cfg = "oss") then
         bind (of_option AttributeError (oss_to_dict s3)) (λ d,
         bind (get_artifact self name) (λ a,
         Ok (dset "oss" (JDict d) a)))
       else get_artifact self name) (λ art,
    if ends_with_tgz (key s3) && has "archive" art then
      Ok (put_artifact self name (ddel "archive" art))
    else if negb (ends_with_tgz (key s3)) && negb (has "archive" art) then
      Ok (put_artifact self name
            (dset "archive" (JDict [("none", JDict [])]) art))
    else Ok (put_artifact self name art)).

(** [x['order']] of a declared slice record. *)
Definition key_of (item : json) : res json :=
  match item with
  | JDict d => of_option KeyError (dget "order" d)
  | _ => Raise TypeError
  end.

(** The order as an index.  A boolean is an integer in Python; any other
    value ends in a [TypeError], from a comparison of the sort or from the
    [+ 1] that follows it. *)
Definition int_of (k : json) : res Z :=
  match k with
  | JInt z => Ok z
  | JBool b => Ok (if b then 1 else 0)%Z
  | _ => Raise TypeError
  end.

Definition order_of (item : json) : res Z := bind (key_of item) int_of.

(** [l[i] = x] with Python's indices: a negative one counts from the end. *)
Definition list_setitem {A} (l : list A) (i : Z) (x : A) : res (list A) :=
  let n := Z.of_nat (length l) in
  if decide (0 ≤ i < n)%Z then Ok (<[Z.to_nat i := x]> l)
  else if decide (- n ≤ i < 0)%Z then Ok (<[Z.to_nat (n + i) := x]> l)
  else Raise IndexError.

(** [for local_path, item in zip(path, path_list):
       new_path[item["order"]] = local_path] *)
Fixpoint place (pairs : list (string * Z)) (new_path : list (option string))
    : res (list (option string)) :=
  match pairs with
  | [] => Ok new_path
  | (local_path, order) :: pairs' =>
    bind (list_setitem new_path order (Some local_path)) (place pairs')
  end.

(** The [path] argument: one path or a list of paths. *)
Inductive PathArg :=
| OnePath (p : string)
| Paths (ps : list string).

Definition as_list (path : PathArg) : list string :=
  match path with
  | OnePath p => [p]
  | Paths ps => ps
  end.

(** [path_list.sort(key=lambda x: x['order'])]: the key of every record
    is read first, then the records are sorted by it. *)
Definition keyed (path_list : list json) : res (list (Z * json)) :=
  bind (map_res (λ item, bind (key_of item) (λ k, Ok (k, item))) path_list)
    (map_res (λ ki : json * json, bind (int_of ki.1) (λ z, Ok (z, ki.2)))).

Definition le_key (a b : Z * json) : bool := (a.1 <=? b.1)%Z.

(** The ordered collection [new_path] that
    [upload_and_modify_sliced_output_artifact] builds from the declared
    records and the supplied paths. *)
Definition build_new_path (path_list : list json) (path : list string)
    : res (list (option string)) :=
  bind (keyed path_list) (λ records,
  let sorted := sort_by le_key records in
  bind (of_option IndexError (last sorted)) (λ top,
  place (zip path (sorted.*1)) (replicate (Z.to_nat (top.1 + 1)) None))).

(** The outcome of [jsonpickle.loads] on the value of the parameter
    ["dflow_%s_path_list" % name] of [self.outputs], when [self] has
    outputs, these have parameters and the parameter is among them. *)
Definition declared_path_list (self : ArgoStep) (name : string)
    : option (res (list json)) :=
  match outputs self with
  | Some o =>
    match parameters o with
    | Some pars => aget ("dflow_" +:+ name +:+ "_path_list") pars
    | None => None
    end
  | None => None
  end.

Section upload.
(** [upload_artifact(new_path, archive=None)], which stores the collection
    and returns the handle of the stored object, or raises. *)
Variable upload_artifact : list (option string) → res Handle.

(** The second component lists the collections handed to
    [upload_artifact], the latest last. *)
Definition upload_and_modify_sliced_output_artifact (cfg : Config)
    (self : ArgoStep) (uploads : list (list (option string)))
    (name : string) (path : PathArg)
    : res ArgoStep * list (list (option string)) :=
  match declared_path_list self name with
  | None => (Raise AssertionError, uploads)
  | Some loaded =>
    let path := as_list path in
    match bind loaded (λ path_list,
          if decide (length path_list = length path)
          then build_new_path path_list path
          else Raise AssertionError) with
    | Raise e => (Raise e, uploads)
    | Ok new_path =>
      (bind (upload_artifact new_path) (modify_output_artifact cfg self name),
       uploads ++ [new_path])
    end
  end.
End upload.

End Step.

(** ** argo_objects.py: ArgoObjectDict and ArgoObjectList *)

Module ArgoObject.
Import Doc.

(** The wrappers are objects of a heap, known by their location.  A value
    held by a wrapper is a wrapper, or a plain value: a scalar, or a dict
    or list that has not been wrapped. *)
Definition loc := nat.

Inductive wval :=
| Plain (j : json)
| Wrapped (l : loc).

(** The [data] of an [ArgoObjectDict] and of an [ArgoObjectList]. *)
Inductive wobj :=
| ODict (data : list (string * wval))
| OList (data : list wval).

Abbreviation heap := (gmap loc wobj).

(** [for key, value in self.items(): ...] and
    [for i, value in enumerate(self.data): ...] of the constructors, with
    [f] the wrapping of one value. *)
Definition wrap_items (f : json → heap → wval * heap) :=
  fix go (d : list (string * json)) (h : heap)
      : list (string * wval) * heap :=
    match d with
    | [] => ([], h)
    | (key, value) :: d' =>
      let '(w, h1) := f value h in
      let '(ws, h2) := go d' h1 in
      ((key, w) :: ws, h2)
    end.

Definition wrap_elems (f : json → heap → wval * heap) :=
  fix go (li : list json) (h : heap) : list wval * heap :=
    match li with
    | [] => ([], h)
    | value :: li' =>
      let '(w, h1) := f value h in
      let '(ws, h2) := go li' h1 in
      (w :: ws, h2)
    end.

(** What the constructors put in place of a value: [ArgoObjectDict(value)]
    for a dict, [ArgoObjectList(value)] for a list, the value itself
    otherwise.  The new object holds a copy of the items first, and the
    wrapped values once they are made. *)
Fixpoint wrap (value : json) (h : heap) : wval * heap :=
  match value with
  | JDict d =>
    let self := fresh (dom h) in
    let '(data, h') :=
      wrap_items wrap d (<[self := ODict (prod_map id Plain <$> d)]> h) in
    (Wrapped self, <[self := ODict data]> h')
  | JList li =>
    let self := fresh (dom h) in
    let '(data, h') :=
      wrap_elems wrap li (<[self := OList (Plain <$> li)]> h) in
    (Wrapped self, <[self := OList data]> h')
  | _ => (Plain value, h)
  end.

Definition ArgoObjectDict (d : dict) (h : heap) : loc * heap :=
  let self := fresh (dom h) in
  let '(data, h') :=
    wrap_items wrap d (<[self := ODict (prod_map id Plain <$> d)]> h) in
  (self, <[self := ODict data]> h').

Definition ArgoObjectList (li : list json) (h : heap) : loc * heap :=
  let self := fresh (dom h) in
  let '(data, h') :=
    wrap_elems wrap li (<[self := OList (Plain <$> li)]> h) in
  (self, <[self := OList data]> h').

Fixpoint wget (key : string) (data : list (string * wval)) : option wval :=
  match data with
  | [] => None
  | (k, w) :: data' => if decide (key = k) then Some w else wget key data'
  end.

Fixpoint wset (key : string) (w : wval) (data : list (string * wval))
    : list (string * wval) :=
  match data with
  | [] => [(key, w)]
  | (k, w') :: data' =>
    if decide (key = k) then (k, w) :: data' else (k, w') :: wset key w data'
  end.

(** [v.key] as [__getattr__] answers it, which Python calls for a [key]
    that is no attribute of the object or of its class: an
    [ArgoObjectDict] answers from its [data], and has nothing to fall back
    on for ["data"]; a list wrapper and a plain value have no such
    attribute.  [None] is a location without object. *)
Definition getattr (v : wval) (key : string) (h : heap)
    : option (res wval) :=
  match v with
  | Plain _ => Some (Raise AttributeError)
  | Wrapped l =>
    match h !! l with
    | Some (ODict data) =>
      if decide (key = "data") then Some (Raise AttributeError)
      else Some (of_option AttributeError (wget key data))
    | Some (OList _) => Some (Raise AttributeError)
    | None => None
    end
  end.

(** [self.key = value] on the [ArgoObjectDict] at [l].  The value is
    stored as it is.  [None] is outside of what is modelled: no
    [ArgoObjectDict] at [l], or an assignment to [data] of something that
    is no plain dict. *)
Definition setattr (l : loc) (key : string) (value : wval) (h : heap)
    : option heap :=
  match h !! l with
  | Some (ODict data) =>
    if decide (key = "data") then
      match value with
      | Plain (JDict d) => Some (<[l := ODict (prod_map id Plain <$> d)]> h)
      | _ => None
      end
    else Some (<[l := ODict (wset key value data)]> h)
  | _ => None
  end.

(** [recover]: the plain document of a wrapper.  [n] bounds the depth of
    the descent: wrappers that hold themselves have no document. *)
Fixpoint recover_rec (n : nat) (h : heap) (v : wval) : option json :=
  match v with
  | Plain j => Some j
  | Wrapped l =>
    match n with
    | O => None
    | S n' =>
      match h !! l with
      | Some (ODict data) =>
        JDict <$> mapM (λ kw : string * wval,
                          pair kw.1 <$> recover_rec n' h kw.2) data
      | Some (OList data) => JList <$> mapM (recover_rec n' h) data
      | None => None
      end
    end
  end.

Definition recover (l : loc) (h : heap) : option json :=
  recover_rec (S (size h)) h (Wrapped l).

(** *** Vocabulary of the properties *)

(** [tree h v j F]: in [h] the value [v] stands for the document [j], and
    the wrappers it is made of are those at [F], each met once. *)
Inductive tree (h : heap) : wval → json → gset loc → Prop :=
| tree_plain j : tree h (Plain j) j ∅
| tree_dict l data d F :
    h !! l = Some (ODict data) → items h data d F → l ∉ F →
    tree h (Wrapped l) (JDict d) ({[l]} ∪ F)
| tree_list l data li F :
    h !! l = Some (OList data) → elems h data li F → l ∉ F →
    tree h (Wrapped l) (JList li) ({[l]} ∪ F)
with items (h : heap)
    : list (string * wval) → list (string * json) → gset loc → Prop :=
| items_nil : items h [] [] ∅
| items_cons k w j data d F1 F2 :
    tree h w j F1 → items h data d F2 → F1 ## F2 →
    items h ((k, w) :: data) ((k, j) :: d) (F1 ∪ F2)
with elems (h : heap) : list wval → list json → gset loc → Prop :=
| elems_nil : elems h [] [] ∅
| elems_cons w j data li F1 F2 :
    tree h w j F1 → elems h data li F2 → F1 ## F2 →
    elems h (w :: data) (j :: li) (F1 ∪ F2).

Scheme tree_mut := Induction for tree Sort Prop
  with items_mut := Induction for items Sort Prop
  with elems_mut := Induction for elems Sort Prop.

(** What a constructor promises: a tree of new wrappers for the document,
    and the objects that were there untouched. *)
Definition wrapped (h : heap) (v : wval) (j : json) (h' : heap) : Prop :=
  ∃ F, tree h' v j F ∧ F ## dom h ∧ dom h' = dom h ∪ F ∧
       ∀ l, l ∈ dom h → h' !! l = h !! l.

End ArgoObject.

(** ** argo_objects.py: ArgoWorkflow.get_step *)

Module Workflow.
Import Doc.

(** [d[k]] *)
Definition item (d : dict) (k : string) : res json :=
  of_option KeyError (dget k d).

(** [n.find(pattern) == 0] *)
Definition find_at_0 (n pattern : string) : bool :=
  bool_decide (String.index 0 pattern n = Some 0).

(** [match(n, names)].  A display name that is no string has no [find]
    to call: the dict of the document that has an entry ["find"] answers
    with that entry, which cannot be called. *)
Fixpoint match_ (n : json) (names : list string) : res bool :=
  match names with
  | [] => Ok false
  | name :: names' =>
    match n with
    | JStr s =>
      if bool_decide (s = name) || find_at_0 s (name +:+ "(") then Ok true
      else match_ n names'
    | JDict d => if has "find" d then Raise TypeError else Raise AttributeError
    | _ => Raise AttributeError
    end
  end.

(** [v in names] for a list of strings. *)
Definition in_names (v : json) (names : list string) : bool :=
  match v with
  | JStr s => bool_decide (s ∈ names)
  | _ => false
  end.

(** ["parameters" in step["inputs"]]: a key of a dict, an element of a
    list, a part of a string. *)
Definition has_parameters (inputs : json) : res bool :=
  match inputs with
  | JDict d => Ok (has "parameters" d)
  | JList l =>
    Ok (existsb (λ x, match x with
                      | JStr s => bool_decide (s = "parameters")
                      | _ => false
                      end) l)
  | JStr s =>
    Ok (match String.index 0 "parameters" s with
        | Some _ => true
        | None => false
        end)
  | _ => Raise TypeError
  end.

(** What [for par in step["inputs"]["parameters"]] goes through: the
    elements of a list, the keys of a dict, the characters of a string. *)
Definition parameters_of (inputs : json) : res (list json) :=
  match inputs with
  | JDict d =>
    match dget "parameters" d with
    | Some (JList l) => Ok l
    | Some (JDict d') => Ok (JStr <$> d'.*1)
    | Some (JStr s) =>
      Ok ((λ c, JStr (String c "")) <$> String.list_ascii_of_string s)
    | Some _ => Raise TypeError
    | None => Raise KeyError
    end
  | _ => Raise TypeError
  end.

(** [par[k]] *)
Definition par_item (par : json) (k : string) : res json :=
  match par with
  | JDict p => item p k
  | _ => Raise TypeError
  end.

(** [for par in ...: if par["name"] == "dflow_key": step_key = par["value"]] *)
Fixpoint scan (pars : list json) (step_key : json) : res json :=
  match pars with
  | [] => Ok step_key
  | par :: pars' =>
    bind (par_item par "name") (λ n,
    match n with
    | JStr "dflow_key" => bind (par_item par "value") (scan pars')
    | _ => scan pars' step_key
    end)
  end.

(** [step_key] of a node; [JNull] is [None]. *)
Definition step_key (step : dict) : res json :=
  match dget "inputs" step with
  | None => Ok JNull
  | Some inputs =>
    bind (has_parameters inputs) (λ b : bool,
    if b then bind (parameters_of inputs) (λ pars, scan pars JNull)
    else Ok JNull)
  end.

(** An argument that is one string or a list of strings, and the list it
    is turned into. *)
Inductive Names :=
| One (s : string)
| Many (l : list string).

Definition listed (a : option Names) : option (list string) :=
  match a with
  | None => None
  | Some (One s) => Some [s]
  | Some (Many l) => Some l
  end.

(** The five filters, as lists. *)
Record Filters := mkFilters {
  f_name : option (list string);
  f_key : option (list string);
  f_phase : option (list string);
  f_id : option (list string);
  f_type : option (list string);
}.

(** The body of the loop up to the construction of the step: whether the
    node is kept.  A test that sends the loop to the next node leaves the
    later tests unevaluated. *)
Definition keep (f : Filters) (step : dict) : res bool :=
  bind (item step "startedAt") (λ t,
  match t with
  | JNull => Ok false
  | _ =>
    bind (match f_name f with
          | Some names => bind (item step "displayName") (λ n, match_ n names)
          | None => Ok true
          end) (λ named : bool,
    if negb named then Ok false else
    bind (match f_key f with
          | Some keys => bind (step_key step) (λ k, Ok (in_names k keys))
          | None => Ok true
          end) (λ keyed : bool,
    if negb keyed then Ok false else
    if match f_phase f with
       | Some phases =>
         negb (match dget "phase" step with
               | Some v => in_names v phases
               | None => false
               end)
       | None => false
       end then Ok false else
    if match f_type f with
       | Some types =>
         negb (match dget "type" step with
               | Some v => in_names v types
               | None => false
               end)
       | None => false
       end then Ok false else
    match f_id f with
    | Some ids => bind (item step "id") (λ v, Ok (in_names v ids))
    | None => Ok true
    end))
  end).

(** [self.metadata.name] *)
Definition workflow_name (self : dict) : res json :=
  bind (of_option AttributeError (dget "metadata" self)) (λ metadata,
  match metadata with
  | JDict md => of_option AttributeError (dget "name" md)
  | _ => Raise AttributeError
  end).

(** [x["startedAt"]] of a node that has the entry. *)
Definition time (step : dict) : json :=
  default JNull (dget "startedAt" step).

Section get_step.
Context {T : Type}.
(** [ArgoStep(step, workflow)], which keeps the entry [startedAt] of the
    node; and [a < b] on two start times. *)
Variable ArgoStep : dict → json → res T.
Variable lt : json → json → bool.

(** The loop over the nodes: the nodes kept, each with the step made of
    it. *)
Fixpoint select (self : dict) (f : Filters) (nodes : list json)
    : res (list (dict * T)) :=
  match nodes with
  | [] => Ok []
  | node :: nodes' =>
    bind (match node with
          | JDict step => Ok step
          | _ => Raise TypeError
          end) (λ step,
    bind (keep f step) (λ kept : bool,
    if kept then
      bind (workflow_name self) (λ workflow,
      bind (ArgoStep step workflow) (λ x,
      bind (select self f nodes') (λ xs, Ok ((step, x) :: xs))))
    else select self f nodes'))
  end.

(** [a] goes before [b] in a stable sort when [b < a] does not hold. *)
Definition le_time (a b : dict * T) : bool := negb (lt (time b.1) (time a.1)).

Definition get_step (self : dict) (name key phase id type : option Names)
    : res (list T) :=
  let f := mkFilters (listed name) (listed key) (listed phase) (listed id)
                     (listed type) in
  bind (of_option AttributeError (dget "status" self)) (λ status,
  match status with
  | JDict st =>
    match dget "nodes" st with
    | Some (JDict nodes) =>
      bind (select self f (nodes.*2)) (λ step_list,
      Ok ((sort_by le_time step_list).*2))
    | Some _ => Raise AttributeError
    | None => Ok []
    end
  | _ => Ok []
  end).
End get_step.

(** *** Vocabulary of the properties *)

(** [s] is [name], or [name] followed by an opening parenthesis and more. *)
Definition names_it (name s : string) : Prop :=
  s = name ∨ ∃ rest, s = name +:+ "(" +:+ rest.

(** The node has started and passes every filter that is given. *)
Definition passes (f : Filters) (step : dict) : Prop :=
  (∃ t, dget "startedAt" step = Some t ∧ t ≠ JNull) ∧
  (∀ names, f_name f = Some names →
     ∃ s name, dget "displayName" step = Some (JStr s) ∧
               name ∈ names ∧ names_it name s) ∧
  (∀ keys, f_key f = Some keys →
     ∃ k, step_key step = Ok (JStr k) ∧ k ∈ keys) ∧
  (∀ phases, f_phase f = Some phases →
     ∃ p, dget "phase" step = Some (JStr p) ∧ p ∈ phases) ∧
  (∀ types, f_type f = Some types →
     ∃ p, dget "type" step = Some (JStr p) ∧ p ∈ types) ∧
  (∀ ids, f_id f = Some ids →
     ∃ i, dget "id" step = Some (JStr i) ∧ i ∈ ids).

End Workflow.

Module WorkflowSamples.
Import Doc Workflow.

(** [a < b] on start times that are strings. *)
Definition str_lt (a b : json) : bool :=
  match a, b with
  | JStr x, JStr y => String.ltb x y
  | _, _ => false
  end.

Definition late : dict :=
  [("id", JStr "wf-1"); ("displayName", JStr "b");
   ("phase", JStr "Succeeded"); ("startedAt", JStr "2023-01-02T00:00:00Z")].

Definition pending : dict :=
  [("id", JStr "wf-2"); ("displayName", JStr "a");
   ("phase", JStr "Succeeded"); ("startedAt", JNull)].

Definition early : dict :=
  [("id", JStr "wf-3"); ("displayName", JStr "a(1)");
   ("phase", JStr "Succeeded"); ("startedAt", JStr "2023-01-01T00:00:00Z")].

Definition three_nodes : dict :=
  [("wf-1", JDict late); ("wf-2", JDict pending); ("wf-3", JDict early)].

Definition workflow : dict :=
  [("metadata", JDict [("name", JStr "wf")]);
   ("status", JDict [("nodes", JDict three_nodes)])].

End WorkflowSamples.

(** * Properties *)

(** ** Python list primitives *)

Module PyListFacts.

Section facts.
Context {A : Type} `{EqDecision A}.
Implicit Types (x : A) (l : list A).

Lemma contains_spec x l : PyList.contains x l = true ↔ x ∈ l.
Proof. unfold PyList.contains. apply bool_decide_eq_true. Qed.

Lemma index_lookup x l i : PyList.index x l = Some i → l !! i = Some x.
Proof.
  revert i. induction l as [|y l IH]; intros i; simpl; [done|].
  destruct (decide (x = y)) as [->|]; [by intros [= <-]|].
  destruct (PyList.index x l) as [k|]; simpl; [|done].
  intros [= <-]. by apply IH.
Qed.

Lemma index_is_Some x l : x ∈ l → is_Some (PyList.index x l).
Proof.
  induction l as [|y l IH]; [by intros ?%elem_of_nil|].
  simpl. intros Hin. destruct (decide (x = y)); [eauto|].
  apply elem_of_cons in Hin as [?|Hin]; [done|].
  destruct (IH Hin) as [k ->]. simpl. eauto.
Qed.

Lemma remove_perm x l l' : PyList.remove x l = Some l' → l ≡ₚ x :: l'.
Proof.
  revert l'. induction l as [|y l IH]; intros l'; simpl; [done|].
  destruct (decide (x = y)) as [->|]; [by intros [= <-]|].
  destruct (PyList.remove x l) as [k|]; simpl; [|done].
  intros [= <-]. rewrite (IH k eq_refl). apply Permutation_swap.
Qed.

Lemma remove_is_Some x l : x ∈ l → is_Some (PyList.remove x l).
Proof.
  induction l as [|y l IH]; [by intros ?%elem_of_nil|].
  simpl. intros Hin. destruct (decide (x = y)); [eauto|].
  apply elem_of_cons in Hin as [?|Hin]; [done|].
  destruct (IH Hin) as [k ->]. simpl. eauto.
Qed.

Lemma remove_length x l l' :
  PyList.remove x l = Some l' → length l = S (length l').
Proof. intros H%remove_perm. by rewrite H. Qed.
End facts.

End PyListFacts.

(** ** The auto-named collections *)

Module IoTheory.
Import Io IoSamples.

Implicit Types (h : heap) (v : val) (o : obj) (l : loc) (σ : copy_state).

Lemma assoc_get_set k x (items : list (string * val)) :
  assoc_get k (assoc_set k x items) = Some x.
Proof.
  induction items as [|[k' v'] items IH]; simpl.
  - by rewrite decide_True.
  - destruct (decide (k = k')); simpl; [by rewrite decide_True|].
    by rewrite decide_False.
Qed.

Lemma assoc_get_set_ne k k' x (items : list (string * val)) :
  k ≠ k' → assoc_get k' (assoc_set k x items) = assoc_get k' items.
Proof.
  intros Hne. induction items as [|[k0 v0] items IH]; simpl.
  - by rewrite decide_False.
  - destruct (decide (k = k0)) as [->|]; simpl.
    + by rewrite !decide_False.
    + destruct (decide (k' = k0)); [done|apply IH].
Qed.

Lemma assoc_set_values k x (items : list (string * val)) v :
  v ∈ (assoc_set k x items).*2 → v = x ∨ v ∈ items.*2.
Proof.
  induction items as [|[k' v'] items IH]; simpl.
  - intros ->%list_elem_of_singleton. by left.
  - destruct (decide (k = k')); simpl; rewrite !elem_of_cons; intuition.
Qed.

Lemma zip_values (ks : list string) (vs : list val) v :
  v ∈ (zip ks vs).*2 → v ∈ vs.
Proof.
  intros ([k v'] & -> & Hin)%list_elem_of_fmap. simpl.
  by apply elem_of_zip_r in Hin.
Qed.

Lemma rebuild_children o vs v : v ∈ children (rebuild o vs) → v ∈ vs.
Proof. destruct o; simpl; [apply zip_values|apply zip_values|done]. Qed.

Lemma zip_nil_r (ks : list string) : zip ks ([] : list val) = [].
Proof. by destruct ks. Qed.

Lemma rebuild_blank o vs : rebuild (rebuild o vs) [] = rebuild o [].
Proof. destruct o; simpl; by rewrite ?zip_nil_r. Qed.

Lemma children_blank o : children (rebuild o []) = [].
Proof. destruct o; simpl; by rewrite ?zip_nil_r. Qed.

Lemma copied_dom h0 σ σ' : copied h0 σ σ' → dom σ.1 ⊆ dom σ'.1.
Proof.
  intros (_ & _ & Hkeep) l Hl. apply elem_of_dom. rewrite Hkeep by done.
  by apply elem_of_dom.
Qed.

Lemma copying_dom h0 σ : copying h0 σ → dom h0 ⊆ dom σ.1.
Proof.
  intros [Hframe _ _] l Hl. apply elem_of_dom. rewrite Hframe by done.
  by apply elem_of_dom.
Qed.

Lemma remaining_mono (h0 : heap) (m m' : gmap loc loc) :
  m ⊆ m' → size (dom h0 ∖ dom m') ≤ size (dom h0 ∖ dom m).
Proof.
  intros Hsub%subseteq_dom. apply subseteq_size.
  intros l [Hl Hm]%elem_of_difference. apply elem_of_difference.
  split; [done|]. intros ?. by apply Hm, Hsub.
Qed.

Section copy.
Variable h0 : heap.
Hypothesis h0_closed : closed h0.

Lemma copy_all_spec n vs σ :
  copier_ok h0 n → copying h0 σ → Forall (val_in h0) vs →
  size (dom h0 ∖ dom σ.2) < n →
  ∃ vs' σ', copy_all (deepcopy_rec n) vs σ = Some (vs', σ') ∧
            copied h0 σ σ' ∧ Forall (val_new h0 σ') vs'.
Proof.
  intros Hn. revert σ. induction vs as [|v vs IH]; intros σ Hσ Hvs Hsize.
  { exists [], σ. split; [done|]. split; [|constructor].
    split; [done|]. split; done. }
  apply Forall_cons in Hvs as [Hv Hvs]. simpl.
  destruct (Hn v σ Hσ Hv Hsize) as (v' & σ1 & -> & Hc1 & Hnew & _).
  pose proof Hc1 as (Hσ1 & Hm1 & Hk1).
  destruct (IH σ1 Hσ1 Hvs) as (vs' & σ2 & -> & Hc2 & Hnews).
  { eapply Nat.le_lt_trans; [by apply remaining_mono|done]. }
  pose proof Hc2 as (Hσ2 & Hm2 & Hk2).
  exists (v' :: vs'), σ2. split; [done|]. split.
  - split; [done|]. split; [by etrans|].
    intros l Hl. rewrite Hk2, Hk1; [done|done|].
    by apply (copied_dom _ _ _ Hc1).
  - constructor; [|done]. intros l Hl. destruct (Hnew l Hl) as [Hin Hout].
    split; [|done]. by apply (copied_dom _ _ _ Hc2).
Qed.

Lemma copied_refl σ : copying h0 σ → copied h0 σ σ.
Proof. intros Hσ. split; [done|]. split; done. Qed.

(** The state in which the content of the object at [l] is copied:
    its empty copy is at the new location and in the memo. *)
Lemma copying_alloc σ l o :
  copying h0 σ → l ∈ dom h0 → σ.2 !! l = None → h0 !! l = Some o →
  let l' := fresh (dom σ.1) in
  let σ1 := (<[l' := rebuild o []]> σ.1, <[l := l']> σ.2) in
  copying h0 σ1 ∧ (l' ∉ dom h0) ∧ (l' ∉ dom σ.1) ∧
  size (dom h0 ∖ dom σ1.2) < size (dom h0 ∖ dom σ.2).
Proof.
  intros Hσ Hl Hmemo Ho l' σ1.
  assert (l' ∉ dom σ.1) as Hfresh by apply is_fresh.
  assert (l' ∉ dom h0) as Hout.
  { intros Hin. by apply Hfresh, (copying_dom h0 σ). }
  destruct Hσ as [Hframe Hmem Hnew].
  split_and!; try done.
  - split; simpl.
    + intros a Ha. rewrite lookup_insert_ne; [by apply Hframe|].
      intros <-. done.
    + intros a b Hab. apply lookup_insert_Some in Hab as [[<- <-]|[Hne Hab]].
      * split; [done|]. exists o, (rebuild o []).
        split_and!; [done|by rewrite lookup_insert_eq|].
        by rewrite rebuild_blank.
      * destruct (Hmem a b Hab) as (Hb & oa & ob & Hoa & Hob & Hshape).
        split; [done|]. exists oa, ob. split_and!; try done.
        rewrite lookup_insert_ne; [done|]. intros <-.
        apply Hfresh, elem_of_dom. eauto.
    + intros a oa b Ha Hanew Hb.
      apply lookup_insert_Some in Ha as [[<- <-]|[Hne Ha]].
      * rewrite children_blank in Hb. by apply elem_of_nil in Hb.
      * destruct (Hnew a oa b Ha Hanew Hb) as [Hbin Hbout].
        split; [|done]. rewrite dom_insert_L. apply elem_of_union. by right.
  - simpl. apply subset_size.
    rewrite dom_insert_L, (union_comm_L {[l]}), <-difference_difference_l_L.
    apply subset_difference_elem_of, elem_of_difference.
    split; [done|]. by apply not_elem_of_dom.
Qed.

Lemma children_in l o : h0 !! l = Some o → Forall (val_in h0) (children o).
Proof.
  intros Ho. apply Forall_forall. intros v Hv l' ->.
  by eapply h0_closed.
Qed.

Lemma deepcopy_rec_ok n : copier_ok h0 n.
Proof.
  induction n as [|n IH]; intros v σ Hσ Hv Hsize.
  { lia. }
  destruct v as [| | | |l];
    try (eexists _, σ; split; [done|];
         split; [by apply copied_refl|]; split; [by intros ? [=]|];
         split; [by intros ? [=]|done]).
  assert (l ∈ dom h0) as Hl by by apply Hv.
  simpl. destruct (σ.2 !! l) as [l'|] eqn:Hmemo.
  { exists (VRef l'), σ. split; [done|]. split; [by apply copied_refl|].
    split_and!.
    - intros ? [= <-].
      destruct (cp_memo _ _ Hσ l l' Hmemo) as (? & ? & o' & _ & Ho' & _).
      split; [|done]. apply elem_of_dom. eauto.
    - intros ? [= <-]. eauto.
    - intros Hno. by destruct (Hno l). }
  destruct (proj1 (elem_of_dom h0 l) Hl) as [o Ho].
  rewrite (cp_frame _ _ Hσ l Hl), Ho.
  destruct (copying_alloc σ l o Hσ Hl Hmemo Ho) as (Hσ1 & Hout & Hfresh & Hless).
  set (l' := fresh (dom σ.1)) in *.
  set (σ1 := (<[l' := rebuild o []]> σ.1, <[l := l']> σ.2)) in *.
  destruct (copy_all_spec n (children o) σ1 IH Hσ1 (children_in l o Ho))
    as (vs & [h2 memo2] & -> & (Hσ2 & Hm2 & Hk2) & Hnews); [lia|].
  simpl in Hm2, Hk2.
  assert (h2 !! l' = Some (rebuild o [])) as Hblank.
  { rewrite Hk2; simpl; [by rewrite lookup_insert_eq|].
    rewrite dom_insert_L. apply elem_of_union. left.
    by apply elem_of_singleton. }
  assert (memo2 !! l = Some l') as Hll'.
  { eapply lookup_weaken; [|done]. by rewrite lookup_insert_eq. }
  exists (VRef l'), (<[l' := rebuild o vs]> h2, memo2).
  split; [done|]. split_and!.
  - split; [|split]; simpl.
    + destruct Hσ2 as [Hframe2 Hmem2 Hnew2]. split; simpl.
      * intros a Ha. rewrite lookup_insert_ne; [by apply Hframe2|].
        by intros <-.
      * intros a b Hab.
        destruct (Hmem2 a b Hab) as (Hb & oa & ob & Hoa & Hob & Hshape).
        split; [done|]. simpl in Hob.
        destruct (decide (b = l')) as [->|Hne].
        -- exists oa, (rebuild o vs). rewrite lookup_insert_eq.
           split_and!; try done.
           rewrite rebuild_blank, <-Hshape.
           assert (ob = rebuild o []) as -> by congruence.
           by rewrite rebuild_blank.
        -- exists oa, ob. by rewrite lookup_insert_ne.
      * intros a oa b Ha Hanew Hb. rewrite dom_insert_L.
        apply lookup_insert_Some in Ha as [[<- <-]|[Hne Ha]].
        -- apply rebuild_children in Hb.
           eapply Forall_forall in Hnews; [|done].
           destruct (Hnews b eq_refl) as [Hbin Hbout].
           split; [|done]. apply elem_of_union. by right.
        -- destruct (Hnew2 a oa b Ha Hanew Hb) as [Hbin Hbout].
           split; [|done]. apply elem_of_union. by right.
    + etrans; [|done]. by apply insert_subseteq.
    + intros a Ha. rewrite lookup_insert_ne by (by intros <-).
      rewrite Hk2; simpl.
      * rewrite lookup_insert_ne; [done|]. by intros <-.
      * rewrite dom_insert_L. apply elem_of_union. by right.
  - intros ? [= <-]. simpl. split; [|done].
    rewrite dom_insert_L. apply elem_of_union. left.
    by apply elem_of_singleton.
  - intros ? [= <-]. eauto.
  - intros Hno. by destruct (Hno l).
Qed.
End copy.

Lemma closedb_sound h : closedb h = true → closed h.
Proof.
  unfold closedb. rewrite forallb_forall. intros Hall l o l' Ho Hl'.
  apply elem_of_map_to_list, list_elem_of_In in Ho.
  specialize (Hall _ Ho). simpl in Hall. rewrite forallb_forall in Hall.
  apply list_elem_of_In in Hl'. specialize (Hall _ Hl'). simpl in Hall.
  apply bool_decide_eq_true in Hall. by apply elem_of_dom.
Qed.

Lemma deepcopy_spec h v :
  closed h → val_in h v →
  ∃ v' h', deepcopy v h = Some (v', h') ∧
    (∀ l, l ∈ dom h → h' !! l = h !! l) ∧
    val_new h (h', ∅) v' ∧
    (∀ l o l', h' !! l = Some o → l ∉ dom h → VRef l' ∈ children o →
       l' ∈ dom h' ∧ l' ∉ dom h) ∧
    (∀ l o, v = VRef l → h !! l = Some o →
       ∃ l' o', v' = VRef l' ∧ h' !! l' = Some o' ∧
                rebuild o' [] = rebuild o []) ∧
    ((∀ l, v ≠ VRef l) → v' = v).
Proof.
  intros Hclosed Hv.
  assert (copying h (h, ∅)) as Hstart.
  { split; simpl; [done|by intros ?? ?%lookup_empty_Some|].
    intros l o l' Ho Hl. destruct Hl. apply elem_of_dom. eauto. }
  destruct (deepcopy_rec_ok h Hclosed (S (size h)) v (h, ∅) Hstart Hv)
    as (v' & [h' memo] & Hrec & (Hσ' & _ & Hkeep) & Hnew & Href & Hatom).
  { simpl. rewrite dom_empty_L, difference_empty_L, size_dom. lia. }
  exists v', h'. unfold deepcopy. rewrite Hrec.
  split_and!; try done.
  - apply (cp_new _ _ Hσ').
  - intros l o -> Ho. destruct (Href l eq_refl) as (l' & -> & Hmemo).
    destruct (cp_memo _ _ Hσ' l l' Hmemo) as (_ & o1 & o' & Ho1 & Ho' & Hshape).
    exists l', o'. split_and!; try done. congruence.
Qed.

(** [AutonamedDict.__setitem__] step by step, for an entry that is an
    instance. *)
Lemma setitem_spec h d key p cls attrs items :
  closed h → h !! d = Some (Dict items) →
  h !! p = Some (Instance cls attrs) →
  ∃ h1 l' attrs',
    deepcopy (VRef p) h = Some (VRef l', h1) ∧
    h1 !! l' = Some (Instance cls attrs') ∧
    (l' ∉ dom h) ∧
    (∀ l, l ∈ dom h → h1 !! l = h !! l) ∧
    (∀ l o b, h1 !! l = Some o → l ∉ dom h → VRef b ∈ children o →
       b ∈ dom h1 ∧ b ∉ dom h) ∧
    setitem d key (VRef p) h =
      Some (<[d := Dict (assoc_set key (VRef l') items)]>
              (<[l' := Instance cls (assoc_set "name" (VStr key) attrs')]> h1)).
Proof.
  intros Hclosed Hd Hp.
  destruct (deepcopy_spec h (VRef p) Hclosed)
    as (v' & h1 & Hcopy & Hkeep & Hnew & Hnews & Hshape & _).
  { intros ? [= <-]. apply elem_of_dom. eauto. }
  destruct (Hshape p _ eq_refl Hp) as (l' & o' & -> & Ho' & Hsame).
  destruct (Hnew l' eq_refl) as [_ Hout]. simpl in Hout.
  assert (∃ attrs', o' = Instance cls attrs') as [attrs' ->].
  { destruct o'; simpl in Hsame; try done. injection Hsame as ->. eauto. }
  exists h1, l', attrs'. split_and!; try done.
  unfold setitem. rewrite Hcopy. simpl. rewrite Ho'.
  unfold dict_setitem. rewrite lookup_insert_ne.
  - rewrite Hkeep, Hd; [done|]. apply elem_of_dom. eauto.
  - intros ->. apply Hout, elem_of_dom. eauto.
Qed.

(** C4.  After [d[K] = p] on an auto-named collection [d], for an entry
    [p] that is an instance, the entry stored under [K] has [K] as its
    [name], whatever the attributes of [p] were. *)
Theorem C4_assignment_names_the_entry
    (h : heap) (d : loc) (K : string) (p : loc)
    (cls : string) (attrs items : list (string * val)) :
  closed h → h !! d = Some (Dict items) →
  h !! p = Some (Instance cls attrs) →
  ∃ h' entry,
    setitem d K (VRef p) h = Some h' ∧
    getitem d K h' = Some entry ∧
    getattr entry "name" h' = Some (VStr K).
Proof.
  intros Hclosed Hd Hp.
  destruct (setitem_spec h d K p cls attrs items Hclosed Hd Hp)
    as (h1 & l' & attrs' & _ & Hl' & Hout & _ & _ & ->).
  assert (d ≠ l') as Hne.
  { intros ->. apply Hout, elem_of_dom. eauto. }
  eexists _, (VRef l'). split; [done|]. split.
  - unfold getitem. rewrite lookup_insert_eq. apply assoc_get_set.
  - unfold getattr. rewrite lookup_insert_ne, lookup_insert_eq by done.
    apply assoc_get_set.
Qed.

Lemma C4_assignment_names_the_entry_witness :
  ∃ h' entry,
    setitem 0 "x" (VRef 1) sample_heap = Some h' ∧
    getitem 0 "x" h' = Some entry ∧
    getattr entry "name" h' = Some (VStr "x").
Proof.
  apply (C4_assignment_names_the_entry sample_heap 0 "x" 1 "InputParameter"
           [("name", VStr "old"); ("step_id", VNone); ("type", VNone);
            ("value", VRef 2)] []).
  - apply closedb_sound. vm_compute. reflexivity.
  - vm_compute. reflexivity.
  - vm_compute. reflexivity.
Defined.

(** C10.  [d[K] = p] stores a deep copy: the stored entry is a new object,
    distinct from [p]; [p] and its [name] are as before; every object the
    stored entry reaches is new as well, so that no write to an object
    that existed before the assignment, [p] and what [p] refers to
    included, changes the stored entry. *)
Theorem C10_assignment_stores_a_deep_copy
    (h : heap) (d : loc) (K : string) (p : loc)
    (cls : string) (attrs items : list (string * val)) :
  closed h → h !! d = Some (Dict items) →
  h !! p = Some (Instance cls attrs) →
  ∃ h' l',
    setitem d K (VRef p) h = Some h' ∧
    getitem d K h' = Some (VRef l') ∧
    l' ≠ p ∧ (l' ∉ dom h) ∧
    h' !! p = h !! p ∧
    getattr (VRef p) "name" h' = getattr (VRef p) "name" h ∧
    (∀ l, reach h' l' l → l ∈ dom h' ∧ l ∉ dom h) ∧
    (∀ h'' : heap,
       (∀ l, l ∈ dom h' → l ∉ dom h → h'' !! l = h' !! l) →
       ∀ l, reach h' l' l → h'' !! l = h' !! l).
Proof.
  intros Hclosed Hd Hp.
  destruct (setitem_spec h d K p cls attrs items Hclosed Hd Hp)
    as (h1 & l' & attrs' & _ & Hl' & Hout & Hkeep & Hnews & ->).
  assert (d ∈ dom h) as Hdin by (apply elem_of_dom; eauto).
  assert (p ∈ dom h) as Hpin by (apply elem_of_dom; eauto).
  assert (d ≠ l') as Hne by (by intros ->).
  assert (p ≠ l') as Hpl by (by intros ->).
  assert (p ≠ d) as Hpd by (intros ->; congruence).
  set (h' := <[d := Dict (assoc_set K (VRef l') items)]>
               (<[l' := Instance cls (assoc_set "name" (VStr K) attrs')]> h1)).
  assert (h' !! p = h !! p) as Hsame.
  { unfold h'. rewrite !lookup_insert_ne by done. by apply Hkeep. }
  assert (∀ l, reach h' l' l → l ∈ dom h' ∧ l ∉ dom h) as Hreach.
  { apply (rtc_ind_r (λ l, l ∈ dom h' ∧ l ∉ dom h)).
    - split; [|done]. unfold h'. rewrite !dom_insert_L.
      apply elem_of_union. right. apply elem_of_union. left.
      by apply elem_of_singleton.
    - intros a b Hab Hstep [Hain Haout]. destruct Hstep as (o & Ho & Hb).
      assert (a ≠ d) as Had by (by intros ->).
      unfold h' in Ho. rewrite lookup_insert_ne in Ho by done.
      assert (b ∈ dom h1 ∧ b ∉ dom h) as [Hbin Hbout].
      { apply lookup_insert_Some in Ho as [[<- <-]|[Hal Ho]].
        - simpl in Hb. apply assoc_set_values in Hb as [[=]|Hb].
          by apply (Hnews l' (Instance cls attrs') b).
        - by apply (Hnews a o b). }
      split; [|done]. unfold h'. rewrite !dom_insert_L.
      apply elem_of_union. right. apply elem_of_union. by right. }
  exists h', l'. split_and!; try done.
  - unfold getitem, h'. rewrite lookup_insert_eq. apply assoc_get_set.
  - unfold getattr. by rewrite Hsame.
  - intros h'' Hagree l Hl. destruct (Hreach l Hl) as [Hin Hnotin].
    by apply Hagree.
Qed.

Lemma C10_assignment_stores_a_deep_copy_witness :
  ∃ h' l',
    setitem 0 "x" (VRef 1) sample_heap = Some h' ∧
    getitem 0 "x" h' = Some (VRef l') ∧
    l' ≠ 1 ∧ (l' ∉ dom sample_heap) ∧
    h' !! 1 = sample_heap !! 1 ∧
    getattr (VRef 1) "name" h' = getattr (VRef 1) "name" sample_heap ∧
    (∀ l, reach h' l' l → l ∈ dom h' ∧ l ∉ dom sample_heap) ∧
    (∀ h'' : heap,
       (∀ l, l ∈ dom h' → l ∉ dom sample_heap → h'' !! l = h' !! l) →
       ∀ l, reach h' l' l → h'' !! l = h' !! l).
Proof.
  apply (C10_assignment_stores_a_deep_copy sample_heap 0 "x" 1
           "InputParameter"
           [("name", VStr "old"); ("step_id", VNone); ("type", VNone);
            ("value", VRef 2)] []).
  - apply closedb_sound. vm_compute. reflexivity.
  - vm_compute. reflexivity.
  - vm_compute. reflexivity.
Defined.
End IoTheory.

(** ** The local debug scheduler *)

Module DagTheory.
Import Dag PyListFacts.

Section invariants.
Context {Outputs : Type}.
Abbreviation DAG := (Dag.DAG Outputs).
Abbreviation Task := (Dag.Task Outputs).
Implicit Types (s : DAG) (t r : ref) (tr : list event).

Lemma finished_of_app tr1 tr2 :
  finished_of (tr1 ++ tr2) = finished_of tr1 ++ finished_of tr2.
Proof.
  induction tr1 as [|[x|x] tr1 IH]; simpl; [done|done|by f_equal].
Qed.

Lemma dependencies_first_finished deps tr x :
  dependencies_first deps tr → dependencies_first deps (tr ++ [EvFinished x]).
Proof.
  intros H i t Hi dep Hdep.
  apply lookup_snoc_Some in Hi as [[Hlt Hi]|[_ ?]]; [|done].
  rewrite take_app_le by lia. by eapply H.
Qed.

Lemma dependencies_first_submit deps tr x :
  dependencies_first deps tr →
  (∀ dep, dep ∈ deps x → dep ∈ finished_of tr) →
  dependencies_first deps (tr ++ [EvSubmit x]).
Proof.
  intros H Hx i t Hi dep Hdep.
  apply lookup_snoc_Some in Hi as [[Hlt Hi]|[-> [= <-]]].
  - rewrite take_app_le by lia. by eapply H.
  - rewrite take_app_le, take_ge by lia. by apply Hx.
Qed.

Lemma ready_spec s t :
  ready s t = true ↔ ∀ dep, dep ∈ dependencies (store s t) → dep ∈ finished s.
Proof.
  unfold ready. rewrite forallb_forall. split.
  - intros H dep Hdep. apply contains_spec, H. by apply list_elem_of_In.
  - intros H dep Hdep. apply contains_spec, H. by apply list_elem_of_In.
Qed.

Variable ts : list ref.
Variable st : ref → Task.

Lemma start_inv : inv ts st (start ts st).
Proof.
  split; simpl; try done.
  - by rewrite !app_nil_r.
  - exists []. split; [constructor|done].
  - intros r Hr. by apply elem_of_nil in Hr.
  - intros r Hr. by apply elem_of_nil in Hr.
Qed.

Lemma dispatch_inv s t :
  inv ts st s → t ∈ waiting s → ready s t = true →
  ∃ s', dispatch s t = Ok s' ∧ inv ts st s' ∧
        length (waiting s) = S (length (waiting s')) ∧
        (∀ k, length (waiting s) ≤ k + 1 → waiting s' !! k = None) ∧
        finished s' = finished s ∧
        running s' = running s ++ [t].
Proof.
  intros [Hts Hstatic Hperm (rs & Hfut & Hrs) Hfin Hord Hph Hsub Hun] Hw Hready.
  assert (t ∈ ts) as Hin.
  { rewrite <-Hperm. apply elem_of_app. by left. }
  unfold dispatch. simpl. rewrite Hts.
  destruct (index_is_Some t ts Hin) as [i Hi]. rewrite Hi.
  destruct (remove_is_Some t (waiting s) Hw) as [w Hrem]. rewrite Hrem.
  eexists. split; [done|].
  pose proof (remove_perm _ _ _ Hrem) as Hpw.
  pose proof (remove_length _ _ _ Hrem) as Hlen.
  split; [|split; [done|split; [|done]]].
  - split; simpl.
    + done.
    + intros r. case_decide; [subst r|]; simpl; apply Hstatic.
    + rewrite <-Hperm, Hpw.
      rewrite (Permutation_app_comm (running s) [t]). simpl.
      by rewrite <-Permutation_middle.
    + exists (rs ++ [t]). split; [|by rewrite Hrs].
      apply Forall2_app; [done|]. constructor; [|constructor].
      simpl. by apply index_lookup.
    + rewrite finished_of_app. simpl. by rewrite app_nil_r.
    + apply dependencies_first_submit; [done|].
      intros dep Hdep. rewrite <-Hfin.
      apply (proj1 (ready_spec s t) Hready).
      by rewrite (proj1 (Hstatic t)).
    + intros r Hr. case_decide as Hrt; [subst r; simpl; by left|].
      apply Hph. rewrite <-app_assoc in Hr.
      apply elem_of_app in Hr as [Hr|Hr]; [apply elem_of_app; by left|].
      apply elem_of_cons in Hr as [->|Hr]; [done|].
      apply elem_of_app; by right.
    + intros r Hr. apply elem_of_app. rewrite <-app_assoc in Hr.
      apply elem_of_app in Hr as [Hr|Hr].
      * left. apply Hsub, elem_of_app. by left.
      * apply elem_of_cons in Hr as [->|Hr]; [right; by left|].
        left. apply Hsub, elem_of_app. by right.
    + intros r Hr. case_decide as Hrt.
      * subst r. exfalso. apply Hr, elem_of_app. right. by left.
      * apply Hun. intros ?. apply Hr, elem_of_app. by left.
  - simpl. intros k Hk. apply lookup_ge_None. lia.
Qed.

Lemma dispatch_Ok s t s' :
  dispatch s t = Ok s' →
  length (waiting s) = S (length (waiting s')) ∧
  running s' = running s ++ [t] ∧ finished s' = finished s.
Proof.
  unfold dispatch. simpl.
  destruct (PyList.index t (tasks s)); [|done].
  destruct (PyList.remove t (waiting s)) as [w|] eqn:Hrem; [|done].
  intros [= <-]. simpl. split; [|done]. by eapply remove_length.
Qed.

(** The bound given to [resolve_from] is enough: the iterator is
    exhausted when the passes are used up. *)
Lemma resolve_from_exhausts n i s :
  length (waiting s) ≤ n + i →
  resolve_from (S n) i s = resolve_from n i s.
Proof.
  revert i s. induction n as [|n IH]; intros i s Hlen.
  - simpl. rewrite (lookup_ge_None_2 (waiting s) i) by lia. done.
  - change (resolve_from (S (S n)) i s) with
      (match waiting s !! i with
       | None => Ok s
       | Some t =>
         if ready s t then
           match dispatch s t with
           | Ok s' => resolve_from (S n) (S i) s'
           | Err e s' => Err e s'
           end
         else resolve_from (S n) (S i) s
       end).
    simpl. destruct (waiting s !! i) as [t|]; [|done].
    destruct (ready s t).
    + destruct (dispatch s t) as [s'|] eqn:Hd; [|done].
      apply dispatch_Ok in Hd as (Hw & _ & _). apply IH. lia.
    + apply IH. lia.
Qed.

Lemma resolve_from_inv n i s :
  inv ts st s →
  ∃ s', resolve_from n i s = Ok s' ∧ inv ts st s' ∧
        finished s' = finished s ∧
        ∃ l, running s' = running s ++ l.
Proof.
  revert i s. induction n as [|n IH]; intros i s Hinv; simpl.
  { exists s. split_and!; try done. exists []. by rewrite app_nil_r. }
  destruct (waiting s !! i) as [t|] eqn:Hi.
  2:{ exists s. split_and!; try done. exists []. by rewrite app_nil_r. }
  destruct (ready s t) eqn:Hready.
  - destruct (dispatch_inv s t Hinv) as (s1 & -> & Hinv1 & _ & _ & Hf1 & Hr1);
      [by eapply list_elem_of_lookup_2|done|].
    destruct (IH (S i) s1 Hinv1) as (s' & -> & Hinv' & Hf' & l & Hl).
    exists s'. split_and!; try done; [congruence|].
    exists (t :: l). rewrite Hl, Hr1, <-app_assoc. done.
  - apply IH, Hinv.
Qed.

Lemma resolve_inv s :
  inv ts st s →
  ∃ s', resolve s = Ok s' ∧ inv ts st s' ∧ finished s' = finished s.
Proof.
  intros Hinv.
  destruct (resolve_from_inv (length (waiting s)) 0 s Hinv)
    as (s' & Hs' & Hinv' & Hf & _).
  by exists s'.
Qed.

(** When [resolve] leaves nothing running, it looked at every waiting
    task and none was ready. *)
Lemma resolve_from_idle n i s s' :
  inv ts st s → resolve_from n i s = Ok s' → running s' = [] →
  length (waiting s) ≤ n + i →
  s' = s ∧ ∀ k t, i ≤ k → waiting s !! k = Some t → ready s t = false.
Proof.
  revert i s. induction n as [|n IH]; intros i s Hinv; simpl.
  { intros [= <-] _ Hlen. split; [done|]. intros k t Hk Hl.
    apply lookup_lt_Some in Hl. lia. }
  destruct (waiting s !! i) as [t|] eqn:Hi.
  2:{ intros [= <-] _ _. split; [done|]. intros k t Hk Hl.
      apply lookup_ge_None in Hi. apply lookup_lt_Some in Hl. lia. }
  destruct (ready s t) eqn:Hready.
  - destruct (dispatch_inv s t Hinv) as (s1 & -> & Hinv1 & _ & _ & _ & Hr1);
      [by eapply list_elem_of_lookup_2|done|].
    intros Hres Hrun _.
    destruct (resolve_from_inv n (S i) s1 Hinv1) as (s2 & Hs2 & _ & _ & l & Hl).
    rewrite Hres in Hs2. injection Hs2 as <-.
    rewrite Hl, Hr1, <-app_assoc in Hrun. by destruct (running s).
  - intros Hres Hrun Hlen.
    destruct (IH (S i) s Hinv Hres Hrun) as [-> Hall]; [lia|].
    split; [done|]. intros k t' Hk Hl.
    destruct (decide (k = i)) as [->|]; [congruence|].
    apply (Hall k); [lia|done].
Qed.

Lemma resolve_idle s s' :
  inv ts st s → resolve s = Ok s' → idle_means_stuck s'.
Proof.
  intros Hinv Hres Hrun t Ht.
  destruct (resolve_from_idle _ 0 s s' Hinv Hres Hrun) as [-> Hall]; [lia|].
  apply list_elem_of_lookup in Ht as [k Hk]. apply (Hall k); [lia|done].
Qed.

(** The statements after the [try] of the loop body, for a task object
    rewritten by [f]. *)
Lemma complete_inv s k fut j tj rest f :
  inv ts st s → futures s !! k = Some (fut, j) → ts !! j = Some tj →
  PyList.remove tj (running s) = Some rest →
  (∀ x, dependencies (f x) = dependencies x ∧
        continue_on_failed (f x) = continue_on_failed x ∧
        (phase (f x) = phase x ∨ phase (f x) = "Failed")) →
  inv ts st (mark_finished tj rest (update_task f tj (pop_future k s))).
Proof.
  intros [Hts Hstatic Hperm (rs & Hfut & Hrs) Hfin Hord Hph Hsub Hun]
    Hk Hj Hrem Hf.
  pose proof (remove_perm _ _ _ Hrem) as Hpr.
  assert (tj ∈ running s) as Htj.
  { rewrite Hpr. by left. }
  assert (∀ r, r ∈ rest ++ finished s ++ [tj] → r ∈ running s ++ finished s)
    as Hsame.
  { intros r. rewrite Hpr, !elem_of_app, !elem_of_cons, elem_of_nil. tauto. }
  split; simpl.
  - done.
  - intros r. case_decide; [subst r|]; [|apply Hstatic].
    destruct (Hf (store s tj)) as (-> & -> & _). apply Hstatic.
  - rewrite <-Hperm, Hpr. rewrite (Permutation_app_comm (finished s) [tj]).
    simpl. by rewrite <-Permutation_middle.
  - exists (delete k rs). split; [by apply Forall2_delete|].
    destruct (Forall2_lookup_l _ _ _ _ _ Hfut Hk) as (r & Hr & Hjr).
    simpl in Hjr. assert (r = tj) as -> by congruence.
    apply (Permutation_cons_inv (a:=tj)).
    by rewrite <-(delete_Permutation rs k tj), Hrs, Hpr.
  - rewrite finished_of_app. simpl. by rewrite Hfin.
  - by apply dependencies_first_finished.
  - intros r Hr. case_decide as Hrt; [subst r|by apply Hph, Hsame].
    destruct (Hf (store s tj)) as (_ & _ & [->| ->]); [|by right].
    apply Hph, elem_of_app. by left.
  - intros r Hr. apply elem_of_app. left. by apply Hsub, Hsame.
  - intros r Hr. assert (EvSubmit r ∉ trace s) as Hr'.
    { intros ?. apply Hr, elem_of_app. by left. }
    case_decide as Hrt; [subst r|by apply Hun].
    exfalso. apply Hr', Hsub, elem_of_app. by left.
Qed.

(** What one pass through the loop of [run] does in a state the loop
    can be in. *)
Lemma run_body_inv s c :
  inv ts st s → running s ≠ [] →
  ∃ fut j tj,
    futures s !! (which c mod length (futures s)) = Some (fut, j) ∧
    ts !! j = Some tj ∧ tj ∈ running s ∧
    match returned c, continue_on_failed (st tj) with
    | None, false =>
      run_body s c =
        Err (TaskFailed j)
            (update_task (set_phase "Failed") tj
               (pop_future (which c mod length (futures s)) s))
    | _, _ =>
      ∃ s', run_body s c = Ok s' ∧ inv ts st s' ∧ idle_means_stuck s' ∧
            finished s' = finished s ++ [tj]
    end.
Proof.
  intros Hinv Hrun.
  pose proof Hinv as [Hts Hstatic Hperm (rs & Hfut & Hrs) Hfin Hord Hph Hsub Hun].
  assert (length (futures s) = length (running s)) as Hlen.
  { by rewrite (Forall2_length _ _ _ Hfut), Hrs. }
  assert (length (running s) ≠ 0) as Hne by (by destruct (running s)).
  set (k := which c mod length (futures s)).
  assert (k < length (futures s)) as Hk.
  { apply Nat.mod_upper_bound. lia. }
  destruct (lookup_lt_is_Some_2 _ _ Hk) as [[fut j] Hkj].
  destruct (Forall2_lookup_l _ _ _ _ _ Hfut Hkj) as (tj & Hr & Hj).
  simpl in Hj.
  assert (tj ∈ running s) as Htj.
  { rewrite <-Hrs. by eapply list_elem_of_lookup_2. }
  destruct (remove_is_Some tj (running s) Htj) as [rest Hrem].
  exists fut, j, tj. split_and!; try done.
  unfold run_body. fold k.
  destruct (futures s) as [|f0 fs] eqn:Hfs; [simpl in Hk; lia|].
  rewrite <-Hfs in *. rewrite Hkj. simpl.
  pose proof Hj as Hj'. rewrite <-Hts in Hj'. rewrite Hj'.
  destruct (returned c) as [o|].
  - simpl. rewrite Hrem.
    pose proof (complete_inv s k fut j tj rest (set_outputs o) Hinv Hkj Hj Hrem)
      as Hinv1.
    match goal with |- context [resolve ?x] => set (s1 := x) in * end.
    destruct (resolve_inv s1) as (s' & Hs' & Hinv' & Hf').
    { apply Hinv1. intros x. simpl. auto. }
    assert (idle_means_stuck s'); [|destruct (continue_on_failed (st tj)); eauto 10].
    eapply resolve_idle; [|done]. apply Hinv1. intros x. simpl. auto.
  - simpl. rewrite decide_True by done. simpl.
    rewrite (proj2 (Hstatic tj)).
    destruct (continue_on_failed (st tj)); [|done].
    simpl. rewrite Hrem.
    pose proof (complete_inv s k fut j tj rest (set_phase "Failed") Hinv Hkj Hj Hrem)
      as Hinv1.
    match goal with |- context [resolve ?x] => set (s1 := x) in * end.
    destruct (resolve_inv s1) as (s' & Hs' & Hinv' & Hf').
    { apply Hinv1. intros x. simpl. auto. }
    assert (idle_means_stuck s'); [|eauto 10].
    eapply resolve_idle; [|done]. apply Hinv1. intros x. simpl. auto.
Qed.

Lemma reachable_inv s :
  reachable ts st s → inv ts st s ∧ idle_means_stuck s.
Proof.
  induction 1 as [s Hres|s c s' _ [Hinv _] Hrun Hbody].
  - destruct (resolve_inv _ start_inv) as (s' & Hs' & Hinv' & _).
    assert (s' = s) as -> by congruence.
    split; [done|]. eapply resolve_idle; [apply start_inv|done].
  - destruct (run_body_inv s c Hinv Hrun) as (fut & j & tj & _ & _ & _ & H).
    destruct (returned c), (continue_on_failed (st tj));
      try (destruct H as (s1 & Hs1 & ? & ? & _);
           assert (s1 = s') as -> by congruence; done).
    congruence.
Qed.

(** What [run] ends with, from a state its loop can be in. *)
Lemma run_loop_inv sched s o s' :
  inv ts st s → idle_means_stuck s → run_loop s sched = (o, s') →
  dependencies_first (λ t, dependencies (st t)) (trace s') ∧
  finished s' = finished_of (trace s') ∧
  (∀ r, EvSubmit r ∉ trace s' → store s' r = st r) ∧
  match o with
  | Returned =>
    inv ts st s' ∧ running s' = [] ∧ length (finished s') = length ts
  | Blocked =>
    inv ts st s' ∧ running s' ≠ [] ∧
    length (finished s') = length (finished s) + length sched
  | Raised (TaskFailed j) =>
    ∃ tj, ts !! j = Some tj ∧ continue_on_failed (st tj) = false ∧
          phase (store s' tj) = "Failed"
  | Raised CyclicGraph =>
    inv ts st s' ∧ idle_means_stuck s' ∧ running s' = [] ∧
    length (finished s') ≠ length ts
  | Raised _ => False
  end.
Proof.
  revert s. induction sched as [|c sched IH]; intros s Hinv Hidle.
  - simpl. destruct (running s) eqn:Hrun.
    + rewrite (inv_tasks _ _ _ Hinv).
      case_decide as Hlen; intros [= <- <-];
        (split; [apply Hinv|split; [apply Hinv|split; [apply Hinv|]]]);
        by split_and!.
    + intros [= <- <-].
      split; [apply Hinv|split; [apply Hinv|split; [apply Hinv|]]].
      split; [done|]. split; [by rewrite Hrun|simpl; lia].
  - simpl. destruct (running s) as [|r0 rs] eqn:Hrun.
    + rewrite (inv_tasks _ _ _ Hinv).
      case_decide as Hlen; intros [= <- <-];
        (split; [apply Hinv|split; [apply Hinv|split; [apply Hinv|]]]);
        by split_and!.
    + assert (running s ≠ []) as Hne by (by rewrite Hrun).
      destruct (run_body_inv s c Hinv Hne)
        as (fut & j & tj & Hk & Hj & Htj & H).
      destruct (returned c) as [out|] eqn:Hret;
        [|destruct (continue_on_failed (st tj)) eqn:Hcof].
      3:{ rewrite H. intros [= <- <-]. simpl.
          split; [apply Hinv|split; [apply Hinv|split]].
          - intros r Hr. case_decide as Hrt; [subst r|by apply Hinv].
            destruct Hr. apply (inv_submitted _ _ _ Hinv), elem_of_app.
            by left.
          - exists tj. split_and!; try done. by rewrite decide_True. }
      all: assert (∃ s1, run_body s c = Ok s1 ∧ inv ts st s1 ∧
               idle_means_stuck s1 ∧ finished s1 = finished s ++ [tj])
             as (s1 & -> & Hinv1 & Hidle1 & Hfin1)
             by (destruct (continue_on_failed (st tj)); done).
      all: intros Hloop;
        destruct (IH s1 Hinv1 Hidle1 Hloop) as (? & ? & ? & Ho).
      all: split; [done|split; [done|split; [done|]]].
      all: destruct o as [|e|]; try done.
      all: destruct Ho as (? & ? & Hl); split_and!; try done.
      all: rewrite Hl, Hfin1, length_app; simpl; lia.
Qed.

(** In a valid DAG a scheduler with nothing running has nothing
    waiting: a waiting task that is not ready has a dependency that
    waits too, and the chain of those would not end. *)
Lemma valid_idle_done s :
  valid ts st → inv ts st s → idle_means_stuck s → running s = [] →
  length (finished s) = length ts.
Proof.
  intros [Hclosed Hwf] Hinv Hidle Hrun.
  assert (∀ x, x ∈ waiting s → False) as Hnone.
  { intros x. induction (Hwf x) as [x _ IH]. intros Hx.
    assert (x ∈ ts) as Hxin.
    { rewrite <-(inv_perm _ _ _ Hinv). apply elem_of_app. by left. }
    pose proof (Hidle Hrun x Hx) as Hnr.
    destruct (decide (Forall (λ dep, dep ∈ finished s)
                             (dependencies (store s x)))) as [Hall|Hex].
    { rewrite (proj2 (ready_spec s x)) in Hnr; [done|].
      intros dep Hdep. by eapply Forall_forall in Hall. }
    apply not_Forall_Exists in Hex; [|intros ?; apply _].
    apply Exists_exists in Hex as (dep & Hdep & Hnf).
    rewrite (proj1 (inv_static _ _ _ Hinv x)) in Hdep.
    assert (depends_on ts st dep x) as Hdo by done.
    apply (IH dep Hdo).
    pose proof (Hclosed x dep Hdo) as Hdin.
    rewrite <-(inv_perm _ _ _ Hinv), Hrun in Hdin. simpl in Hdin.
    apply elem_of_app in Hdin as [?|?]; done. }
  rewrite <-(inv_perm _ _ _ Hinv), Hrun.
  destruct (waiting s) as [|x w]; [done|].
  destruct (Hnone x). by left.
Qed.

Lemma run_start sched :
  ∃ s, resolve (start ts st) = Ok s ∧ reachable ts st s ∧
       finished s = [] ∧ run ts st sched = run_loop s sched.
Proof.
  destruct (resolve_inv _ start_inv) as (s & Hs & _ & Hf).
  exists s. split_and!; [done|by constructor|done|].
  unfold run. by rewrite Hs.
Qed.
End invariants.

Import DagSamples.

Lemma run_outcome {Outputs} ts (st : ref → Task Outputs) sched o :
  (run ts st sched).1 = o → run ts st sched = (o, (run ts st sched).2).
Proof. intros <-. apply surjective_pairing. Qed.

Lemma run_facts {Outputs} ts (st : ref → Task Outputs) sched o s :
  run ts st sched = (o, s) →
  ∃ s0, reachable ts st s0 ∧ finished s0 = [] ∧ run_loop s0 sched = (o, s).
Proof.
  intros Hrun. destruct (run_start ts st sched) as (s0 & _ & Hreach & Hf & Heq).
  exists s0. split_and!; try done. by rewrite <-Heq.
Qed.

(** C1.  In every run of [DAG.run], whatever the order in which the
    futures complete and however the run ends, a task is handed to the
    pool only after each task of its dependency list has been appended to
    [self.finished]; [self.finished] is the list of the tasks the trace
    reports finished, and a task that has not been handed to the pool is as
    the caller built it.  Nothing fixes the order of two tasks beyond
    that: two runs of one DAG submit tasks 1 and 3 in opposite orders. *)
Theorem C1_dependencies_finished_before_dispatch :
  (∀ (Outputs : Type) (ts : list ref) (st : ref → Task Outputs)
     (sched : list (completion Outputs)),
     let s := (run ts st sched).2 in
     finished s = finished_of (trace s) ∧
     (∀ i t, trace s !! i = Some (EvSubmit t) →
        ∀ dep, dep ∈ dependencies (st t) →
          dep ∈ finished_of (take i (trace s))) ∧
     (∀ t, EvSubmit t ∉ trace s → store s t = st t)) ∧
  (∃ sched1 sched2,
     (run [0; 1; 2; 3] two_chains sched1).1 = Returned ∧
     (run [0; 1; 2; 3] two_chains sched2).1 = Returned ∧
     submitted_before (trace (run [0; 1; 2; 3] two_chains sched1).2) 1 3 ∧
     submitted_before (trace (run [0; 1; 2; 3] two_chains sched2).2) 3 1).
Proof.
  split.
  - intros Outputs ts st sched s.
    destruct (run ts st sched) as [o s'] eqn:Hrun. subst s. simpl.
    apply run_facts in Hrun as (s0 & [Hinv Hidle]%reachable_inv & _ & Hloop).
    destruct (run_loop_inv ts st sched s0 o s' Hinv Hidle Hloop)
      as (Hord & Hfin & Hun & _).
    done.
  - exists [succeeds 0; succeeds 0; succeeds 0; succeeds 0],
           [succeeds 1; succeeds 0; succeeds 0; succeeds 0].
    split_and!; [by vm_compute|by vm_compute|exists 3, 5|exists 3, 5];
      split_and!; (lia || by vm_compute).
Qed.

(** C2, as stated, fails: a DAG of one task whose worker returns ends
    with this task in phase "Pending". *)
Lemma lone_valid : valid [0] lone.
Proof.
  split.
  - intros t d [_ Hd]. by apply elem_of_nil in Hd.
  - intros t. constructor. intros d [_ Hd]. by apply elem_of_nil in Hd.
Qed.

Lemma C2_counterexample :
  ¬ (∀ (Outputs : Type) (ts : list ref) (st : ref → Task Outputs)
       (sched : list (completion Outputs)) (s : DAG Outputs),
       valid ts st → run ts st sched = (Returned, s) →
       length (finished s) = length (tasks s) ∧
       ∀ t, t ∈ tasks s →
         phase (store s t) = "Finished" ∨ phase (store s t) = "Failed").
Proof.
  intros H.
  assert (run [0] lone [succeeds 0]
          = (Returned, (run [0] lone [succeeds 0]).2)) as Hrun
    by (apply run_outcome; vm_compute; reflexivity).
  destruct (H unit [0] lone [succeeds 0] _ lone_valid Hrun) as [_ Hph].
  destruct (Hph 0) as [Hp|Hp]; [by left| |]; vm_compute in Hp; discriminate Hp.
Qed.

(** C2, amended.  For a DAG with a valid dependency set, when [run]
    returns, [finished] is as long as [tasks] and every task is in phase
    "Pending" or "Failed". *)
Theorem C2_returned_run_dispatched_every_task
    (Outputs : Type) (ts : list ref) (st : ref → Task Outputs)
    (sched : list (completion Outputs)) (s : DAG Outputs) :
  valid ts st → run ts st sched = (Returned, s) →
  length (finished s) = length (tasks s) ∧
  ∀ t, t ∈ tasks s →
    phase (store s t) = "Pending" ∨ phase (store s t) = "Failed".
Proof.
  intros _ Hrun.
  apply run_facts in Hrun as (s0 & [Hinv Hidle]%reachable_inv & _ & Hloop).
  destruct (run_loop_inv ts st sched s0 _ s Hinv Hidle Hloop)
    as (_ & _ & _ & Hinv' & Hrun' & Hlen).
  rewrite (inv_tasks _ _ _ Hinv'). split; [done|].
  intros t Ht. apply (inv_phase _ _ _ Hinv'). rewrite Hrun'. simpl.
  pose proof (inv_perm _ _ _ Hinv') as Hperm. rewrite Hrun' in Hperm.
  simpl in Hperm.
  assert (waiting s = []) as Hw.
  { apply nil_length_inv.
    apply Permutation_length in Hperm. rewrite length_app in Hperm. lia. }
  rewrite Hw in Hperm. simpl in Hperm. by rewrite Hperm.
Qed.

Lemma C2_returned_run_witness :
  let s := (run [0; 1; 2; 3] two_chains
              [succeeds 1; succeeds 0; succeeds 0; succeeds 0]).2 in
  length (finished s) = length (tasks s) ∧
  ∀ t, t ∈ tasks s →
    phase (store s t) = "Pending" ∨ phase (store s t) = "Failed".
Proof.
  apply (C2_returned_run_dispatched_every_task unit [0; 1; 2; 3] two_chains
           [succeeds 1; succeeds 0; succeeds 0; succeeds 0]).
  - split.
    + intros t d [Ht Hd].
      repeat (apply elem_of_cons in Ht as [->|Ht]);
        [by apply elem_of_nil in Hd | apply list_elem_of_singleton in Hd as ->
        | by apply elem_of_nil in Hd | apply list_elem_of_singleton in Hd as ->
        | by apply elem_of_nil in Ht];
        repeat constructor.
    + apply (well_founded_lt_compat _ (λ r : ref, r)).
      intros d t [Ht Hd].
      repeat (apply elem_of_cons in Ht as [->|Ht]);
        [by apply elem_of_nil in Hd | apply list_elem_of_singleton in Hd as ->
        | by apply elem_of_nil in Hd | apply list_elem_of_singleton in Hd as ->
        | by apply elem_of_nil in Ht]; lia.
  - apply run_outcome. vm_compute. reflexivity.
Defined.

(** X5.  For a valid DAG the final assertion of [run] holds. *)
Lemma run_valid_not_cyclic {Outputs} ts (st : ref → Task Outputs) sched :
  valid ts st → (run ts st sched).1 ≠ Raised CyclicGraph.
Proof.
  intros Hvalid Hbad. destruct (run ts st sched) as [o s] eqn:Hrun.
  simpl in Hbad. subst o.
  apply run_facts in Hrun as (s0 & [Hinv Hidle]%reachable_inv & _ & Hloop).
  destruct (run_loop_inv ts st sched s0 _ s Hinv Hidle Hloop)
    as (_ & _ & _ & Hinv' & Hidle' & Hrun' & Hlen).
  apply Hlen. by apply (valid_idle_done ts st).
Qed.

(** X6.  [run] raises nothing but the failure of a task that does not
    tolerate it and the final assertion. *)
Lemma run_raises {Outputs} ts (st : ref → Task Outputs) sched e :
  (run ts st sched).1 = Raised e →
  e = CyclicGraph ∨
  ∃ j tj, e = TaskFailed j ∧ ts !! j = Some tj ∧
          continue_on_failed (st tj) = false.
Proof.
  destruct (run ts st sched) as [o s] eqn:Hrun. simpl. intros ->.
  apply run_facts in Hrun as (s0 & [Hinv Hidle]%reachable_inv & _ & Hloop).
  destruct (run_loop_inv ts st sched s0 _ s Hinv Hidle Hloop)
    as (_ & _ & _ & H).
  destruct e; try done; [|by left].
  destruct H as (tj & ? & ? & _). right. by exists j, tj.
Qed.

(** X7.  Once as many futures have completed as the DAG has tasks, [run] is
    over. *)
Lemma run_not_blocked {Outputs} ts (st : ref → Task Outputs) sched :
  length ts ≤ length sched → (run ts st sched).1 ≠ Blocked.
Proof.
  intros Hlen Hbad. destruct (run ts st sched) as [o s] eqn:Hrun.
  simpl in Hbad. subst o.
  apply run_facts in Hrun as (s0 & [Hinv Hidle]%reachable_inv & Hf0 & Hloop).
  destruct (run_loop_inv ts st sched s0 _ s Hinv Hidle Hloop)
    as (_ & _ & _ & Hinv' & Hrun' & Hl).
  pose proof (Permutation_length (inv_perm _ _ _ Hinv')) as Hp.
  rewrite !length_app, Hl, Hf0 in Hp. simpl in Hp.
  destruct (running s); [done|]. simpl in Hp. lia.
Qed.

(** C3.  In a state the loop of [run] can be in, when the future the
    environment completes raises: the phase of its task [tasks[j]] is set
    to "Failed"; [run] raises exactly when the task does not tolerate
    failure, and then it ends at once, with the trace as it was, so that
    no task is submitted afterwards; when the task tolerates failure it is
    taken off [running], appended to [finished], and [resolve] runs. *)
Theorem C3_failed_worker
    (Outputs : Type) (ts : list ref) (st : ref → Task Outputs)
    (s : DAG Outputs) (c : completion Outputs) :
  reachable ts st s → running s ≠ [] → returned c = None →
  ∃ fut j tj rest,
    futures s !! (which c mod length (futures s)) = Some (fut, j) ∧
    tasks s !! j = Some tj ∧
    PyList.remove tj (running s) = Some rest ∧
    let failed := update_task (set_phase "Failed") tj
                    (pop_future (which c mod length (futures s)) s) in
    phase (store failed tj) = "Failed" ∧
    ((∃ e s', run_body s c = Err e s') ↔
       continue_on_failed (store s tj) = false) ∧
    (continue_on_failed (store s tj) = false →
       ∀ later, run_loop s (c :: later) = (Raised (TaskFailed j), failed) ∧
                trace failed = trace s) ∧
    (continue_on_failed (store s tj) = true →
       run_body s c = resolve (mark_finished tj rest failed) ∧
       ∃ s', run_body s c = Ok s' ∧ reachable ts st s' ∧
             finished s' = finished s ++ [tj]).
Proof.
  intros Hreach Hrun Hret.
  destruct (reachable_inv ts st s Hreach) as [Hinv Hidle].
  destruct (run_body_inv ts st s c Hinv Hrun)
    as (fut & j & tj & Hk & Hj & Htj & H).
  destruct (remove_is_Some tj (running s) Htj) as [rest Hrem].
  exists fut, j, tj, rest. cbv zeta.
  rewrite (inv_tasks _ _ _ Hinv).
  split_and!; try done.
  { simpl. by rewrite decide_True. }
  all: rewrite Hret in H; rewrite (proj2 (inv_static _ _ _ Hinv tj)).
  - destruct (continue_on_failed (st tj)).
    + destruct H as (s' & -> & _). split; [by intros (? & ? & ?)|done].
    + rewrite H. split; [done|eauto].
  - intros Hcof later. rewrite Hcof in H. simpl.
    destruct (running s); [done|]. by rewrite H.
  - intros Hcof. rewrite Hcof in H. destruct H as (s' & Hs' & _ & _ & Hf).
    assert (run_body s c = resolve (mark_finished tj rest
              (update_task (set_phase "Failed") tj
                 (pop_future (which c mod length (futures s)) s)))) as Heq.
    { unfold run_body.
      destruct (futures s) eqn:Hfs; [by rewrite lookup_nil in Hk|].
      rewrite <-Hfs in *. rewrite Hk. simpl.
      rewrite (inv_tasks _ _ _ Hinv), Hj, Hret. simpl.
      rewrite decide_True by done. simpl.
      rewrite (proj2 (inv_static _ _ _ Hinv tj)), Hcof. simpl.
      by rewrite Hrem. }
    split; [done|]. exists s'. split_and!; try done.
    by eapply reach_step.
Qed.

Lemma C3_failed_worker_witness :
  ∃ fut j tj rest,
    let s := (run [0; 1] tolerant_pair []).2 in
    let c := raises 0 in
    futures s !! (which c mod length (futures s)) = Some (fut, j) ∧
    tasks s !! j = Some tj ∧
    PyList.remove tj (running s) = Some rest ∧
    let failed := update_task (set_phase "Failed") tj
                    (pop_future (which c mod length (futures s)) s) in
    phase (store failed tj) = "Failed" ∧
    ((∃ e s', run_body s c = Err e s') ↔
       continue_on_failed (store s tj) = false) ∧
    (continue_on_failed (store s tj) = false →
       ∀ later, run_loop s (c :: later) = (Raised (TaskFailed j), failed) ∧
                trace failed = trace s) ∧
    (continue_on_failed (store s tj) = true →
       run_body s c = resolve (mark_finished tj rest failed) ∧
       ∃ s', run_body s c = Ok s' ∧ reachable [0; 1] tolerant_pair s' ∧
             finished s' = finished s ++ [tj]).
Proof.
  apply (C3_failed_worker unit [0; 1] tolerant_pair
           (run [0; 1] tolerant_pair []).2 (raises 0)).
  - apply reach_start. reflexivity.
  - vm_compute. discriminate.
  - reflexivity.
Defined.
End DagTheory.

(** ** Pod names *)

Module PodNameTheory.
Import PodName.

Lemma fnva_from_fnv1a data h :
  fold_left (λ hval byte,
               (N.lxor hval byte * FNV_32_PRIME) mod (2 ^ 32))%N data h
  = fnv1a_32_from h data.
Proof. revert h. induction data as [|b data IH]; intros h; simpl; [done|apply IH]. Qed.

(** The hash [get_pod_name] asks [fnva] for is the 32-bit FNV-1a hash. *)
Lemma fnva_is_fnv1a_32 data :
  fnva data FNV1_32_INIT FNV_32_PRIME (2 ^ 32)%N = fnv1a_32 data.
Proof. apply fnva_from_fnv1a. Qed.

Lemma fnv1a_32_from_bound h data :
  (h < 2 ^ 32)%N → (fnv1a_32_from h data < 2 ^ 32)%N.
Proof.
  revert h. induction data as [|b data IH]; intros h Hh; simpl; [done|].
  apply IH. change 4294967296%N with (2 ^ 32)%N. apply N.mod_lt. done.
Qed.

Lemma fnv1a_32_bound data : (fnv1a_32 data < 2 ^ 32)%N.
Proof. apply fnv1a_32_from_bound. done. Qed.

Lemma digits_length k fuel n acc :
  (n < 10 ^ N.of_nat (S k))%N →
  length (digits fuel n acc) ≤ S k + length acc.
Proof.
  revert fuel n acc. induction k as [|k IH]; intros fuel n acc Hn.
  - destruct fuel as [|fuel]; simpl; [lia|].
    assert (n / 10 = 0)%N as -> by (apply N.div_small; simpl in Hn; lia).
    simpl. lia.
  - destruct fuel as [|fuel]; simpl; [lia|].
    destruct (n / 10 =? 0)%N; simpl; [lia|].
    etrans; [apply IH|simpl; lia].
    apply N.Div0.div_lt_upper_bound.
    rewrite <-N.pow_succ_r'. by rewrite <-Nat2N.inj_succ.
Qed.

Lemma int_of_str_app s c :
  int_of_str (s ++ [c]) = (10 * int_of_str s + (c - 48))%N.
Proof. unfold int_of_str. by rewrite fold_left_app. Qed.

Lemma fold_digits s n :
  fold_left (λ n c, 10 * n + (c - 48))%N s n
  = (n * 10 ^ N.of_nat (length s) + int_of_str s)%N.
Proof.
  revert n. induction s as [|c s IH] using rev_ind; intros n.
  - simpl. change (int_of_str []) with 0%N. rewrite N.pow_0_r. lia.
  - rewrite int_of_str_app, fold_left_app. simpl. rewrite IH, length_app.
    simpl. rewrite Nat.add_1_r, Nat2N.inj_succ, N.pow_succ_r'. lia.
Qed.

(** The digits of [n] put before [acc] denote [n] followed by [acc]. *)
Lemma digits_value fuel n acc :
  (n < 2 ^ N.of_nat fuel)%N → fuel ≠ 0 →
  int_of_str (digits fuel n acc)
  = (n * 10 ^ N.of_nat (length acc) + int_of_str acc)%N.
Proof.
  revert n acc. induction fuel as [|fuel IH]; intros n acc Hn Hfuel; [done|].
  simpl. pose proof (N.div_mod n 10 ltac:(done)) as Hdm.
  pose proof (N.mod_lt n 10 ltac:(done)) as Hmod.
  assert (n / 10 < 2 ^ N.of_nat fuel)%N as Hlt.
  { rewrite Nat2N.inj_succ, N.pow_succ_r' in Hn.
    apply N.Div0.div_lt_upper_bound. lia. }
  set (r := (n mod 10)%N) in *. set (q := (n / 10)%N) in *.
  assert (int_of_str ((48 + r)%N :: acc)
          = (r * 10 ^ N.of_nat (length acc) + int_of_str acc)%N) as Hhead.
  { unfold int_of_str at 1. cbn [fold_left]. rewrite fold_digits.
    by replace (10 * 0 + (48 + r - 48))%N with r by lia. }
  destruct (q =? 0)%N eqn:Hq.
  - apply N.eqb_eq in Hq. rewrite Hhead. do 2 f_equal. lia.
  - apply N.eqb_neq in Hq. rewrite IH; [|done|].
    + rewrite Hhead. simpl length.
      rewrite Nat2N.inj_succ, N.pow_succ_r'.
      set (p := (10 ^ N.of_nat (length acc))%N). rewrite Hdm. lia.
    + intros ->. simpl in Hlt. lia.
Qed.

Lemma str_of_int_value n : int_of_str (str_of_int n) = n.
Proof.
  unfold str_of_int. rewrite digits_value; [simpl; unfold int_of_str; simpl; lia| |done].
  rewrite Nat2N.inj_succ, N2Nat.id.
  destruct (decide (n = 0%N)) as [->|Hn]; [done|].
  apply N.log2_spec. lia.
Qed.

Lemma str_of_int_length n : (n < 2 ^ 32)%N → length (str_of_int n) ≤ 10.
Proof.
  intros Hn. unfold str_of_int.
  etrans; [apply (digits_length 9)|simpl; lia].
  eapply N.lt_trans; [done|]. done.
Qed.

Lemma dash_length a b : length (dash a b) = length a + 1 + length b.
Proof. unfold dash. rewrite !length_app. simpl. lia. Qed.

Lemma truncated_prefix (prefix : str) :
  (if 253 - 10 - 1 <? length prefix then take (253 - 10 - 1) prefix
   else prefix) = take 242 prefix.
Proof.
  change (253 - 10 - 1) with 242.
  destruct (242 <? length prefix) eqn:Hlen; [done|].
  apply Nat.ltb_ge in Hlen. by rewrite take_ge.
Qed.

(** C6, as stated, fails: for the root node the name of the workflow is
    returned as it is, however long. *)
Lemma C6_counterexample :
  ¬ (∀ wf_name node_name template_name node_id r : str,
       get_pod_name wf_name node_name template_name node_id = Some r →
       length r ≤ 253).
Proof.
  intros H.
  specialize (H (replicate 254 97%N) (replicate 254 97%N) [116%N] []
                (replicate 254 97%N)).
  rewrite length_replicate in H. unfold get_pod_name in H.
  rewrite decide_True in H by done. specialize (H eq_refl). lia.
Qed.

(** C6.  [get_pod_name] returns [wf_name] when it equals [node_name];
    otherwise, for a [node_name] that has an UTF-8 encoding, it returns
    ["<wf_name>-<template_name>"] cut to 242 characters, a dash and the
    decimal digits of the 32-bit FNV-1a hash of the bytes of [node_name],
    253 characters at most; equal arguments give equal results. *)
Theorem C6_pod_name (wf_name node_name template_name node_id : str) :
  (wf_name = node_name →
     get_pod_name wf_name node_name template_name node_id = Some wf_name) ∧
  (wf_name ≠ node_name →
     ∀ data, encode node_name = Some data →
       let hash_val := fnv1a_32 data in
       let r := dash (take 242 (dash wf_name template_name))
                     (str_of_int hash_val) in
       get_pod_name wf_name node_name template_name node_id = Some r ∧
       (hash_val < 2 ^ 32)%N ∧
       int_of_str (str_of_int hash_val) = hash_val ∧
       length r ≤ 253) ∧
  (∀ wf_name' node_name' template_name' node_id' : str,
     wf_name' = wf_name → node_name' = node_name →
     template_name' = template_name → node_id' = node_id →
     get_pod_name wf_name' node_name' template_name' node_id'
     = get_pod_name wf_name node_name template_name node_id).
Proof.
  split_and!.
  - intros ->. unfold get_pod_name. by rewrite decide_True.
  - intros Hne data Hdata hash_val r.
    pose proof (fnv1a_32_bound data) as Hbound.
    split_and!; [|done|apply str_of_int_value|].
    + unfold get_pod_name. rewrite decide_False by done.
      rewrite Hdata, fnva_is_fnv1a_32.
      unfold max_k8s_resource_name_length, k8s_naming_hash_length.
      by rewrite truncated_prefix.
    + unfold r. rewrite dash_length, length_take.
      pose proof (str_of_int_length hash_val Hbound). lia.
  - by intros ???? -> -> -> ->.
Qed.

Lemma C6_pod_name_witness :
  let wf_name := of_string "wf" in
  let node_name := of_string "wf.step" in
  let template_name := of_string "t" in
  let node_id := of_string "id" in
  ∃ data, encode node_name = Some data ∧
    let hash_val := fnv1a_32 data in
    let r := dash (take 242 (dash wf_name template_name))
                  (str_of_int hash_val) in
    get_pod_name wf_name node_name template_name node_id = Some r ∧
    (hash_val < 2 ^ 32)%N ∧
    int_of_str (str_of_int hash_val) = hash_val ∧
    length r ≤ 253.
Proof.
  intros wf_name node_name template_name node_id.
  exists (of_string "wf.step"). split; [vm_compute; reflexivity|].
  apply (proj1 (proj2 (C6_pod_name wf_name node_name template_name node_id))).
  - vm_compute. discriminate.
  - vm_compute. reflexivity.
Defined.

(** Known values of the hash. *)
Example fnv1a_32_a : fnv1a_32 (of_string "a") = 0xe40c292c%N.
Proof. vm_compute. reflexivity. Qed.

Example fnv1a_32_foobar : fnv1a_32 (of_string "foobar") = 0xbf9cf968%N.
Proof. vm_compute. reflexivity. Qed.

Example pod_name_of_root :
  get_pod_name (of_string "wf") (of_string "wf") (of_string "t")
               (of_string "id") = Some (of_string "wf").
Proof. vm_compute. reflexivity. Qed.

Example pod_name_of_step :
  get_pod_name (of_string "wf") (of_string "wf.step") (of_string "t")
               (of_string "id") = Some (of_string "wf-t-50522712").
Proof. vm_compute. reflexivity. Qed.
End PodNameTheory.

(** ** More on the local debug scheduler *)

Module DagMore.
Import Dag PyListFacts DagTheory DagSamples.

Section shapes.
Context {Outputs : Type}.
Implicit Types (s : DAG Outputs) (t : ref) (tr : list event).

Lemma submitted_of_app tr1 tr2 :
  submitted_of (tr1 ++ tr2) = submitted_of tr1 ++ submitted_of tr2.
Proof.
  induction tr1 as [|[x|x] tr1 IH]; simpl; [done|by f_equal|done].
Qed.

Lemma submitted_of_submits (l : list ref) : submitted_of (EvSubmit <$> l) = l.
Proof. induction l as [|x l IH]; simpl; [done|by f_equal]. Qed.

Lemma finished_of_submits (l : list ref) : finished_of (EvSubmit <$> l) = [].
Proof. induction l as [|x l IH]; simpl; done. Qed.

Lemma submitted_of_lookup tr t :
  t ∈ submitted_of tr ↔ ∃ j, tr !! j = Some (EvSubmit t).
Proof.
  induction tr as [|[x|x] tr IH]; simpl.
  - split; [by intros ?%elem_of_nil|by intros [j ?]].
  - rewrite elem_of_cons, IH. split.
    + intros [->|[j Hj]]; [by exists 0|by exists (S j)].
    + intros [[|j] Hj]; [left; by injection Hj|right; by exists j].
  - rewrite IH. split.
    + intros [j Hj]. by exists (S j).
    + intros [[|j] Hj]; [done|by exists j].
Qed.

(** What a successful [if ready:] block has done. *)
Lemma dispatch_shape s t s' :
  dispatch s t = Ok s' →
  ∃ i, PyList.index t (tasks s) = Some i ∧
       PyList.remove t (waiting s) = Some (waiting s') ∧
       running s' = running s ++ [t] ∧ finished s' = finished s ∧
       trace s' = trace s ++ [EvSubmit t] ∧ tasks s' = tasks s ∧
       futures s' = futures s ++ [(submitted s, i)] ∧
       (∀ r, dependencies (store s' r) = dependencies (store s r)).
Proof.
  unfold dispatch. simpl.
  destruct (PyList.index t (tasks s)) as [i|]; [|done].
  destruct (PyList.remove t (waiting s)) as [w|] eqn:Hrem; [|done].
  intros [= <-]. exists i. simpl. split_and!; try done.
  intros r. by case_decide.
Qed.

Lemma resolve_from_shape n i s s' :
  resolve_from n i s = Ok s' →
  ∃ l, running s' = running s ++ l ∧
       trace s' = trace s ++ (EvSubmit <$> l) ∧
       finished s' = finished s ∧ tasks s' = tasks s.
Proof.
  revert i s. induction n as [|n IH]; intros i s; simpl.
  { intros [= <-]. exists []. by rewrite !app_nil_r. }
  destruct (waiting s !! i) as [t|].
  2:{ intros [= <-]. exists []. by rewrite !app_nil_r. }
  destruct (ready s t); [|apply IH].
  destruct (dispatch s t) as [s1|] eqn:Hd; [|done].
  apply dispatch_shape in Hd as (j & _ & _ & Hr & Hf & Ht & Hts & _).
  intros (l & Hr' & Ht' & Hf' & Hts')%IH.
  exists (t :: l). rewrite Hr', Ht', Hf', Hts', Hr, Ht, <-!app_assoc. done.
Qed.

(** What a pass through the loop of [run] that does not raise has done. *)
Lemma run_body_shape s c s' :
  run_body s c = Ok s' →
  ∃ tj rest l,
    PyList.remove tj (running s) = Some rest ∧
    running s' = rest ++ l ∧ finished s' = finished s ++ [tj] ∧
    trace s' = trace s ++ EvFinished tj :: (EvSubmit <$> l) ∧
    tasks s' = tasks s.
Proof.
  unfold run_body. destruct (futures s) as [|f0 fs] eqn:Hfs; [done|].
  rewrite <-Hfs. clear Hfs.
  destruct (futures s !! (which c mod length (futures s))) as [[fut j]|];
    [|done].
  simpl. destruct (tasks s !! j) as [tj|]; [|done].
  assert (∀ f, match PyList.remove tj (running s) with
               | Some rest =>
                 resolve (mark_finished tj rest
                   (update_task f tj
                      (pop_future (which c mod length (futures s)) s)))
               | None =>
                 Err ValueError
                   (update_task f tj
                      (pop_future (which c mod length (futures s)) s))
               end = Ok s' →
          ∃ tj rest l,
            PyList.remove tj (running s) = Some rest ∧
            running s' = rest ++ l ∧ finished s' = finished s ++ [tj] ∧
            trace s' = trace s ++ EvFinished tj :: (EvSubmit <$> l) ∧
            tasks s' = tasks s) as Hrest.
  { intros f. destruct (PyList.remove tj (running s)) as [rest|] eqn:Hrem;
      [|done].
    intros (l & Hr & Ht & Hf & Hts)%resolve_from_shape. simpl in *.
    exists tj, rest, l. rewrite Hr, Ht, Hf, Hts, <-app_assoc. done. }
  destruct (returned c) as [o|]; simpl.
  - apply Hrest.
  - rewrite decide_True by done. simpl.
    destruct (continue_on_failed (store s tj)); [|done]. apply Hrest.
Qed.

Variable ts : list ref.
Variable st : ref → Task Outputs.

Lemma finished_after_submitted_submits tr (l : list ref) :
  finished_after_submitted tr →
  finished_after_submitted (tr ++ (EvSubmit <$> l)).
Proof.
  intros H i t Hi. apply lookup_app_Some in Hi as [Hi|[_ Hi]].
  - destruct (H i t Hi) as (j & Hj & Hl). exists j. split; [done|].
    by apply lookup_app_l_Some.
  - apply list_lookup_fmap_Some in Hi as (? & [=] & ?).
Qed.

(** The pool has been given exactly the tasks that are running or
    finished, and each finished task after it was given to the pool. *)
Lemma reachable_counts s :
  reachable ts st s →
  submitted_of (trace s) ≡ₚ running s ++ finished s ∧
  finished_after_submitted (trace s).
Proof.
  induction 1 as [s Hres|s c s' Hreach [IHp IHf] Hrun Hbody].
  - apply resolve_from_shape in Hres as (l & Hr & Ht & Hf & _).
    simpl in *. rewrite Hr, Ht, Hf, app_nil_r, submitted_of_submits.
    split; [done|].
    apply (finished_after_submitted_submits [] l).
    intros i t Hi. by rewrite lookup_nil in Hi.
  - apply run_body_shape in Hbody as (tj & rest & l & Hrem & Hr & Hf & Ht & _).
    pose proof (remove_perm _ _ _ Hrem) as Hperm.
    rewrite Hr, Hf, Ht. split.
    + rewrite submitted_of_app. simpl. rewrite submitted_of_submits, IHp, Hperm.
      solve_Permutation.
    + change (trace s ++ EvFinished tj :: (EvSubmit <$> l))
        with (trace s ++ [EvFinished tj] ++ (EvSubmit <$> l)).
      rewrite app_assoc. apply finished_after_submitted_submits.
      intros i t Hi. apply lookup_snoc_Some in Hi as [[Hlt Hi]|[-> [= <-]]].
      * destruct (IHf i t Hi) as (j & Hj & Hl). exists j. split; [done|].
        by apply lookup_app_l_Some.
      * assert (tj ∈ submitted_of (trace s)) as Hin.
        { rewrite IHp, Hperm. by left. }
        apply submitted_of_lookup in Hin as [j Hj]. exists j.
        split; [by eapply lookup_lt_Some|by apply lookup_app_l_Some].
Qed.

(** Where [run] ends: in a state its loop can be in, or, when a task
    that does not tolerate failure failed, in such a state with this
    task marked and its future popped. *)
Lemma run_loop_final sched s o s' :
  reachable ts st s → run_loop s sched = (o, s') →
  reachable ts st s' ∨
  ∃ s0 k tj, reachable ts st s0 ∧
             s' = update_task (set_phase "Failed") tj (pop_future k s0).
Proof.
  revert s. induction sched as [|c sched IH]; intros s Hreach; simpl.
  - destruct (running s); [case_decide|]; intros [= <- <-]; by left.
  - destruct (running s) as [|r0 rs] eqn:Hrun.
    { case_decide; intros [= <- <-]; by left. }
    destruct (reachable_inv ts st s Hreach) as [Hinv _].
    assert (running s ≠ []) as Hne by (by rewrite Hrun).
    destruct (run_body_inv ts st s c Hinv Hne)
      as (fut & j & tj & _ & _ & _ & H).
    destruct (run_body s c) as [s1|e s1] eqn:Hbody.
    + apply IH. by eapply reach_step.
    + intros [= <- <-]. right.
      destruct (returned c), (continue_on_failed (st tj));
        try (by destruct H as (? & [=] & _)).
      injection H as -> ->. eauto.
Qed.

Lemma run_final sched :
  let s := (run ts st sched).2 in
  reachable ts st s ∨
  ∃ s0 k tj, reachable ts st s0 ∧
             s = update_task (set_phase "Failed") tj (pop_future k s0).
Proof.
  destruct (run_start ts st sched) as (s0 & _ & Hreach & _ & ->).
  destruct (run_loop s0 sched) as [o s'] eqn:Hloop. simpl.
  by eapply run_loop_final.
Qed.

Lemma run_loop_returned sched s s' :
  reachable ts st s → run_loop s sched = (Returned, s') →
  reachable ts st s' ∧ running s' = [] ∧
  length (finished s') = length (tasks s').
Proof.
  revert s. induction sched as [|c sched IH]; intros s Hreach; simpl.
  - destruct (running s) eqn:Hrun; [|done].
    case_decide; [|done]. by intros [= <-].
  - destruct (running s) as [|r0 rs] eqn:Hrun.
    { case_decide; [|done]. by intros [= <-]. }
    destruct (run_body s c) as [s1|e s1] eqn:Hbody; [|done].
    apply IH. eapply reach_step; [done| |done]. by rewrite Hrun.
Qed.

Lemma finished_of_lookup tr t :
  t ∈ finished_of tr ↔ ∃ i, tr !! i = Some (EvFinished t).
Proof.
  induction tr as [|[x|x] tr IH]; simpl.
  - split; [by intros ?%elem_of_nil|by intros [j ?]].
  - rewrite IH. split.
    + intros [j Hj]. by exists (S j).
    + intros [[|j] Hj]; [done|by exists j].
  - rewrite elem_of_cons, IH. split.
    + intros [->|[j Hj]]; [by exists 0|by exists (S j)].
    + intros [[|j] Hj]; [left; by injection Hj|right; by exists j].
Qed.

Lemma first_finished_spec tr t i :
  tr !! i = Some (EvFinished t) →
  first_finished tr t ≤ i ∧
  tr !! first_finished tr t = Some (EvFinished t).
Proof.
  intros Hi. unfold first_finished.
  destruct (list_find (λ e, e = EvFinished t) tr) as [[k e]|] eqn:Hfind.
  - apply list_find_Some in Hfind as (Hk & -> & Hmin). split; [|done].
    destruct (decide (k ≤ i)) as [|Hgt]; [done|].
    destruct (Hmin i _ Hi); [lia|done].
  - apply list_find_None in Hfind.
    eapply Forall_forall in Hfind; [|by eapply list_elem_of_lookup_2].
    done.
Qed.
End shapes.

Lemma two_chains_valid : valid [0; 1; 2; 3] two_chains.
Proof.
  split.
  - intros t d [Ht Hd].
    repeat (apply elem_of_cons in Ht as [->|Ht]);
      [by apply elem_of_nil in Hd | apply list_elem_of_singleton in Hd as ->
      | by apply elem_of_nil in Hd | apply list_elem_of_singleton in Hd as ->
      | by apply elem_of_nil in Ht];
      repeat constructor.
  - apply (well_founded_lt_compat _ (λ r : ref, r)).
    intros d t [Ht Hd].
    repeat (apply elem_of_cons in Ht as [->|Ht]);
      [by apply elem_of_nil in Hd | apply list_elem_of_singleton in Hd as ->
      | by apply elem_of_nil in Hd | apply list_elem_of_singleton in Hd as ->
      | by apply elem_of_nil in Ht]; lia.
Qed.

(** X1.  [run] hands no task to the pool more often than the task occurs
    in [self.tasks]: in a DAG that lists each task once, no task is
    submitted twice, whatever the futures do. *)
Theorem run_submits_within_tasks
    (Outputs : Type) (ts : list ref) (st : ref → Task Outputs)
    (sched : list (completion Outputs)) :
  submitted_of (trace (run ts st sched).2) ⊆+ ts ∧
  (NoDup ts → NoDup (submitted_of (trace (run ts st sched).2))).
Proof.
  assert (submitted_of (trace (run ts st sched).2) ⊆+ ts) as Hsub.
  { assert (∀ s, reachable ts st s → submitted_of (trace s) ⊆+ ts) as Hreach.
    { intros s Hs. destruct (reachable_counts ts st s Hs) as [-> _].
      destruct (reachable_inv ts st s Hs) as [Hinv _].
      rewrite <-(inv_perm _ _ _ Hinv). by apply submseteq_inserts_l. }
    destruct (run_final ts st sched) as [Hs|(s0 & k & tj & Hs0 & ->)].
    - by apply Hreach.
    - simpl. by apply Hreach. }
  split; [done|]. intros Hnd.
  apply submseteq_Permutation in Hsub as [k Hk]. rewrite Hk in Hnd.
  by apply NoDup_app in Hnd as [? _].
Qed.

Lemma run_submits_within_tasks_witness :
  NoDup (submitted_of (trace (run [0; 1; 2; 3] two_chains
           [succeeds 1; succeeds 0; succeeds 0; succeeds 0]).2)).
Proof.
  apply (run_submits_within_tasks unit [0; 1; 2; 3] two_chains
           [succeeds 1; succeeds 0; succeeds 0; succeeds 0]).
  repeat constructor; rewrite ?elem_of_cons, ?elem_of_nil; lia.
Defined.

(** X2.  [run] returns only for a valid dependency set: when it returns,
    every dependency of a task of the DAG is a task of the DAG and the
    dependencies have no cycle. *)
Theorem run_returns_only_if_valid
    (Outputs : Type) (ts : list ref) (st : ref → Task Outputs)
    (sched : list (completion Outputs)) :
  (run ts st sched).1 = Returned → valid ts st.
Proof.
  intros Hret. apply run_outcome in Hret.
  destruct (run_start ts st sched) as (s0 & _ & Hreach0 & _ & Heq).
  rewrite Heq in Hret.
  destruct (run_loop_returned ts st sched s0 _ Hreach0 Hret)
    as (Hreach & Hrun & Hlen).
  set (s := (run_loop s0 sched).2) in *. clearbody s. clear Heq Hret.
  destruct (reachable_inv ts st s Hreach) as [Hinv _].
  destruct (reachable_counts ts st s Hreach) as [_ Hafter].
  pose proof (inv_perm _ _ _ Hinv) as Hperm.
  rewrite (inv_tasks _ _ _ Hinv) in Hlen.
  assert (waiting s = []) as Hw.
  { apply nil_length_inv. apply Permutation_length in Hperm.
    rewrite !length_app in Hperm. lia. }
  rewrite Hw, Hrun in Hperm. simpl in Hperm.
  assert (∀ t d, depends_on ts st d t →
            ∃ i j, j < i ∧ trace s !! i = Some (EvSubmit t) ∧
                   trace s !! j = Some (EvFinished d)) as Hbefore.
  { intros t d [Ht Hd].
    assert (EvSubmit t ∈ trace s) as Hsub.
    { apply (inv_submitted _ _ _ Hinv). rewrite Hrun. simpl. by rewrite Hperm. }
    apply list_elem_of_lookup in Hsub as [i Hi]. exists i.
    pose proof (inv_order _ _ _ Hinv i t Hi d Hd) as Hdone.
    apply finished_of_lookup in Hdone as [j Hj].
    apply lookup_take_Some in Hj as [Hj Hji]. by exists j. }
  split.
  - intros t d Hdep. destruct (Hbefore t d Hdep) as (i & j & _ & _ & Hj).
    rewrite <-Hperm, (inv_finished _ _ _ Hinv).
    apply finished_of_lookup. by exists j.
  - apply (well_founded_lt_compat _ (first_finished (trace s))).
    intros d t Hdep. destruct (Hbefore t d Hdep) as (i & j & Hji & Hi & Hj).
    destruct (first_finished_spec _ _ _ Hj) as [Hd _].
    assert (t ∈ finished_of (trace s)) as Ht.
    { rewrite <-(inv_finished _ _ _ Hinv), Hperm. apply Hdep. }
    apply finished_of_lookup in Ht as [m Hm].
    destruct (first_finished_spec _ _ _ Hm) as [_ Hfirst].
    destruct (Hafter _ _ Hfirst) as (i' & Hi' & Hsub').
    (* the dependency finished before every submission of [t] *)
    pose proof (inv_order _ _ _ Hinv i' t Hsub' d (proj2 Hdep)) as Hdone.
    apply finished_of_lookup in Hdone as [j' Hj'].
    apply lookup_take_Some in Hj' as [Hj' Hlt].
    destruct (first_finished_spec _ _ _ Hj') as [Hd' _]. lia.
Qed.

Lemma run_returns_only_if_valid_witness : valid [0; 1; 2; 3] two_chains.
Proof.
  apply (run_returns_only_if_valid unit [0; 1; 2; 3] two_chains
           [succeeds 1; succeeds 0; succeeds 0; succeeds 0]).
  vm_compute. reflexivity.
Defined.

Lemma remove_at_lookup (w : list ref) i t :
  NoDup w → w !! i = Some t →
  PyList.remove t w = Some (take i w ++ drop (S i) w).
Proof.
  revert i. induction w as [|x w IH]; intros i Hnd Hi; [done|].
  apply NoDup_cons in Hnd as [Hx Hnd]. simpl.
  destruct i as [|i]; simpl in *.
  - injection Hi as ->. by rewrite decide_True.
  - rewrite decide_False.
    + by rewrite (IH i Hnd Hi).
    + intros ->. apply Hx. by eapply list_elem_of_lookup_2.
Qed.

Lemma resolve_from_all_ready {Outputs} n i (s : DAG Outputs) :
  (∀ t, t ∈ waiting s → t ∈ tasks s) → NoDup (waiting s) →
  (∀ t, t ∈ waiting s → ready s t = true) →
  length (waiting s) ≤ n + i →
  ∃ s', resolve_from n i s = Ok s' ∧
        waiting s' = take i (waiting s) ++ odds (drop i (waiting s)) ∧
        running s' = running s ++ evens (drop i (waiting s)) ∧
        finished s' = finished s.
Proof.
  revert i s. induction n as [|n IH]; intros i s Hin Hnd Hready Hlen.
  { exists s. simpl in *. rewrite drop_ge, take_ge by lia. simpl.
    by rewrite !app_nil_r. }
  simpl. destruct (waiting s !! i) as [t|] eqn:Hi.
  2:{ exists s. apply lookup_ge_None in Hi.
      rewrite drop_ge, take_ge by lia. simpl. by rewrite !app_nil_r. }
  assert (t ∈ waiting s) as Ht by by eapply list_elem_of_lookup_2.
  rewrite (Hready t Ht).
  pose proof (remove_at_lookup _ _ _ Hnd Hi) as Hrem.
  destruct (index_is_Some t (tasks s) (Hin t Ht)) as [k Hk].
  destruct (dispatch s t) as [s1|e s1] eqn:Hd.
  2:{ unfold dispatch in Hd. simpl in Hd. by rewrite Hk, Hrem in Hd. }
  apply dispatch_shape in Hd
    as (k' & _ & Hw1 & Hr1 & Hf1 & _ & Hts1 & _ & Hdeps).
  rewrite Hrem in Hw1. injection Hw1 as Hw1.
  pose proof (lookup_lt_Some _ _ _ Hi) as Hlt.
  assert (waiting s1 `sublist_of` waiting s) as Hsl.
  { rewrite <-Hw1. rewrite <-(take_drop i (waiting s)) at 3.
    apply sublist_app; [done|]. rewrite (drop_S _ _ _ Hi). by constructor. }
  assert (∀ u, u ∈ waiting s1 → u ∈ waiting s) as Hsub.
  { intros u Hu. by eapply elem_of_sublist. }
  destruct (IH (S i) s1) as (s' & -> & Hw' & Hr' & Hf').
  - intros u Hu. rewrite Hts1. by apply Hin, Hsub.
  - by eapply sublist_NoDup.
  - intros u Hu. rewrite <-(Hready u (Hsub u Hu)).
    unfold ready. by rewrite Hf1, Hdeps.
  - rewrite <-Hw1, length_app, length_take, length_drop. lia.
  - exists s'. split; [done|].
    assert (take (S i) (waiting s1)
            = take i (waiting s) ++ take 1 (drop (S i) (waiting s))) as Htake.
    { rewrite <-Hw1. rewrite take_app_ge; rewrite length_take; [|lia].
      by replace (S i - i `min` length (waiting s)) with 1 by lia. }
    assert (drop (S i) (waiting s1) = drop 1 (drop (S i) (waiting s)))
      as Hdrop.
    { rewrite <-Hw1. rewrite drop_app_ge; rewrite length_take; [|lia].
      by replace (S i - i `min` length (waiting s)) with 1 by lia. }
    rewrite Hw', Hr', Hf', Hr1, Hf1, Htake, Hdrop, (drop_S _ _ _ Hi).
    rewrite <-!app_assoc.
    by destruct (drop (S i) (waiting s)) as [|u [|v rest]].
Qed.

(** X3.  One call of [resolve] removes from [self.waiting] while its loop
    iterates over it, so that the task following a dispatched one is
    passed over: when all the waiting tasks are ready (and distinct), the
    call dispatches those at the even positions and leaves those at the
    odd positions waiting. *)
Theorem resolve_dispatches_every_other
    (Outputs : Type) (s : DAG Outputs) :
  (∀ t, t ∈ waiting s → t ∈ tasks s) → NoDup (waiting s) →
  (∀ t, t ∈ waiting s → ready s t = true) →
  ∃ s', resolve s = Ok s' ∧
        waiting s' = odds (waiting s) ∧
        running s' = running s ++ evens (waiting s) ∧
        finished s' = finished s.
Proof.
  intros Hin Hnd Hready.
  destruct (resolve_from_all_ready (length (waiting s)) 0 s Hin Hnd Hready)
    as (s' & Hres & Hw & Hr & Hf); [lia|].
  exists s'. by rewrite drop_0 in *.
Qed.

Lemma resolve_dispatches_every_other_witness :
  ∃ s', resolve (start [0; 2; 4] two_chains) = Ok s' ∧
        waiting s' = [2] ∧ running s' = [0; 4] ∧ finished s' = [].
Proof.
  apply (resolve_dispatches_every_other unit (start [0; 2; 4] two_chains)).
  - by intros t Ht.
  - repeat constructor; rewrite ?elem_of_cons, ?elem_of_nil; lia.
  - intros t Ht. simpl in Ht.
    repeat (apply elem_of_cons in Ht as [->|Ht]); try reflexivity.
    by apply elem_of_nil in Ht.
Defined.

Lemma run_valid_not_cyclic_witness :
  (run [0; 1; 2; 3] two_chains [succeeds 1; raises 0]).1 ≠ Raised CyclicGraph.
Proof.
  apply (run_valid_not_cyclic [0; 1; 2; 3] two_chains
           [succeeds 1; raises 0]).
  apply two_chains_valid.
Defined.

Lemma run_raises_witness :
  TaskFailed 0 = CyclicGraph ∨
  ∃ j tj, TaskFailed 0 = TaskFailed j ∧ [0; 1; 2; 3] !! j = Some tj ∧
          continue_on_failed (two_chains tj) = false.
Proof.
  apply (run_raises [0; 1; 2; 3] two_chains [succeeds 1; raises 0]).
  vm_compute. reflexivity.
Defined.

Lemma run_not_blocked_witness :
  (run [0; 1; 2; 3] two_chains
       [succeeds 1; succeeds 0; succeeds 0; succeeds 0]).1 ≠ Blocked.
Proof.
  apply (run_not_blocked [0; 1; 2; 3] two_chains
           [succeeds 1; succeeds 0; succeeds 0; succeeds 0]).
  simpl. lia.
Defined.

Lemma run_loop_no_raise {Outputs} ts (st : ref → Task Outputs)
    sched s o s' :
  inv ts st s → idle_means_stuck s →
  Forall (λ c, is_Some (returned c)) sched →
  run_loop s sched = (o, s') →
  ∀ j, o ≠ Raised (TaskFailed j).
Proof.
  revert s. induction sched as [|c sched IH]; intros s Hinv Hidle Hall; simpl.
  - destruct (running s); [case_decide|]; by intros [= <- <-].
  - destruct (running s) as [|r0 rs] eqn:Hrun.
    { case_decide; by intros [= <- <-]. }
    apply Forall_cons in Hall as [[out Hout] Hall].
    assert (running s ≠ []) as Hne by (by rewrite Hrun).
    destruct (run_body_inv ts st s c Hinv Hne)
      as (fut & j & tj & _ & _ & _ & H).
    rewrite Hout in H. destruct H as (s1 & -> & Hinv1 & Hidle1 & _).
    by apply IH.
Qed.

(** X4.  A valid DAG whose workers all return is run to the end: once as
    many futures have completed as there are tasks, [run] has returned,
    with every task in [finished]. *)
Theorem run_completes
    (Outputs : Type) (ts : list ref) (st : ref → Task Outputs)
    (sched : list (completion Outputs)) :
  valid ts st → Forall (λ c, is_Some (returned c)) sched →
  length ts ≤ length sched →
  (run ts st sched).1 = Returned ∧
  finished (run ts st sched).2 ≡ₚ ts.
Proof.
  intros Hvalid Hall Hlen.
  destruct (run_start ts st sched) as (s0 & _ & Hreach0 & Hf0 & ->).
  destruct (reachable_inv ts st s0 Hreach0) as [Hinv0 Hidle0].
  destruct (run_loop s0 sched) as [o s] eqn:Hloop. simpl.
  pose proof (run_loop_no_raise ts st sched s0 o s Hinv0 Hidle0 Hall Hloop)
    as Hnoraise.
  destruct (run_loop_inv ts st sched s0 o s Hinv0 Hidle0 Hloop)
    as (_ & _ & _ & Ho).
  destruct o as [|e|].
  - destruct Ho as (Hinv & Hrun & Hl). split; [done|].
    pose proof (inv_perm _ _ _ Hinv) as Hperm.
    assert (waiting s = []) as Hw.
    { apply nil_length_inv. apply Permutation_length in Hperm.
      rewrite !length_app in Hperm. lia. }
    by rewrite Hw, Hrun in Hperm.
  - destruct e; try done.
    + by destruct (Hnoraise j).
    + destruct Ho as (Hinv & Hidle & Hrun & Hl).
      destruct Hl. by apply (valid_idle_done ts st).
  - destruct Ho as (Hinv & Hrun & Hl).
    pose proof (Permutation_length (inv_perm _ _ _ Hinv)) as Hp.
    rewrite !length_app, Hl, Hf0 in Hp. simpl in Hp.
    destruct (running s); [done|]. simpl in Hp. lia.
Qed.

Lemma run_completes_witness :
  (run [0; 1; 2; 3] two_chains
       [succeeds 1; succeeds 0; succeeds 0; succeeds 0]).1 = Returned ∧
  finished (run [0; 1; 2; 3] two_chains
              [succeeds 1; succeeds 0; succeeds 0; succeeds 0]).2
  ≡ₚ [0; 1; 2; 3].
Proof.
  apply (run_completes unit [0; 1; 2; 3] two_chains
           [succeeds 1; succeeds 0; succeeds 0; succeeds 0]).
  - apply two_chains_valid.
  - repeat constructor; by eexists.
  - simpl. lia.
Defined.
End DagMore.

(** ** More on the auto-named collections *)

Module IoMore.
Import Io IoSamples IoTheory.

Implicit Types (h : heap) (v : val) (o : obj) (l : loc).

Lemma deepcopy_rec_scalar n v σ : scalar v → deepcopy_rec n v σ = Some (v, σ).
Proof. intros Hv. destruct v, n; try done; by destruct (Hv l). Qed.

Lemma copy_all_scalars n vs σ vs' σ' :
  copy_all (deepcopy_rec n) vs σ = Some (vs', σ') →
  Forall2 (λ v v', scalar v → v' = v) vs vs'.
Proof.
  revert σ vs'. induction vs as [|v vs IH]; intros σ vs'; simpl.
  - intros [= <- <-]. constructor.
  - destruct (deepcopy_rec n v σ) as [[v1 σ1]|] eqn:Hv; [|done].
    destruct (copy_all (deepcopy_rec n) vs σ1) as [[vs1 σ2]|] eqn:Hvs; [|done].
    intros [= <- <-]. constructor; [|by eapply IH].
    intros Hs. rewrite (deepcopy_rec_scalar n v σ Hs) in Hv. congruence.
Qed.

(** The copy of an object holds, position by position, the copies of what
    the object holds, a scalar being its own copy. *)
Lemma deepcopy_content h p o l' h' :
  deepcopy (VRef p) h = Some (VRef l', h') → h !! p = Some o →
  ∃ vs, h' !! l' = Some (rebuild o vs) ∧
        Forall2 (λ v v', scalar v → v' = v) (children o) vs.
Proof.
  unfold deepcopy. simpl. rewrite lookup_empty. intros Hcopy Ho.
  rewrite Ho in Hcopy.
  destruct (copy_all _ _ _) as [[vs [h2 memo]]|] eqn:Hall; [|done].
  injection Hcopy as <- <-. exists vs.
  split; [by rewrite lookup_insert_eq|by eapply copy_all_scalars].
Qed.

Lemma assoc_get_zip a (attrs : list (string * val)) vs v :
  Forall2 (λ v v', scalar v → v' = v) (attrs.*2) vs →
  assoc_get a attrs = Some v → scalar v →
  assoc_get a (zip (attrs.*1) vs) = Some v.
Proof.
  revert vs. induction attrs as [|[k x] attrs IH]; intros vs Hvs; [done|].
  rewrite !fmap_cons in *. simpl in Hvs.
  apply Forall2_cons_inv_l in Hvs as (x' & vs' & Hx & Hvs & ->). simpl.
  destruct (decide (a = k)); [|by apply IH].
  intros [= ->] Hs. by rewrite Hx.
Qed.

(** All of what [AutonamedDict.__setitem__] does to the heap, for an entry
    that is an instance. *)
Lemma setitem_full h d K p cls attrs items :
  closed h → h !! d = Some (Dict items) →
  h !! p = Some (Instance cls attrs) →
  ∃ h' l' attrs',
    setitem d K (VRef p) h = Some h' ∧
    (l' ∉ dom h) ∧
    h' !! d = Some (Dict (assoc_set K (VRef l') items)) ∧
    h' !! l' = Some (Instance cls (assoc_set "name" (VStr K) attrs')) ∧
    attrs'.*1 = attrs.*1 ∧
    (∀ a v, assoc_get a attrs = Some v → scalar v →
            assoc_get a attrs' = Some v) ∧
    (∀ l, l ∈ dom h → l ≠ d → h' !! l = h !! l) ∧
    dom h ⊆ dom h' ∧
    closed h'.
Proof.
  intros Hclosed Hd Hp.
  destruct (setitem_spec h d K p cls attrs items Hclosed Hd Hp)
    as (h1 & l' & attrs' & Hcopy & Hl' & Hout & Hkeep & Hnews & Hset).
  destruct (deepcopy_content h p _ l' h1 Hcopy Hp) as (vs & Hvs & Hall).
  simpl in Hvs, Hall. rewrite Hl' in Hvs. injection Hvs as ->.
  assert (d ∈ dom h) as Hdin by (apply elem_of_dom; eauto).
  assert (d ≠ l') as Hne by (by intros ->).
  assert (dom h ⊆ dom h1) as Hdom.
  { intros l Hl. apply elem_of_dom. rewrite Hkeep by done.
    by apply elem_of_dom. }
  assert (l' ∈ dom h1) as Hl'in by (apply elem_of_dom; eauto).
  assert (closed h1) as Hclosed1.
  { intros l o b Ho Hb. destruct (decide (l ∈ dom h)) as [Hl|Hl].
    - rewrite Hkeep in Ho by done. apply Hdom. by eapply Hclosed.
    - by apply (Hnews l o b). }
  eexists _, l', _. split; [exact Hset|]. split_and!.
  - done.
  - by rewrite lookup_insert_eq.
  - by rewrite lookup_insert_ne, lookup_insert_eq.
  - apply fst_zip. rewrite <-(Forall2_length _ _ _ Hall), !length_fmap. done.
  - intros a v Ha Hs. by apply assoc_get_zip.
  - intros l Hl Hld. rewrite !lookup_insert_ne; [by apply Hkeep|..].
    + by intros <-.
    + done.
  - intros l Hl. rewrite !dom_insert_L.
    apply elem_of_union. right. apply elem_of_union. right. by apply Hdom.
  - assert (∀ b, b ∈ dom h1 →
              b ∈ dom (<[d := Dict (assoc_set K (VRef l') items)]>
                (<[l' := Instance cls
                     (assoc_set "name" (VStr K) (zip (attrs.*1) vs))]> h1)))
      as Hin.
    { intros b Hb. rewrite !dom_insert_L.
      apply elem_of_union. right. apply elem_of_union. by right. }
    intros l o b Ho Hb. apply Hin.
    apply lookup_insert_Some in Ho as [[<- <-]|[Hdl Ho]].
    { simpl in Hb. apply assoc_set_values in Hb as [[= ->]|Hb]; [done|].
      apply Hdom. by eapply (Hclosed d (Dict items)). }
    apply lookup_insert_Some in Ho as [[<- <-]|[Hll Ho]].
    { simpl in Hb. apply assoc_set_values in Hb as [[=]|Hb].
      by eapply (Hclosed1 l' (Instance cls (zip (attrs.*1) vs))). }
    by eapply Hclosed1.
Qed.

(** X8.  [d[K] = p] changes nothing else: the entries under the other
    keys of [d] and every object that existed before, [d] apart, are as
    they were, and no reference dangles afterwards. *)
Theorem setitem_keeps_the_rest
    (h : heap) (d : loc) (K : string) (p : loc)
    (cls : string) (attrs items : list (string * val)) :
  closed h → h !! d = Some (Dict items) →
  h !! p = Some (Instance cls attrs) →
  ∃ h',
    setitem d K (VRef p) h = Some h' ∧
    (∀ K', K' ≠ K → getitem d K' h' = getitem d K' h) ∧
    (∀ l, l ∈ dom h → l ≠ d → h' !! l = h !! l) ∧
    closed h'.
Proof.
  intros Hclosed Hd Hp.
  destruct (setitem_full h d K p cls attrs items Hclosed Hd Hp)
    as (h' & l' & attrs' & Hset & _ & Hd' & _ & _ & _ & Hkeep & _ & Hclosed').
  exists h'. split_and!; try done.
  intros K' Hne. unfold getitem. rewrite Hd', Hd.
  by apply assoc_get_set_ne.
Qed.

Lemma setitem_keeps_the_rest_witness :
  ∃ h',
    setitem 0 "x" (VRef 1) sample_heap = Some h' ∧
    (∀ K', K' ≠ "x" → getitem 0 K' h' = getitem 0 K' sample_heap) ∧
    (∀ l, l ∈ dom sample_heap → l ≠ 0 → h' !! l = sample_heap !! l) ∧
    closed h'.
Proof.
  apply (setitem_keeps_the_rest sample_heap 0 "x" 1 "InputParameter"
           [("name", VStr "old"); ("step_id", VNone); ("type", VNone);
            ("value", VRef 2)] []).
  - apply closedb_sound. vm_compute. reflexivity.
  - vm_compute. reflexivity.
  - vm_compute. reflexivity.
Defined.

(** X9.  The entry stored by [d[K] = p] has every attribute of [p] other
    than [name] that holds a scalar (None, a bool, an int or a str), with
    the value it has in [p]. *)
Theorem setitem_copies_scalar_attributes
    (h : heap) (d : loc) (K : string) (p : loc)
    (cls : string) (attrs items : list (string * val)) :
  closed h → h !! d = Some (Dict items) →
  h !! p = Some (Instance cls attrs) →
  ∃ h' entry,
    setitem d K (VRef p) h = Some h' ∧
    getitem d K h' = Some entry ∧
    ∀ a v, a ≠ "name" → getattr (VRef p) a h = Some v → scalar v →
           getattr entry a h' = Some v.
Proof.
  intros Hclosed Hd Hp.
  destruct (setitem_full h d K p cls attrs items Hclosed Hd Hp)
    as (h' & l' & attrs' & Hset & _ & Hd' & Hl' & _ & Hsame & _).
  exists h', (VRef l'). split_and!; try done.
  - unfold getitem. rewrite Hd'. apply assoc_get_set.
  - intros a v Hne Ha Hs. unfold getattr in *. rewrite Hp in Ha.
    rewrite Hl', assoc_get_set_ne by done. by apply Hsame.
Qed.

Lemma setitem_copies_scalar_attributes_witness :
  ∃ h' entry,
    setitem 0 "x" (VRef 1) sample_heap = Some h' ∧
    getitem 0 "x" h' = Some entry ∧
    ∀ a v, a ≠ "name" → getattr (VRef 1) a sample_heap = Some v → scalar v →
           getattr entry a h' = Some v.
Proof.
  apply (setitem_copies_scalar_attributes sample_heap 0 "x" 1
           "InputParameter"
           [("name", VStr "old"); ("step_id", VNone); ("type", VNone);
            ("value", VRef 2)] []).
  - apply closedb_sound. vm_compute. reflexivity.
  - vm_compute. reflexivity.
  - vm_compute. reflexivity.
Defined.

(** X10.  One object assigned under two keys gives two entries: after
    [d[K1] = p; d[K2] = p] the entries under [K1] and [K2] are distinct
    objects named [K1] and [K2], and [p] is as it was. *)
Theorem setitem_twice_gives_two_entries
    (h : heap) (d : loc) (K1 K2 : string) (p : loc)
    (cls : string) (attrs items : list (string * val)) :
  closed h → h !! d = Some (Dict items) →
  h !! p = Some (Instance cls attrs) → K1 ≠ K2 →
  ∃ h1 h2 e1 e2,
    setitem d K1 (VRef p) h = Some h1 ∧
    setitem d K2 (VRef p) h1 = Some h2 ∧
    getitem d K1 h2 = Some e1 ∧ getitem d K2 h2 = Some e2 ∧
    e1 ≠ e2 ∧
    getattr e1 "name" h2 = Some (VStr K1) ∧
    getattr e2 "name" h2 = Some (VStr K2) ∧
    h2 !! p = h !! p.
Proof.
  intros Hclosed Hd Hp Hne.
  destruct (setitem_full h d K1 p cls attrs items Hclosed Hd Hp)
    as (h1 & l1 & attrs1 & Hset1 & Hout1 & Hd1 & Hl1 & _ & _ & Hkeep1
        & Hdom1 & Hclosed1).
  assert (p ∈ dom h) as Hpin by (apply elem_of_dom; eauto).
  assert (p ≠ d) as Hpd by (intros ->; congruence).
  assert (h1 !! p = Some (Instance cls attrs)) as Hp1.
  { by rewrite Hkeep1. }
  destruct (setitem_full h1 d K2 p cls attrs _ Hclosed1 Hd1 Hp1)
    as (h2 & l2 & attrs2 & Hset2 & Hout2 & Hd2 & Hl2 & _ & _ & Hkeep2
        & _ & _).
  assert (l1 ∈ dom h1) as Hl1in by (apply elem_of_dom; eauto).
  assert (l1 ≠ d) as Hl1d.
  { intros ->. apply Hout1, elem_of_dom. eauto. }
  exists h1, h2, (VRef l1), (VRef l2). split_and!; try done.
  - unfold getitem. rewrite Hd2, assoc_get_set_ne by done.
    apply assoc_get_set.
  - unfold getitem. rewrite Hd2. apply assoc_get_set.
  - intros [= ->]. done.
  - unfold getattr. rewrite Hkeep2, Hl1 by done. apply assoc_get_set.
  - unfold getattr. rewrite Hl2. apply assoc_get_set.
  - rewrite Hkeep2, Hkeep1; try done. by apply Hdom1.
Qed.

Lemma setitem_twice_gives_two_entries_witness :
  ∃ h1 h2 e1 e2,
    setitem 0 "a" (VRef 1) sample_heap = Some h1 ∧
    setitem 0 "b" (VRef 1) h1 = Some h2 ∧
    getitem 0 "a" h2 = Some e1 ∧ getitem 0 "b" h2 = Some e2 ∧
    e1 ≠ e2 ∧
    getattr e1 "name" h2 = Some (VStr "a") ∧
    getattr e2 "name" h2 = Some (VStr "b") ∧
    h2 !! 1 = sample_heap !! 1.
Proof.
  apply (setitem_twice_gives_two_entries sample_heap 0 "a" "b" 1
           "InputParameter"
           [("name", VStr "old"); ("step_id", VNone); ("type", VNone);
            ("value", VRef 2)] []).
  - apply closedb_sound. vm_compute. reflexivity.
  - vm_compute. reflexivity.
  - vm_compute. reflexivity.
  - discriminate.
Defined.

(** X11.  [d[K] = v] raises, and stores nothing, when [v] cannot take a
    [name] attribute: [None], a bool, an int, a str, a dict or a list. *)
Theorem setitem_rejects_what_has_no_attributes
    (h : heap) (d : loc) (K : string) (v : val) :
  scalar v ∨
  (∃ l items, v = VRef l ∧ h !! l = Some (Dict items)) ∨
  (∃ l items, v = VRef l ∧ h !! l = Some (List items)) →
  setitem d K v h = None.
Proof.
  intros Hv. unfold setitem.
  destruct (deepcopy v h) as [[v' h1]|] eqn:Hcopy; [|done].
  assert (setattr v' "name" (VStr K) h1 = None) as ->; [|done].
  destruct Hv as [Hs|[(l & items & -> & Hl)|(l & items & -> & Hl)]].
  - unfold deepcopy in Hcopy. rewrite deepcopy_rec_scalar in Hcopy by done.
    injection Hcopy as <- <-. destruct v; try done. by destruct (Hs l).
  - assert (∃ l', v' = VRef l') as [l' ->].
    { unfold deepcopy in Hcopy. simpl in Hcopy.
      rewrite lookup_empty, Hl in Hcopy.
      destruct (copy_all _ _ _) as [[vs [h2 memo]]|]; [|done].
      injection Hcopy as <- <-. eauto. }
    destruct (deepcopy_content h l _ l' h1 Hcopy Hl) as (vs & Hvs & _).
    unfold setattr. by rewrite Hvs.
  - assert (∃ l', v' = VRef l') as [l' ->].
    { unfold deepcopy in Hcopy. simpl in Hcopy.
      rewrite lookup_empty, Hl in Hcopy.
      destruct (copy_all _ _ _) as [[vs [h2 memo]]|]; [|done].
      injection Hcopy as <- <-. eauto. }
    destruct (deepcopy_content h l _ l' h1 Hcopy Hl) as (vs & Hvs & _).
    unfold setattr. by rewrite Hvs.
Qed.

Lemma setitem_rejects_what_has_no_attributes_witness :
  setitem 0 "x" (VRef 2) sample_heap = None.
Proof.
  apply (setitem_rejects_what_has_no_attributes sample_heap 0 "x" (VRef 2)).
  right. right. exists 2, [VInt 1; VRef 2]. split; [reflexivity|].
  vm_compute. reflexivity.
Defined.

Lemma update_spec items :
  ∀ h d its0,
    closed h → h !! d = Some (Dict its0) → instances h items →
    NoDup (items.*1) →
    ∃ h' its',
      update d items h = Some h' ∧ closed h' ∧
      h' !! d = Some (Dict its') ∧ dom h ⊆ dom h' ∧
      (∀ l, l ∈ dom h → l ≠ d → h' !! l = h !! l) ∧
      (∀ k, k ∉ items.*1 → assoc_get k its' = assoc_get k its0) ∧
      (∀ k v, (k, v) ∈ items →
         ∃ l', assoc_get k its' = Some (VRef l') ∧ VRef l' ≠ v ∧
               (l' ∉ dom h) ∧
               getattr (VRef l') "name" h' = Some (VStr k)).
Proof.
  induction items as [|[k v] items IH]; intros h d its0 Hclosed Hd Hinst Hnd.
  { exists h, its0. split_and!; try done. intros k v Hin.
    by apply elem_of_nil in Hin. }
  rewrite fmap_cons in Hnd. apply NoDup_cons in Hnd as [Hk Hnd]. simpl in Hk.
  destruct (Hinst k v) as (p & cls & attrs & -> & Hp); [by left|].
  destruct (setitem_full h d k p cls attrs its0 Hclosed Hd Hp)
    as (h1 & l1 & attrs1 & Hset1 & Hout1 & Hd1 & Hl1 & _ & _ & Hkeep1
        & Hdom1 & Hclosed1).
  assert (instances h1 items) as Hinst1.
  { intros k' v' Hin.
    destruct (Hinst k' v') as (p' & cls' & attrs' & -> & Hp'); [by right|].
    exists p', cls', attrs'. split; [done|]. rewrite Hkeep1; [done|..].
    - apply elem_of_dom. eauto.
    - intros ->. congruence. }
  destruct (IH h1 d _ Hclosed1 Hd1 Hinst1 Hnd)
    as (h' & its' & Hup & Hclosed' & Hd' & Hdom' & Hkeep' & Hother & Hnamed).
  exists h', its'. simpl. rewrite Hset1.
  assert (l1 ∈ dom h1) as Hl1in by (apply elem_of_dom; eauto).
  assert (l1 ≠ d) as Hl1d.
  { intros ->. apply Hout1, elem_of_dom. eauto. }
  split_and!; try done.
  - by etrans.
  - intros l Hl Hld. rewrite Hkeep', Hkeep1; try done. by apply Hdom1.
  - intros k0 Hk0. apply not_elem_of_cons in Hk0 as [Hne Hk0].
    rewrite (Hother k0 Hk0). by apply assoc_get_set_ne.
  - intros k0 v0 Hin. apply elem_of_cons in Hin as [[= -> ->]|Hin].
    + exists l1. split_and!; try done.
      * rewrite (Hother k Hk). apply assoc_get_set.
      * intros [= ->]. apply Hout1, elem_of_dom. eauto.
      * unfold getattr. rewrite Hkeep', Hl1 by done. apply assoc_get_set.
    + destruct (Hnamed k0 v0 Hin) as (l' & ? & ? & Hout' & ?).
      exists l'. split_and!; try done. intros ?. by apply Hout', Hdom1.
Qed.

(** X12.  [AutonamedDict(value)], which [Inputs] and [Outputs] build
    from a plain dict [value] of instances, holds under every key of
    [value] a copy named by this key, holds nothing else, and leaves the
    objects of [value] as they were. *)
Theorem autonamed_dict_names_every_entry
    (h : heap) (value : list (string * val)) :
  closed h → instances h value → NoDup (value.*1) →
  ∃ d h',
    autonamed_dict value h = Some (d, h') ∧
    (d ∉ dom h) ∧ closed h' ∧
    (∀ l, l ∈ dom h → h' !! l = h !! l) ∧
    (∀ k v, (k, v) ∈ value →
       ∃ entry, getitem d k h' = Some entry ∧ entry ≠ v ∧
                getattr entry "name" h' = Some (VStr k)) ∧
    (∀ k, k ∉ value.*1 → getitem d k h' = None).
Proof.
  intros Hclosed Hinst Hnd. unfold autonamed_dict.
  set (d := fresh (dom h)).
  assert (d ∉ dom h) as Hd by apply is_fresh.
  assert (closed (<[d := Dict []]> h)) as Hclosed0.
  { intros l o b Ho Hb. rewrite dom_insert_L. apply elem_of_union. right.
    apply lookup_insert_Some in Ho as [[<- <-]|[_ Ho]].
    - by apply elem_of_nil in Hb.
    - by eapply Hclosed. }
  assert (instances (<[d := Dict []]> h) value) as Hinst0.
  { intros k v Hin. destruct (Hinst k v Hin) as (p & cls & attrs & -> & Hp).
    exists p, cls, attrs. split; [done|]. rewrite lookup_insert_ne; [done|].
    intros <-. apply Hd, elem_of_dom. eauto. }
  destruct (update_spec value (<[d := Dict []]> h) d [] Hclosed0
              (lookup_insert_eq _ _ _) Hinst0 Hnd)
    as (h' & its' & -> & Hclosed' & Hd' & _ & Hkeep & Hother & Hnamed).
  exists d, h'. split_and!; try done.
  - intros l Hl. rewrite Hkeep.
    + apply lookup_insert_ne. by intros <-.
    + rewrite dom_insert_L. apply elem_of_union. by right.
    + by intros ->.
  - intros k v Hin. destruct (Hnamed k v Hin) as (l' & Hget & Hne & _ & Hname).
    exists (VRef l'). unfold getitem. by rewrite Hd'.
  - intros k Hk. unfold getitem. rewrite Hd'. by rewrite (Hother k Hk).
Qed.

Lemma autonamed_dict_names_every_entry_witness :
  ∃ d h',
    autonamed_dict [("a", VRef 1); ("b", VRef 1)] sample_heap = Some (d, h') ∧
    (d ∉ dom sample_heap) ∧ closed h' ∧
    (∀ l, l ∈ dom sample_heap → h' !! l = sample_heap !! l) ∧
    (∀ k v, (k, v) ∈ [("a", VRef 1); ("b", VRef 1)] →
       ∃ entry, getitem d k h' = Some entry ∧ entry ≠ v ∧
                getattr entry "name" h' = Some (VStr k)) ∧
    (∀ k, k ∉ [("a", VRef 1); ("b", VRef 1)].*1 → getitem d k h' = None).
Proof.
  apply (autonamed_dict_names_every_entry sample_heap
           [("a", VRef 1); ("b", VRef 1)]).
  - apply closedb_sound. vm_compute. reflexivity.
  - intros k v Hin. exists 1, "InputParameter",
      [("name", VStr "old"); ("step_id", VNone); ("type", VNone);
       ("value", VRef 2)].
    split; [|vm_compute; reflexivity].
    repeat (apply elem_of_cons in Hin as [[= -> ->]|Hin]); try done.
    by apply elem_of_nil in Hin.
  - simpl. apply NoDup_cons. split; [|apply NoDup_singleton].
    rewrite list_elem_of_singleton. discriminate.
Defined.

Lemma set_each_spec a x entries :
  ∀ h,
    (∀ e, e ∈ entries →
       ∃ l cls attrs, e = VRef l ∧ h !! l = Some (Instance cls attrs)) →
    ∃ h',
      set_each a x entries h = Some h' ∧
      (∀ l cls attrs, h !! l = Some (Instance cls attrs) →
         ∃ attrs', h' !! l = Some (Instance cls attrs') ∧
           (∀ b, b ≠ a → assoc_get b attrs' = assoc_get b attrs) ∧
           (VRef l ∈ entries → assoc_get a attrs' = Some x) ∧
           (assoc_get a attrs = Some x → assoc_get a attrs' = Some x)) ∧
      (∀ l o, h !! l = Some o → (∀ cls attrs, o ≠ Instance cls attrs) →
         h' !! l = Some o).
Proof.
  induction entries as [|e entries IH]; intros h Hinst.
  { exists h. split_and!; try done. intros l cls attrs Hl. exists attrs.
    split_and!; try done. by intros ?%elem_of_nil. }
  destruct (Hinst e) as (l0 & cls0 & attrs0 & -> & Hl0); [by left|].
  simpl. rewrite Hl0.
  set (h1 := <[l0 := Instance cls0 (assoc_set a x attrs0)]> h).
  destruct (IH h1) as (h' & -> & Hobj & Hother).
  { intros e He.
    destruct (Hinst e) as (l & cls & attrs & -> & Hl); [by right|].
    destruct (decide (l = l0)) as [->|Hne].
    - exists l0, cls0, (assoc_set a x attrs0). split; [done|].
      unfold h1. by rewrite lookup_insert_eq.
    - exists l, cls, attrs. split; [done|].
      unfold h1. by rewrite lookup_insert_ne. }
  exists h'. split_and!; try done.
  - intros l cls attrs Hl. destruct (decide (l = l0)) as [->|Hne].
    + assert (cls = cls0 ∧ attrs = attrs0) as [-> ->] by (split; congruence).
      destruct (Hobj l0 cls0 (assoc_set a x attrs0))
        as (attrs' & Hl' & Hsame & _ & Hkeep).
      { unfold h1. by rewrite lookup_insert_eq. }
      exists attrs'. split_and!; try done.
      * intros b Hb. rewrite (Hsame b Hb). by apply assoc_get_set_ne.
      * intros _. apply Hkeep, assoc_get_set.
      * intros _. apply Hkeep, assoc_get_set.
    + destruct (Hobj l cls attrs) as (attrs' & Hl' & Hsame & Hin & Hkeep).
      { unfold h1. by rewrite lookup_insert_ne. }
      exists attrs'. split_and!; try done.
      intros [[= ?]|?]%elem_of_cons; [done|by apply Hin].
  - intros l o Hl Ho. apply Hother; [|done].
    unfold h1. rewrite lookup_insert_ne; [done|]. intros <-.
    rewrite Hl0 in Hl. injection Hl as <-. by destruct (Ho cls0 attrs0).
Qed.

Lemma assoc_get_values k (items : list (string * val)) v :
  assoc_get k items = Some v → v ∈ items.*2.
Proof.
  induction items as [|[k' v'] items IH]; simpl; [done|].
  destruct (decide (k = k')).
  - intros [= ->]. by left.
  - intros H. right. by apply IH.
Qed.

Lemma assoc_get_elem k (items : list (string * val)) v :
  assoc_get k items = Some v → (k, v) ∈ items.
Proof.
  induction items as [|[k' v'] items IH]; simpl; [done|].
  destruct (decide (k = k')) as [->|].
  - intros [= ->]. by left.
  - intros H. right. by apply IH.
Qed.

Lemma set_step_id_spec
    (h : heap) (parameters artifacts : loc) (step_id : val)
    (pars arts : list (string * val)) :
  h !! parameters = Some (Dict pars) → h !! artifacts = Some (Dict arts) →
  instances h pars → instances h arts →
  ∃ h',
    set_step_id parameters artifacts step_id h = Some h' ∧
    h' !! parameters = Some (Dict pars) ∧
    h' !! artifacts = Some (Dict arts) ∧
    ∀ c k l cls attrs, c = parameters ∨ c = artifacts →
      getitem c k h = Some (VRef l) → h !! l = Some (Instance cls attrs) →
      ∃ attrs', h' !! l = Some (Instance cls attrs') ∧
        assoc_get "step_id" attrs' = Some step_id ∧
        (∀ b, b ≠ "step_id" → assoc_get b attrs' = assoc_get b attrs).
Proof.
  intros Hp Ha Hip Hia. unfold set_step_id. rewrite Hp.
  destruct (set_each_spec "step_id" step_id (pars.*2) h)
    as (h1 & -> & Hobj1 & Hother1).
  { intros e ([k v] & -> & Hin)%list_elem_of_fmap.
    destruct (Hip k v Hin) as (l & cls & attrs & -> & Hl). eauto. }
  rewrite (Hother1 _ _ Ha) by done.
  destruct (set_each_spec "step_id" step_id (arts.*2) h1)
    as (h2 & -> & Hobj2 & Hother2).
  { intros e ([k v] & -> & Hin)%list_elem_of_fmap.
    destruct (Hia k v Hin) as (l & cls & attrs & -> & Hl).
    destruct (Hobj1 l cls attrs Hl) as (attrs' & Hl' & _). eauto. }
  exists h2. split_and!; try done.
  - apply Hother2; [|done]. by apply Hother1.
  - apply Hother2; [|done]. by apply Hother1.
  - intros c k l cls attrs Hc Hget Hl. unfold getitem in Hget.
    destruct (Hobj1 l cls attrs Hl) as (attrs1 & Hl1 & Hsame1 & Hin1 & _).
    destruct (Hobj2 l cls attrs1 Hl1) as (attrs2 & Hl2 & Hsame2 & Hin2 & Hkeep2).
    exists attrs2. split_and!; try done.
    + destruct Hc as [-> | ->].
      * rewrite Hp in Hget. apply Hkeep2, Hin1.
        by apply assoc_get_values in Hget.
      * rewrite Ha in Hget. apply Hin2. by apply assoc_get_values in Hget.
    + intros b Hb. by rewrite Hsame2, Hsame1.
Qed.

(** X13.  [set_step_id(step_id)] gives every entry of the parameters and
    of the artifacts the [step_id], keeps their names and keeps the two
    collections as they are. *)
Theorem set_step_id_marks_every_entry
    (h : heap) (parameters artifacts : loc) (step_id : val)
    (pars arts : list (string * val)) :
  h !! parameters = Some (Dict pars) → h !! artifacts = Some (Dict arts) →
  instances h pars → instances h arts →
  ∃ h',
    set_step_id parameters artifacts step_id h = Some h' ∧
    h' !! parameters = Some (Dict pars) ∧
    h' !! artifacts = Some (Dict arts) ∧
    ∀ c k e, c = parameters ∨ c = artifacts → getitem c k h = Some e →
      getattr e "step_id" h' = Some step_id ∧
      getattr e "name" h' = getattr e "name" h.
Proof.
  intros Hp Ha Hip Hia.
  destruct (set_step_id_spec h parameters artifacts step_id pars arts
              Hp Ha Hip Hia) as (h' & Hset & Hp' & Ha' & Hobj).
  exists h'. split_and!; try done.
  intros c k e Hc Hget.
  assert (∃ l cls attrs, e = VRef l ∧ h !! l = Some (Instance cls attrs))
    as (l & cls & attrs & -> & Hl).
  { unfold getitem in Hget. destruct Hc as [-> | ->].
    - rewrite Hp in Hget. by apply (Hip k), assoc_get_elem.
    - rewrite Ha in Hget. by apply (Hia k), assoc_get_elem. }
  destruct (Hobj c k l cls attrs Hc Hget Hl) as (attrs' & Hl' & Hid & Hsame).
  unfold getattr. rewrite Hl', Hl. split; [done|]. by apply Hsame.
Qed.

Lemma set_step_id_marks_every_entry_witness :
  let h := <[3 := Dict []]> (<[0 := Dict [("x", VRef 1)]]> sample_heap) in
  ∃ h',
    set_step_id 0 3 (VStr "step") h = Some h' ∧
    h' !! 0 = Some (Dict [("x", VRef 1)]) ∧
    h' !! 3 = Some (Dict []) ∧
    ∀ c k e, c = 0 ∨ c = 3 → getitem c k h = Some e →
      getattr e "step_id" h' = Some (VStr "step") ∧
      getattr e "name" h' = getattr e "name" h.
Proof.
  intros h.
  apply (set_step_id_marks_every_entry h 0 3 (VStr "step")
           [("x", VRef 1)] []).
  - vm_compute. reflexivity.
  - vm_compute. reflexivity.
  - intros k v [= -> ->]%list_elem_of_singleton.
    exists 1, "InputParameter",
      [("name", VStr "old"); ("step_id", VNone); ("type", VNone);
       ("value", VRef 2)].
    split; [done|]. vm_compute. reflexivity.
  - intros k v Hin. by apply elem_of_nil in Hin.
Defined.

Lemma assoc_set_elem k x (items : list (string * val)) k' v' :
  (k', v') ∈ assoc_set k x items → (k', v') = (k, x) ∨ (k', v') ∈ items.
Proof.
  induction items as [|[k0 v0] items IH]; simpl.
  - intros ?%list_elem_of_singleton. by left.
  - destruct (decide (k = k0)); rewrite !elem_of_cons; intuition.
Qed.

(** X14.  The text of a deferred reference: after
    [parameters[K] = p] and [set_step_id(step_id)], [repr] of the entry
    under [K] is ["<step_id>.<kind>.<K>"], [kind] being
    [inputs.parameters], [inputs.artifacts], [outputs.parameters] or
    [outputs.artifacts] by the class of [p]. *)
Theorem reference_text_of_a_named_entry
    (h : heap) (parameters artifacts : loc) (K step_id : string) (p : loc)
    (cls kind : string) (attrs pars arts : list (string * val)) :
  closed h → parameters ≠ artifacts →
  h !! parameters = Some (Dict pars) → h !! artifacts = Some (Dict arts) →
  instances h pars → instances h arts →
  h !! p = Some (Instance cls attrs) → kind_of cls = Some kind →
  ∃ h1 h2 entry,
    setitem parameters K (VRef p) h = Some h1 ∧
    set_step_id parameters artifacts (VStr step_id) h1 = Some h2 ∧
    getitem parameters K h2 = Some entry ∧
    repr entry h2 = Some (step_id +:+ "." +:+ kind +:+ "." +:+ K).
Proof.
  intros Hclosed Hne Hp Ha Hip Hia Hobj Hkind.
  destruct (setitem_full h parameters K p cls attrs pars Hclosed Hp Hobj)
    as (h1 & l' & attrs1 & Hset & Hout & Hp1 & Hl1 & _ & _ & Hkeep & _ & _).
  assert (∀ items, instances h items → instances h1 items) as Hinst.
  { intros items Hi k v Hin.
    destruct (Hi k v Hin) as (q & c & a & -> & Hq).
    exists q, c, a. split; [done|]. rewrite Hkeep; [done|..].
    - apply elem_of_dom. eauto.
    - intros ->. congruence. }
  assert (instances h1 (assoc_set K (VRef l') pars)) as Hip1.
  { intros k v [[= -> ->]|Hin]%assoc_set_elem; [eauto|].
    by apply (Hinst pars Hip k v). }
  assert (h1 !! artifacts = Some (Dict arts)) as Ha1.
  { rewrite Hkeep; [done| |done]. apply elem_of_dom. eauto. }
  destruct (set_step_id_spec h1 parameters artifacts (VStr step_id) _ arts
              Hp1 Ha1 Hip1 (Hinst arts Hia))
    as (h2 & Hstep & Hp2 & _ & Hmarked).
  exists h1, h2, (VRef l'). split_and!; try done.
  - unfold getitem. rewrite Hp2. apply assoc_get_set.
  - destruct (Hmarked parameters K l' cls
                (assoc_set "name" (VStr K) attrs1) (or_introl eq_refl))
      as (attrs2 & Hl2 & Hid & Hsame); [|done|].
    { unfold getitem. rewrite Hp1. apply assoc_get_set. }
    unfold repr. rewrite Hl2, Hkind, Hsame, assoc_get_set, Hid by done.
    done.
Qed.

Lemma reference_text_of_a_named_entry_witness :
  let h := <[3 := Dict []]> sample_heap in
  ∃ h1 h2 entry,
    setitem 0 "x" (VRef 1) h = Some h1 ∧
    set_step_id 0 3 (VStr "step") h1 = Some h2 ∧
    getitem 0 "x" h2 = Some entry ∧
    repr entry h2
      = Some ("step" +:+ "." +:+ "inputs.parameters" +:+ "." +:+ "x").
Proof.
  intros h.
  apply (reference_text_of_a_named_entry h 0 3 "x" "step" 1 "InputParameter"
           "inputs.parameters"
           [("name", VStr "old"); ("step_id", VNone); ("type", VNone);
            ("value", VRef 2)] [] []).
  - apply closedb_sound. vm_compute. reflexivity.
  - discriminate.
  - vm_compute. reflexivity.
  - vm_compute. reflexivity.
  - intros k v Hin. by apply elem_of_nil in Hin.
  - intros k v Hin. by apply elem_of_nil in Hin.
  - vm_compute. reflexivity.
  - reflexivity.
Defined.
End IoMore.

(** ** argo_objects.py: sorting, and the output artifacts of a step *)

Module DocTheory.
Import Doc.

Section sorting.
Context {A : Type} (le : A → A → bool).

Lemma insert_by_perm x l : insert_by le x l ≡ₚ x :: l.
Proof.
  induction l as [|y l IH]; simpl; [done|].
  destruct (le x y); [done|]. rewrite IH. apply Permutation_swap.
Qed.

Lemma sort_by_perm l : sort_by le l ≡ₚ l.
Proof.
  induction l as [|x l IH]; simpl; [done|].
  by rewrite insert_by_perm, IH.
Qed.
End sorting.

Lemma insert_by_fmap {A B} (f : A → B) (le : B → B → bool) x l :
  f <$> insert_by (λ a b, le (f a) (f b)) x l = insert_by le (f x) (f <$> l).
Proof.
  induction l as [|y l IH]; [done|].
  rewrite fmap_cons. cbn [insert_by].
  destruct (le (f x) (f y)); [done|]. by rewrite fmap_cons, IH.
Qed.

Lemma sort_by_fmap {A B} (f : A → B) (le : B → B → bool) l :
  f <$> sort_by (λ a b, le (f a) (f b)) l = sort_by le (f <$> l).
Proof.
  induction l as [|x l IH]; [done|].
  unfold sort_by in *. rewrite fmap_cons. cbn [foldr].
  by rewrite insert_by_fmap, IH.
Qed.

Lemma insert_by_sorted (x : Z) l :
  StronglySorted Z.le l → StronglySorted Z.le (insert_by Z.leb x l).
Proof.
  induction 1 as [|y l Hl IH Hy]; simpl.
  - repeat constructor.
  - destruct (x <=? y)%Z eqn:Hxy.
    + apply Z.leb_le in Hxy. constructor; [by constructor|].
      constructor; [done|]. eapply Forall_impl; [done|]. simpl. lia.
    + apply Z.leb_gt in Hxy. constructor; [done|].
      rewrite insert_by_perm. constructor; [lia|done].
Qed.

Lemma sort_by_sorted (l : list Z) : StronglySorted Z.le (sort_by Z.leb l).
Proof.
  induction l as [|x l IH]; simpl; [constructor|by apply insert_by_sorted].
Qed.

Lemma sorted_last (l : list Z) top :
  StronglySorted Z.le l → last l = Some top → Forall (λ x, (x ≤ top)%Z) l.
Proof.
  induction 1 as [|y l Hl IH Hy]; [constructor|].
  intros Hlast. destruct l as [|z l].
  - injection Hlast as ->. by repeat constructor.
  - change (last (y :: z :: l)) with (last (z :: l)) in Hlast.
    constructor; [|by apply IH].
    assert (top ∈ z :: l) as Hin.
    { rewrite last_lookup in Hlast. by eapply list_elem_of_lookup_2. }
    by eapply Forall_forall in Hy.
Qed.
End DocTheory.

Module StepTheory.
Import Doc Step DocTheory.

Lemma keyed_orders path_list orders :
  map_res order_of path_list = Ok orders →
  ∃ records, keyed path_list = Ok records ∧ records.*1 = orders.
Proof.
  unfold keyed, order_of. revert orders.
  induction path_list as [|item l IH]; intros orders; simpl.
  - intros [= <-]. by exists [].
  - destruct (key_of item) as [k|]; simpl; [|done].
    destruct (int_of k) as [z|] eqn:Hz; simpl; [|done].
    destruct (map_res _ l) as [os|]; simpl; [|done].
    intros [= <-]. destruct (IH os eq_refl) as (records & Hrec & <-).
    destruct (map_res _ l) as [ks|]; simpl in *; [|done].
    rewrite Hz. simpl. rewrite Hrec. simpl. by eexists.
Qed.

Lemma list_setitem_in_range {A} (l : list A) (i : Z) (x : A) :
  (0 ≤ i < Z.of_nat (length l))%Z →
  list_setitem l i x = Ok (<[Z.to_nat i := x]> l).
Proof. intros Hi. unfold list_setitem. by rewrite decide_True. Qed.

(** The loop that fills [new_path], for orders that are indices of it. *)
Lemma place_spec pairs (np : list (option string)) :
  Forall (λ po : string * Z, (0 ≤ po.2 < Z.of_nat (length np))%Z) pairs →
  ∃ np', place pairs np = Ok np' ∧ length np' = length np ∧
    (∀ k, (∀ p o, (p, o) ∈ pairs → Z.to_nat o ≠ k) → np' !! k = np !! k) ∧
    (∀ i p o, pairs !! i = Some (p, o) →
       (∀ j p' o', i < j → pairs !! j = Some (p', o') → o' ≠ o) →
       np' !! Z.to_nat o = Some (Some p)).
Proof.
  revert np. induction pairs as [|[p0 o0] pairs IH]; intros np Hall.
  { exists np. by split_and!. }
  apply Forall_cons in Hall as [Ho0 Hall]. simpl in Ho0.
  simpl. rewrite list_setitem_in_range by done. simpl.
  destruct (IH (<[Z.to_nat o0 := Some p0]> np)) as (np' & -> & Hlen & Hskip & Hput).
  { by rewrite length_insert. }
  rewrite length_insert in Hlen.
  exists np'. split_and!; try done.
  - intros k Hk. rewrite Hskip.
    + apply list_lookup_insert_ne. apply (Hk p0 o0). by left.
    + intros p o Hin. apply (Hk p o). by right.
  - intros [|i] p o Hi Hlater.
    + injection Hi as -> ->. rewrite Hskip.
      * apply list_lookup_insert_eq. lia.
      * intros p' o' Hin Heq.
        pose proof (proj1 (Forall_forall _ _) Hall _ Hin) as Ho'.
        simpl in Ho'. apply list_elem_of_lookup in Hin as [j Hj].
        apply (Hlater (S j) p' o'); [lia|done|]. lia.
    + apply (Hput i p o Hi). intros j p' o' Hij Hj.
      apply (Hlater (S j) p' o'); [lia|done].
Qed.

Lemma build_new_path_spec path_list paths orders :
  map_res order_of path_list = Ok orders →
  length path_list = length paths → orders ≠ [] →
  Forall (λ o, (0 ≤ o)%Z) orders →
  let sorted := sort_by Z.leb orders in
  ∃ top new_path,
    last sorted = Some top ∧ Forall (λ o, (o ≤ top)%Z) orders ∧
    top ∈ orders ∧
    build_new_path path_list paths = Ok new_path ∧
    Z.of_nat (length new_path) = (top + 1)%Z ∧
    (∀ i p o, paths !! i = Some p → sorted !! i = Some o →
       (∀ j o', i < j → sorted !! j = Some o' → o' ≠ o) →
       new_path !! Z.to_nat o = Some (Some p)) ∧
    (∀ k, k < length new_path → Z.of_nat k ∉ orders →
       new_path !! k = Some None).
Proof.
  intros Horders Hlen Hne Hpos sorted.
  destruct (keyed_orders _ _ Horders) as (records & Hkeyed & Hfst).
  pose proof (sort_by_perm Z.leb orders) as Hperm. fold sorted in Hperm.
  pose proof (sort_by_sorted orders) as Hsorted. fold sorted in Hsorted.
  assert ((sort_by le_key records).*1 = sorted) as Hsort.
  { unfold sorted. rewrite <-Hfst. apply (sort_by_fmap fst Z.leb). }
  destruct (last sorted) as [top|] eqn:Hlast.
  2:{ apply last_None in Hlast. rewrite Hlast in Hperm.
      by apply Permutation_nil_l in Hperm. }
  assert (Forall (λ o, (o ≤ top)%Z) sorted) as Hmax by by apply sorted_last.
  assert (top ∈ sorted) as Htop.
  { rewrite last_lookup in Hlast. by eapply list_elem_of_lookup_2. }
  assert (0 ≤ top)%Z as Htop0.
  { rewrite Hperm in Htop. by eapply Forall_forall in Hpos. }
  set (np := replicate (Z.to_nat (top + 1)) (None : option string)).
  destruct (place_spec (zip paths sorted) np) as (new_path & Hplace & Hl & Hskip & Hput).
  { apply Forall_forall. intros [p o] Hin. simpl.
    apply elem_of_zip_r in Hin. unfold np. rewrite length_replicate.
    eapply Forall_forall in Hmax; [|done].
    rewrite Hperm in Hin. eapply Forall_forall in Hpos; [|done]. lia. }
  unfold np in Hl. rewrite length_replicate in Hl.
  exists top, new_path. split_and!.
  - done.
  - by rewrite <-Hperm.
  - by rewrite <-Hperm.
  - unfold build_new_path. rewrite Hkeyed. simpl.
    rewrite <-Hsort in Hlast. rewrite fmap_last in Hlast.
    destruct (last (sort_by le_key records)) as [[t it]|]; [|done].
    injection Hlast as ->. simpl. by rewrite Hsort.
  - lia.
  - intros i p o Hp Ho Hlater. apply (Hput i p o).
    + apply lookup_zip_with_Some. by exists p, o.
    + intros j p' o' Hij Hj. apply lookup_zip_with_Some in Hj
        as (? & ? & [= <- <-] & _ & Hj). by apply (Hlater j).
  - intros k Hk Hnot. rewrite Hskip.
    + apply lookup_replicate. split; [done|lia].
    + intros p o Hin <-. apply elem_of_zip_r in Hin.
      rewrite Hperm in Hin. eapply Forall_forall in Hpos; [|done].
      apply Hnot. by rewrite Z2Nat.id.
Qed.

Lemma dget_dset k v d : dget k (dset k v d) = Some v.
Proof.
  induction d as [|[k' v'] d IH]; simpl.
  - by rewrite decide_True.
  - destruct (decide (k = k')); simpl; [by rewrite decide_True|].
    by rewrite decide_False.
Qed.

Lemma dget_dset_ne k k' v d : k ≠ k' → dget k' (dset k v d) = dget k' d.
Proof.
  intros Hne. induction d as [|[k0 v0] d IH]; simpl.
  - by rewrite decide_False.
  - destruct (decide (k = k0)) as [->|]; simpl.
    + by rewrite !decide_False.
    + destruct (decide (k' = k0)); [done|apply IH].
Qed.

Lemma dset_same k v d : dget k d = Some v → dset k v d = d.
Proof.
  induction d as [|[k0 v0] d IH]; simpl; [done|].
  destruct (decide (k = k0)) as [->|]; [by intros [= ->]|].
  intros Hd. by rewrite IH.
Qed.

Lemma dget_ddel k d : dget k (ddel k d) = None.
Proof.
  induction d as [|[k' v'] d IH]; simpl; [done|].
  destruct (decide (k = k')); simpl; [done|]. by rewrite decide_False.
Qed.

Lemma dget_ddel_ne k k' d : k ≠ k' → dget k' (ddel k d) = dget k' d.
Proof.
  intros Hne. induction d as [|[k0 v0] d IH]; simpl; [done|].
  destruct (decide (k = k0)) as [->|]; simpl.
  - by rewrite decide_False.
  - destruct (decide (k' = k0)); [done|apply IH].
Qed.

Lemma aget_aset {A} name (a : A) arts : aget name (aset name a arts) = Some a.
Proof.
  induction arts as [|[n a'] arts IH]; simpl.
  - by rewrite decide_True.
  - destruct (decide (name = n)) as [->|]; simpl; [by rewrite decide_True|].
    by rewrite decide_False.
Qed.

Lemma aget_aset_ne {A} name name' (a : A) arts :
  name ≠ name' → aget name' (aset name a arts) = aget name' arts.
Proof.
  intros Hne. induction arts as [|[n a'] arts IH]; simpl.
  - by rewrite decide_False.
  - destruct (decide (name = n)) as [->|]; simpl.
    + by rewrite !decide_False.
    + destruct (decide (name' = n)); [done|apply IH].
Qed.

Lemma aset_aset {A} name (a b : A) arts :
  aset name b (aset name a arts) = aset name b arts.
Proof.
  induction arts as [|[n a'] arts IH]; simpl.
  - by rewrite decide_True.
  - destruct (decide (name = n)) as [->|]; simpl; [by rewrite decide_True|].
    by rewrite decide_False, IH.
Qed.

Lemma get_put_artifact self name art a :
  get_artifact self name = Ok art →
  get_artifact (put_artifact self name a) name = Ok a.
Proof.
  unfold get_artifact, put_artifact.
  destruct (outputs self) as [o|]; simpl; [|done].
  destruct (artifacts o) as [arts|]; simpl; [|done].
  intros _. by rewrite aget_aset.
Qed.

Lemma get_put_artifact_ne self name name' a :
  name ≠ name' →
  get_artifact (put_artifact self name a) name' = get_artifact self name'.
Proof.
  intros Hne. unfold get_artifact, put_artifact.
  destruct (outputs self) as [o|] eqn:Ho; simpl; [|by rewrite Ho].
  destruct (artifacts o) as [arts|] eqn:Ha; simpl; [|by rewrite Ho; simpl; rewrite Ha].
  by rewrite aget_aset_ne.
Qed.

Lemma put_put_artifact self name a b :
  put_artifact (put_artifact self name a) name b = put_artifact self name b.
Proof.
  unfold put_artifact.
  destruct (outputs self) as [o|] eqn:Ho; simpl; [|by rewrite Ho].
  destruct (artifacts o) as [arts|] eqn:Ha; simpl; [|by rewrite Ho, Ha].
  by rewrite aset_aset.
Qed.

Lemma declared_put_artifact self name a n :
  declared_path_list (put_artifact self name a) n = declared_path_list self n.
Proof.
  unfold declared_path_list, put_artifact.
  destruct (outputs self) as [o|] eqn:Ho; simpl; [|by rewrite Ho].
  destruct (artifacts o) as [arts|] eqn:Ha; simpl; [done|by rewrite Ho].
Qed.

Lemma ddel_absent k d : dget k d = None → ddel k d = d.
Proof.
  induction d as [|[k0 v0] d IH]; simpl; [done|].
  destruct (decide (k = k0)); [done|]. intros Hd. by rewrite IH.
Qed.

(** Outside debug mode and for an artifact that is there, the call is one
    store under the key of the repository type followed by the archive
    rule. *)
Lemma modify_output_artifact_eq cfg self name s3 art :
  mode cfg ≠ "debug" → is_S3Artifact s3 = true →
  get_artifact self name = Ok art →
  modify_output_artifact cfg self name s3
  = bind (if decide (repo_type cfg = "s3")
          then Ok (dset "s3" (JDict (to_dict s3)) art)
          else if decide (repo_type cfg = "oss")
          then bind (of_option AttributeError (oss_to_dict s3)) (λ d,
               Ok (dset "oss" (JDict d) art))
          else Ok art) (λ art1,
      Ok (put_artifact self name
            (if ends_with_tgz (key s3) then ddel "archive" art1
             else if has "archive" art1 then art1
             else dset "archive" (JDict [("none", JDict [])]) art1))).
Proof.
  intros Hmode Hs3 Hart. unfold modify_output_artifact.
  rewrite decide_False by done. rewrite Hs3, Hart. simpl.
  assert (∀ a, (if ends_with_tgz (key s3) && has "archive" a
                then Ok (put_artifact self name (ddel "archive" a))
                else if negb (ends_with_tgz (key s3)) && negb (has "archive" a)
                then Ok (put_artifact self name
                           (dset "archive" (JDict [("none", JDict [])]) a))
                else Ok (put_artifact self name a))
               = Ok (put_artifact self name
                       (if ends_with_tgz (key s3) then ddel "archive" a
                        else if has "archive" a then a
                        else dset "archive" (JDict [("none", JDict [])]) a)))
    as Hflag.
  { intros a. destruct (ends_with_tgz (key s3)); simpl.
    - unfold has. destruct (dget "archive" a) eqn:Ha; [done|].
      by rewrite ddel_absent.
    - by destruct (has "archive" a). }
  repeat case_decide; simpl; [apply Hflag| |apply Hflag].
  destruct (oss_to_dict s3); simpl; [apply Hflag|done].
Qed.

(** Every successful call rewrites one artifact of the step. *)
Lemma modify_output_artifact_Ok cfg self name s3 self' :
  modify_output_artifact cfg self name s3 = Ok self' →
  ∃ art art', get_artifact self name = Ok art ∧
              self' = put_artifact self name art'.
Proof.
  destruct (get_artifact self name) as [art|e] eqn:Hart.
  2:{ unfold modify_output_artifact. rewrite Hart.
      repeat case_decide; simpl; try done;
        repeat match goal with
               | |- context [of_option _ ?o] => destruct o; simpl
               | |- context [is_S3Artifact ?s] => destruct (is_S3Artifact s); simpl
               end; done. }
  destruct (decide (mode cfg = "debug")) as [Hmode|Hmode].
  { unfold modify_output_artifact. rewrite decide_True, Hart by done.
    destruct (local_path s3); simpl; [|done]. intros [= <-]. eauto. }
  destruct (is_S3Artifact s3) eqn:Hs3.
  2:{ unfold modify_output_artifact. by rewrite decide_False, Hs3. }
  rewrite (modify_output_artifact_eq _ _ _ _ art) by done.
  repeat case_decide; simpl; try (intros [= <-]; eauto).
  destruct (oss_to_dict s3); simpl; [|done]. intros [= <-]. eauto.
Qed.

(** X15: outside debug mode [modify_output_artifact] fails an assertion
    for an [s3] that is no [S3Artifact]; for one that is, and an artifact
    [name] that is there, it stores [s3.to_dict()] under ["s3"] or
    [s3.oss().to_dict()] under ["oss"] by the repository type, and sets the
    archive entry by the key: removed when the key ends in [.tgz], set to
    [{"none": {}}] when it does not and there was none, kept as it was when
    it does not and there was one.  Every other entry of the artifact is
    kept. *)
Theorem modify_output_artifact_outside_debug
    (cfg : Config) (self : ArgoStep) (name : string) (s3 : Handle) :
  mode cfg ≠ "debug" →
  (is_S3Artifact s3 = false →
     modify_output_artifact cfg self name s3 = Raise AssertionError) ∧
  (is_S3Artifact s3 = true → ∀ art, get_artifact self name = Ok art →
     (repo_type cfg = "oss" → is_Some (oss_to_dict s3)) →
     ∃ art',
       modify_output_artifact cfg self name s3
         = Ok (put_artifact self name art') ∧
       get_artifact (put_artifact self name art') name = Ok art' ∧
       (repo_type cfg = "s3" → dget "s3" art' = Some (JDict (to_dict s3))) ∧
       (repo_type cfg = "oss" →
          JDict <$> oss_to_dict s3 = dget "oss" art') ∧
       (ends_with_tgz (key s3) = true → dget "archive" art' = None) ∧
       (ends_with_tgz (key s3) = false → dget "archive" art = None →
          dget "archive" art' = Some (JDict [("none", JDict [])])) ∧
       (ends_with_tgz (key s3) = false → ∀ a, dget "archive" art = Some a →
          dget "archive" art' = Some a) ∧
       (∀ k, k ≠ "archive" → k ≠ repo_type cfg →
          dget k art' = dget k art)).
Proof.
  intros Hmode. split.
  { intros Hs3. unfold modify_output_artifact.
    by rewrite decide_False, Hs3. }
  intros Hs3 art Hart Hoss.
  rewrite (modify_output_artifact_eq _ _ _ _ art) by done.
  set (art1 := if decide (repo_type cfg = "s3")
               then dset "s3" (JDict (to_dict s3)) art
               else if decide (repo_type cfg = "oss")
               then match oss_to_dict s3 with
                    | Some d => dset "oss" (JDict d) art
                    | None => art
                    end
               else art).
  assert ((if decide (repo_type cfg = "s3")
           then Ok (dset "s3" (JDict (to_dict s3)) art)
           else if decide (repo_type cfg = "oss")
           then bind (of_option AttributeError (oss_to_dict s3)) (λ d,
                Ok (dset "oss" (JDict d) art))
           else Ok art) = Ok art1) as ->.
  { unfold art1. repeat case_decide; try done.
    by destruct (Hoss ltac:(done)) as [d ->]. }
  assert (dget "archive" art1 = dget "archive" art) as Harch.
  { unfold art1. repeat case_decide; rewrite ?dget_dset_ne; try done.
    destruct (oss_to_dict s3); by rewrite ?dget_dset_ne. }
  assert (∀ k, k ≠ repo_type cfg → dget k art1 = dget k art) as Hframe.
  { intros k Hk. unfold art1. repeat case_decide; try done.
    - rewrite dget_dset_ne; [done|congruence].
    - destruct (oss_to_dict s3); [|done].
      rewrite dget_dset_ne; [done|congruence]. }
  assert (repo_type cfg = "s3" → dget "s3" art1 = Some (JDict (to_dict s3)))
    as Hs3'.
  { intros Hr. unfold art1. rewrite decide_True by done. apply dget_dset. }
  assert (repo_type cfg = "oss" → JDict <$> oss_to_dict s3 = dget "oss" art1)
    as Hoss'.
  { intros Hr. unfold art1. rewrite decide_False by (by rewrite Hr).
    rewrite decide_True by done.
    destruct (Hoss Hr) as [d ->]. simpl. by rewrite dget_dset. }
  simpl. unfold has. rewrite Harch.
  destruct (ends_with_tgz (key s3)), (dget "archive" art) as [a|] eqn:Ha;
    simpl; eexists; (split; [reflexivity|]);
    (split; [by eapply get_put_artifact|]).
  - split_and!; try done.
    + intros Hr. rewrite dget_ddel_ne by done. auto.
    + intros Hr. rewrite dget_ddel_ne by done. auto.
    + intros _. apply dget_ddel.
    + intros k Hk Hk'. rewrite dget_ddel_ne by done. auto.
  - split_and!; try done.
    + intros Hr. rewrite dget_ddel_ne by done. auto.
    + intros Hr. rewrite dget_ddel_ne by done. auto.
    + intros _. apply dget_ddel.
    + intros k Hk Hk'. rewrite dget_ddel_ne by done. auto.
  - split_and!; try done.
    + intros _ ? [= <-]. by rewrite Harch.
    + intros k Hk Hk'. auto.
  - split_and!; try done.
    + intros Hr. rewrite dget_dset_ne by done. auto.
    + intros Hr. rewrite dget_dset_ne by done. auto.
    + intros _ _. apply dget_dset.
    + intros k Hk Hk'. rewrite dget_dset_ne by done. auto.
Qed.

Lemma modify_output_artifact_outside_debug_witness :
  let cfg := mkConfig "default" "s3" in
  let art := [("name", JStr "out")] in
  let self := mkArgoStep (Some (mkOutputs None (Some [("out", art)]))) in
  let s3 := mkHandle true "upload/data.tgz"
                     [("key", JStr "upload/data.tgz")] None None in
  ∃ art',
    modify_output_artifact cfg self "out" s3
      = Ok (put_artifact self "out" art') ∧
    get_artifact (put_artifact self "out" art') "out" = Ok art' ∧
    (repo_type cfg = "s3" → dget "s3" art' = Some (JDict (to_dict s3))) ∧
    (repo_type cfg = "oss" → JDict <$> oss_to_dict s3 = dget "oss" art') ∧
    (ends_with_tgz (key s3) = true → dget "archive" art' = None) ∧
    (ends_with_tgz (key s3) = false → dget "archive" art = None →
       dget "archive" art' = Some (JDict [("none", JDict [])])) ∧
    (ends_with_tgz (key s3) = false → ∀ a, dget "archive" art = Some a →
       dget "archive" art' = Some a) ∧
    (∀ k, k ≠ "archive" → k ≠ repo_type cfg → dget k art' = dget k art).
Proof.
  intros cfg art self s3.
  apply (proj2 (modify_output_artifact_outside_debug cfg self "out" s3
                  ltac:(simpl; discriminate))).
  - reflexivity.
  - vm_compute. reflexivity.
  - simpl. discriminate.
Defined.

(** X16: in debug mode [modify_output_artifact] only records
    [s3.local_path] in the artifact: the entry ["local_path"] is set, every
    other entry of the artifact is kept, and [s3] need not be an
    [S3Artifact]. *)
Theorem modify_output_artifact_in_debug
    (cfg : Config) (self : ArgoStep) (name : string) (s3 : Handle)
    (art : dict) (lp : json) :
  mode cfg = "debug" → local_path s3 = Some lp →
  get_artifact self name = Ok art →
  ∃ art',
    modify_output_artifact cfg self name s3
      = Ok (put_artifact self name art') ∧
    get_artifact (put_artifact self name art') name = Ok art' ∧
    dget "local_path" art' = Some lp ∧
    ∀ k, k ≠ "local_path" → dget k art' = dget k art.
Proof.
  intros Hmode Hlp Hart. unfold modify_output_artifact.
  rewrite decide_True by done. rewrite Hlp, Hart. simpl.
  eexists. split; [done|]. split_and!.
  - by eapply get_put_artifact.
  - apply dget_dset.
  - intros k Hk. by apply dget_dset_ne.
Qed.

Lemma modify_output_artifact_in_debug_witness :
  let cfg := mkConfig "debug" "s3" in
  let art := [("name", JStr "out"); ("s3", JDict [("key", JStr "old")])] in
  let self := mkArgoStep (Some (mkOutputs None (Some [("out", art)]))) in
  let s3 := mkHandle false "" [] None (Some (JStr "/tmp/out")) in
  ∃ art',
    modify_output_artifact cfg self "out" s3
      = Ok (put_artifact self "out" art') ∧
    get_artifact (put_artifact self "out" art') "out" = Ok art' ∧
    dget "local_path" art' = Some (JStr "/tmp/out") ∧
    ∀ k, k ≠ "local_path" → dget k art' = dget k art.
Proof.
  intros cfg art self s3.
  apply (modify_output_artifact_in_debug cfg self "out" s3 art).
  - reflexivity.
  - reflexivity.
  - vm_compute. reflexivity.
Defined.

(** X17: a call of [modify_output_artifact] that returns leaves every
    other artifact of the step, and every parameter of its outputs, as
    they were. *)
Theorem modify_output_artifact_touches_one_artifact
    (cfg : Config) (self self' : ArgoStep) (name : string) (s3 : Handle) :
  modify_output_artifact cfg self name s3 = Ok self' →
  (∀ name', name' ≠ name →
     get_artifact self' name' = get_artifact self name') ∧
  parameters <$> outputs self' = parameters <$> outputs self.
Proof.
  intros (art & art' & Hart & ->)%modify_output_artifact_Ok. split.
  - intros name' Hne. by apply get_put_artifact_ne.
  - unfold put_artifact.
    destruct (outputs self) as [o|] eqn:Ho; simpl; [|by rewrite Ho].
    destruct (artifacts o) as [arts|] eqn:Ha; simpl; [done|by rewrite Ho].
Qed.

Lemma modify_output_artifact_touches_one_artifact_witness :
  let cfg := mkConfig "default" "s3" in
  let self := mkArgoStep (Some (mkOutputs (Some [("p", Ok [JInt 1])])
                (Some [("out", [("name", JStr "out")]);
                       ("log", [("name", JStr "log")])]))) in
  let s3 := mkHandle true "upload/data" [] None None in
  let self' := put_artifact self "out"
                 [("name", JStr "out"); ("s3", JDict []);
                  ("archive", JDict [("none", JDict [])])] in
  (∀ name', name' ≠ "out" →
     get_artifact self' name' = get_artifact self name') ∧
  parameters <$> outputs self' = parameters <$> outputs self.
Proof.
  intros cfg self s3 self'.
  apply (modify_output_artifact_touches_one_artifact cfg self self' "out" s3).
  vm_compute. reflexivity.
Defined.

(** X18: the failures of [modify_output_artifact].  In debug mode an [s3]
    without [local_path] raises [AttributeError]; outside it an [s3] that
    is no [S3Artifact] fails the assertion, whether the artifact is there
    or not.  Otherwise a step without outputs or without artifacts raises
    [AttributeError], and an artifact name that is not among them raises
    [KeyError]. *)
Theorem modify_output_artifact_errors
    (cfg : Config) (self : ArgoStep) (name : string) (s3 : Handle) :
  (mode cfg = "debug" → local_path s3 = None →
     modify_output_artifact cfg self name s3 = Raise AttributeError) ∧
  (mode cfg ≠ "debug" → is_S3Artifact s3 = false →
     modify_output_artifact cfg self name s3 = Raise AssertionError) ∧
  ((if decide (mode cfg = "debug") then is_Some (local_path s3)
    else is_S3Artifact s3 = true ∧
         (repo_type cfg = "oss" → is_Some (oss_to_dict s3))) →
   (outputs self = None →
      modify_output_artifact cfg self name s3 = Raise AttributeError) ∧
   (∀ o, outputs self = Some o → artifacts o = None →
      modify_output_artifact cfg self name s3 = Raise AttributeError) ∧
   (∀ o arts, outputs self = Some o → artifacts o = Some arts →
      aget name arts = None →
      modify_output_artifact cfg self name s3 = Raise KeyError)).
Proof.
  split_and!.
  - intros Hmode Hlp. unfold modify_output_artifact.
    by rewrite decide_True, Hlp.
  - intros Hmode Hs3. unfold modify_output_artifact.
    by rewrite decide_False, Hs3.
  - intros Hcase.
    assert (∀ e, get_artifact self name = Raise e →
              modify_output_artifact cfg self name s3 = Raise e) as Hget.
    { intros e He. unfold modify_output_artifact. rewrite He.
      case_decide.
      - by destruct Hcase as [lp ->].
      - destruct Hcase as [-> Hoss]. simpl.
        repeat case_decide; try done. by destruct (Hoss ltac:(done)) as [d ->]. }
    split_and!.
    + intros Ho. apply Hget. unfold get_artifact. by rewrite Ho.
    + intros o Ho Ha. apply Hget. unfold get_artifact. rewrite Ho. simpl.
      by rewrite Ha.
    + intros o arts Ho Ha Hn. apply Hget. unfold get_artifact. rewrite Ho.
      simpl. rewrite Ha. simpl. by rewrite Hn.
Qed.

Lemma modify_output_artifact_errors_witness :
  modify_output_artifact (mkConfig "default" "s3")
    (mkArgoStep (Some (mkOutputs None (Some [])))) "out"
    (mkHandle true "k" [] None None) = Raise KeyError.
Proof.
  refine (proj2 (proj2 (proj2 (proj2 (modify_output_artifact_errors
           (mkConfig "default" "s3")
           (mkArgoStep (Some (mkOutputs None (Some [])))) "out"
           (mkHandle true "k" [] None None))) _)) _ [] eq_refl eq_refl eq_refl).
  simpl. split; [done|discriminate].
Defined.

(** X19: [modify_output_artifact] is idempotent: a second call with the
    same arguments on the step the first one returned returns that step
    again. *)
Theorem modify_output_artifact_twice
    (cfg : Config) (self self' : ArgoStep) (name : string) (s3 : Handle) :
  modify_output_artifact cfg self name s3 = Ok self' →
  modify_output_artifact cfg self' name s3 = Ok self'.
Proof.
  intros Hcall.
  destruct (modify_output_artifact_Ok _ _ _ _ _ Hcall)
    as (art & art' & Hart & ->).
  pose proof (get_put_artifact self name art art' Hart) as Hart'.
  destruct (decide (mode cfg = "debug")) as [Hmode|Hmode].
  { revert Hcall. unfold modify_output_artifact.
    rewrite !decide_True by done. rewrite Hart, Hart'.
    destruct (local_path s3) as [lp|]; simpl; [|done].
    intros [= Heq]. rewrite put_put_artifact. do 2 f_equal.
    assert (art' = dset "local_path" lp art) as ->.
    { apply (f_equal (λ s, get_artifact s name)) in Heq.
      rewrite !(get_put_artifact _ _ art) in Heq by done. congruence. }
    apply dset_same, dget_dset. }
  destruct (is_S3Artifact s3) eqn:Hs3.
  2:{ revert Hcall. unfold modify_output_artifact.
      by rewrite decide_False, Hs3. }
  revert Hcall.
  rewrite (modify_output_artifact_eq _ _ _ _ art),
          (modify_output_artifact_eq _ _ _ _ art') by done.
  intros Hcall.
  assert (∀ d, (if ends_with_tgz (key s3) then ddel "archive" d
                else if has "archive" d then d
                else dset "archive" (JDict [("none", JDict [])]) d) = art' →
               (∀ k v, k ≠ "archive" → dget k d = Some v →
                  dset k v art' = art') ∧
               (if ends_with_tgz (key s3) then ddel "archive" art'
                else if has "archive" art' then art'
                else dset "archive" (JDict [("none", JDict [])]) art') = art')
    as Hflag.
  { intros d <-. destruct (ends_with_tgz (key s3)).
    - split.
      + intros k v Hk Hd. apply dset_same. by rewrite dget_ddel_ne.
      + apply ddel_absent, dget_ddel.
    - unfold has. destruct (dget "archive" d) eqn:Hd.
      + split; [|by rewrite Hd]. intros k v Hk Hv. by apply dset_same.
      + split.
        * intros k v Hk Hv. apply dset_same. by rewrite dget_dset_ne.
        * by rewrite dget_dset. }
  assert (∀ a1, Ok (put_artifact self name a1) = Ok (put_artifact self name art')
          → a1 = art') as Hinj.
  { intros a1 [= Heq].
    apply (f_equal (λ s, get_artifact s name)) in Heq.
    rewrite !(get_put_artifact _ _ art) in Heq by done. congruence. }
  repeat case_decide; simpl in *.
  - apply Hinj, Hflag in Hcall as [Hset Hfix].
    rewrite (Hset "s3" (JDict (to_dict s3))); [|done|apply dget_dset].
    by rewrite Hfix, put_put_artifact.
  - destruct (oss_to_dict s3) as [d|]; simpl in *; [|done].
    apply Hinj, Hflag in Hcall as [Hset Hfix].
    rewrite (Hset "oss" (JDict d)); [|done|apply dget_dset].
    by rewrite Hfix, put_put_artifact.
  - apply Hinj, Hflag in Hcall as [_ Hfix].
    by rewrite Hfix, put_put_artifact.
Qed.

Lemma modify_output_artifact_twice_witness :
  let cfg := mkConfig "default" "s3" in
  let self := mkArgoStep (Some (mkOutputs None
                (Some [("out", [("name", JStr "out");
                                ("archive", JDict [("tar", JDict [])])])]))) in
  let s3 := mkHandle true "upload/data.tgz" [("key", JStr "upload/data.tgz")]
                     None None in
  let self' := mkArgoStep (Some (mkOutputs None
                (Some [("out", [("name", JStr "out");
                                ("s3", JDict [("key", JStr "upload/data.tgz")])])]))) in
  modify_output_artifact cfg self' "out" s3 = Ok self'.
Proof.
  intros cfg self s3 self'.
  apply (modify_output_artifact_twice cfg self self' "out" s3).
  vm_compute. reflexivity.
Defined.

(** ** Sliced output artifacts *)

Lemma seq_sorted k n : StronglySorted Z.le (Z.of_nat <$> seq k n).
Proof.
  revert k. induction n as [|n IH]; intros k; simpl; constructor; [done|].
  apply Forall_fmap, Forall_forall. intros j Hj. simpl.
  apply elem_of_seq in Hj. lia.
Qed.

Lemma sort_by_seq (orders : list Z) n :
  orders ≡ₚ Z.of_nat <$> seq 0 n →
  sort_by Z.leb orders = Z.of_nat <$> seq 0 n.
Proof.
  intros Hperm. apply (StronglySorted_unique Z.le).
  - apply sort_by_sorted.
  - apply seq_sorted.
  - by rewrite sort_by_perm.
Qed.

(** Filling [new_path] from the left with the indices in order. *)
Lemma place_seq (filled ps : list string) :
  place (zip ps (Z.of_nat <$> seq (length filled) (length ps)))
        ((Some <$> filled) ++ replicate (length ps) None)
  = Ok (Some <$> (filled ++ ps)).
Proof.
  revert filled. induction ps as [|p ps IH]; intros filled; simpl.
  { by rewrite !app_nil_r. }
  rewrite list_setitem_in_range.
  2:{ rewrite length_app, length_fmap. simpl. rewrite length_replicate. lia. }
  simpl. rewrite Nat2Z.id.
  rewrite insert_app_r_alt by (by rewrite length_fmap).
  rewrite length_fmap, Nat.sub_diag. simpl.
  specialize (IH (filled ++ [p])).
  rewrite length_app, fmap_app, <-!app_assoc in IH. simpl in IH.
  by rewrite Nat.add_1_r in IH.
Qed.

Lemma build_new_path_seq path_list paths orders :
  map_res order_of path_list = Ok orders →
  orders ≡ₚ Z.of_nat <$> seq 0 (length paths) → paths ≠ [] →
  build_new_path path_list paths = Ok (Some <$> paths).
Proof.
  intros Horders Hperm Hne.
  destruct (keyed_orders _ _ Horders) as (records & Hkeyed & Hfst).
  assert ((sort_by le_key records).*1 = Z.of_nat <$> seq 0 (length paths))
    as Hsort.
  { rewrite <-(sort_by_seq orders) by done.
    rewrite <-Hfst. apply (sort_by_fmap fst Z.leb). }
  unfold build_new_path. rewrite Hkeyed. simpl.
  destruct (length paths) as [|n] eqn:Hn.
  { by destruct paths. }
  assert (fst <$> last (sort_by le_key records) = Some (Z.of_nat n)) as Hlast.
  { rewrite <-fmap_last, Hsort, seq_S, fmap_app. simpl. apply last_snoc. }
  destruct (last (sort_by le_key records)) as [[t it]|]; [|done].
  injection Hlast as ->. simpl. rewrite Hsort.
  replace (Z.to_nat (Z.of_nat n + 1)) with (length paths) by lia.
  rewrite <-Hn. apply (place_seq [] paths).
Qed.

Section upload_facts.
Variable upload_artifact : list (option string) → res Handle.

(** X20: [upload_and_modify_sliced_output_artifact] fails an assertion
    when the outputs of the step do not declare the parameter
    [dflow_<name>_path_list], and when the number of declared records is
    not the number of supplied paths; with no record and no path it raises
    [IndexError].  In each case nothing has been handed to
    [upload_artifact]. *)
Theorem upload_rejected_before_uploading
    (cfg : Config) (self : ArgoStep) (uploads : list (list (option string)))
    (name : string) (path : PathArg) :
  (declared_path_list self name = None →
     upload_and_modify_sliced_output_artifact upload_artifact cfg self
       uploads name path = (Raise AssertionError, uploads)) ∧
  (∀ path_list, declared_path_list self name = Some (Ok path_list) →
     length path_list ≠ length (as_list path) →
     upload_and_modify_sliced_output_artifact upload_artifact cfg self
       uploads name path = (Raise AssertionError, uploads)) ∧
  (declared_path_list self name = Some (Ok []) → path = Paths [] →
     upload_and_modify_sliced_output_artifact upload_artifact cfg self
       uploads name path = (Raise IndexError, uploads)).
Proof.
  unfold upload_and_modify_sliced_output_artifact. split_and!.
  - by intros ->.
  - intros path_list -> Hlen. simpl. by rewrite decide_False.
  - by intros -> ->.
Qed.

(** X21: with the parameter declared, as many records as paths, and
    orders that are integers from 0 on, the records are sorted by order
    and paired with the paths in the order given; [new_path] has one slot
    more than the largest order; the path paired with an order is in the
    slot of that order (the last such path when an order occurs twice); a
    slot of no order holds [None]; and this collection is uploaded before
    the artifact is rewritten with the handle of the upload. *)
Theorem upload_places_paths_by_order
    (cfg : Config) (self : ArgoStep) (uploads : list (list (option string)))
    (name : string) (path : PathArg) (path_list : list json)
    (orders : list Z) :
  declared_path_list self name = Some (Ok path_list) →
  map_res order_of path_list = Ok orders →
  length path_list = length (as_list path) → orders ≠ [] →
  Forall (λ o, (0 ≤ o)%Z) orders →
  let sorted := sort_by Z.leb orders in
  ∃ top new_path,
    sorted ≡ₚ orders ∧ StronglySorted Z.le sorted ∧
    last sorted = Some top ∧
    Z.of_nat (length new_path) = (top + 1)%Z ∧
    (∀ i p o, as_list path !! i = Some p → sorted !! i = Some o →
       (∀ j o', i < j → sorted !! j = Some o' → o' ≠ o) →
       new_path !! Z.to_nat o = Some (Some p)) ∧
    (∀ k, k < length new_path → Z.of_nat k ∉ orders →
       new_path !! k = Some None) ∧
    upload_and_modify_sliced_output_artifact upload_artifact cfg self
      uploads name path
    = (bind (upload_artifact new_path) (modify_output_artifact cfg self name),
       uploads ++ [new_path]).
Proof.
  intros Hdecl Horders Hlen Hne Hpos sorted.
  destruct (build_new_path_spec path_list (as_list path) orders)
    as (top & new_path & Hlast & _ & _ & Hbuild & Hl & Hput & Hholes);
    [done..|].
  exists top, new_path. split_and!; try done.
  - apply sort_by_perm.
  - apply sort_by_sorted.
  - unfold upload_and_modify_sliced_output_artifact. rewrite Hdecl. simpl.
    rewrite decide_True by done. by rewrite Hbuild.
Qed.

(** X22: when the declared orders are the numbers 0 to n-1 in any
    arrangement, the uploaded collection is the list of supplied paths as
    given: the i-th path goes to slot i, whatever the order of the i-th
    declared record. *)
Theorem upload_keeps_the_given_paths
    (cfg : Config) (self : ArgoStep) (uploads : list (list (option string)))
    (name : string) (paths : list string) (path_list : list json)
    (orders : list Z) :
  declared_path_list self name = Some (Ok path_list) →
  map_res order_of path_list = Ok orders →
  orders ≡ₚ Z.of_nat <$> seq 0 (length paths) → paths ≠ [] →
  upload_and_modify_sliced_output_artifact upload_artifact cfg self
    uploads name (Paths paths)
  = (bind (upload_artifact (Some <$> paths))
       (modify_output_artifact cfg self name),
     uploads ++ [Some <$> paths]).
Proof.
  intros Hdecl Horders Hperm Hne.
  unfold upload_and_modify_sliced_output_artifact. rewrite Hdecl. simpl.
  assert (length path_list = length paths) as Hlen.
  { apply Permutation_length in Hperm.
    rewrite length_fmap, length_seq in Hperm. rewrite <-Hperm.
    clear -Horders. revert orders Horders.
    induction path_list as [|x l IH]; intros orders; simpl.
    - by intros [= <-].
    - destruct (order_of x); simpl; [|done].
      destruct (map_res order_of l); simpl; [|done].
      intros [= <-]. simpl. f_equal. by apply IH. }
  rewrite decide_True by done.
  by rewrite (build_new_path_seq path_list paths orders).
Qed.
End upload_facts.

Lemma upload_rejected_before_uploading_witness :
  let upload := λ _, Ok (mkHandle true "k" [] None None) in
  let self := mkArgoStep (Some (mkOutputs
                (Some [("dflow_out_path_list",
                        Ok [JDict [("order", JInt 0)]])])
                (Some [("out", [("name", JStr "out")])]))) in
  upload_and_modify_sliced_output_artifact upload (mkConfig "default" "s3")
    self [] "out" (Paths ["a"; "b"]) = (Raise AssertionError, []).
Proof.
  intros upload self.
  apply (proj1 (proj2 (upload_rejected_before_uploading upload
           (mkConfig "default" "s3") self [] "out" (Paths ["a"; "b"])))
           [JDict [("order", JInt 0)]]).
  - reflexivity.
  - simpl. lia.
Defined.

Lemma upload_places_paths_by_order_witness :
  let upload := λ _, Ok (mkHandle true "k" [] None None) in
  let path_list := [JDict [("order", JInt 3)]; JDict [("order", JInt 0)]] in
  let self := mkArgoStep (Some (mkOutputs
                (Some [("dflow_out_path_list", Ok path_list)])
                (Some [("out", [("name", JStr "out")])]))) in
  ∃ top new_path,
    sort_by Z.leb [3; 0]%Z ≡ₚ [3; 0]%Z ∧
    StronglySorted Z.le (sort_by Z.leb [3; 0]%Z) ∧
    last (sort_by Z.leb [3; 0]%Z) = Some top ∧
    Z.of_nat (length new_path) = (top + 1)%Z ∧
    (∀ i p o, ["a"; "b"] !! i = Some p →
       sort_by Z.leb [3; 0]%Z !! i = Some o →
       (∀ j o', i < j → sort_by Z.leb [3; 0]%Z !! j = Some o' → o' ≠ o) →
       new_path !! Z.to_nat o = Some (Some p)) ∧
    (∀ k, k < length new_path → Z.of_nat k ∉ [3; 0]%Z →
       new_path !! k = Some None) ∧
    upload_and_modify_sliced_output_artifact upload (mkConfig "default" "s3")
      self [] "out" (Paths ["a"; "b"])
    = (bind (upload new_path)
         (modify_output_artifact (mkConfig "default" "s3") self "out"),
       [] ++ [new_path]).
Proof.
  intros upload path_list self.
  apply (upload_places_paths_by_order upload (mkConfig "default" "s3") self []
           "out" (Paths ["a"; "b"]) path_list [3; 0]%Z).
  - reflexivity.
  - reflexivity.
  - reflexivity.
  - discriminate.
  - repeat constructor; lia.
Defined.

Lemma upload_keeps_the_given_paths_witness :
  let upload := λ _, Ok (mkHandle true "k.tgz" [] None None) in
  let path_list := [JDict [("order", JInt 2)]; JDict [("order", JInt 0)];
                    JDict [("order", JInt 1)]] in
  let self := mkArgoStep (Some (mkOutputs
                (Some [("dflow_out_path_list", Ok path_list)])
                (Some [("out", [("name", JStr "out")])]))) in
  upload_and_modify_sliced_output_artifact upload (mkConfig "default" "s3")
    self [] "out" (Paths ["a"; "b"; "c"])
  = (bind (upload (Some <$> ["a"; "b"; "c"]))
       (modify_output_artifact (mkConfig "default" "s3") self "out"),
     [] ++ [Some <$> ["a"; "b"; "c"]]).
Proof.
  intros upload path_list self.
  apply (upload_keeps_the_given_paths upload (mkConfig "default" "s3") self
           [] "out" ["a"; "b"; "c"] path_list [2; 0; 1]%Z).
  - reflexivity.
  - reflexivity.
  - simpl. solve_Permutation.
  - discriminate.
Defined.
End StepTheory.

(** ** argo_objects.py: pod names, once more *)

Module PodNameMore.
Import PodName PodNameTheory.

(** X23: for a node that is not the root ([wf_name] differs from
    [node_name]) and whose name has an UTF-8 encoding, [get_pod_name]
    returns ["<wf_name>-<template_name>"] cut to its first 242 characters,
    a dash, and the decimal digits of the 32-bit FNV-1a hash of the bytes
    of [node_name].  The digits denote the hash, and the name has at most
    253 characters; it is the uncut text when
    ["<wf_name>-<template_name>"] has at most 242. *)
Theorem pod_name_of_a_step (wf_name node_name template_name node_id : str)
    (data : list N) :
  wf_name ≠ node_name → encode node_name = Some data →
  let hash_val := fnv1a_32 data in
  let r := dash (take 242 (dash wf_name template_name))
                (str_of_int hash_val) in
  get_pod_name wf_name node_name template_name node_id = Some r ∧
  int_of_str (str_of_int hash_val) = hash_val ∧
  length r ≤ 253 ∧
  (length wf_name + 1 + length template_name ≤ 242 →
     r = dash (dash wf_name template_name) (str_of_int hash_val)).
Proof.
  intros Hne Hdata hash_val r.
  pose proof (fnv1a_32_bound data) as Hbound.
  split_and!.
  - unfold get_pod_name. rewrite decide_False by done.
    rewrite Hdata, fnva_is_fnv1a_32.
    unfold max_k8s_resource_name_length, k8s_naming_hash_length.
    by rewrite truncated_prefix.
  - apply str_of_int_value.
  - unfold r. rewrite dash_length, length_take.
    pose proof (str_of_int_length hash_val Hbound). lia.
  - intros Hshort. unfold r. rewrite take_ge; [done|].
    rewrite dash_length. lia.
Qed.

Lemma pod_name_of_a_step_witness :
  let wf_name := of_string "wf" in
  let node_name := of_string "wf.step" in
  let template_name := of_string "t" in
  let hash_val := fnv1a_32 (of_string "wf.step") in
  let r := dash (take 242 (dash wf_name template_name))
                (str_of_int hash_val) in
  get_pod_name wf_name node_name template_name (of_string "id") = Some r ∧
  int_of_str (str_of_int hash_val) = hash_val ∧
  length r ≤ 253 ∧
  (length wf_name + 1 + length template_name ≤ 242 →
     r = dash (dash wf_name template_name) (str_of_int hash_val)).
Proof.
  intros wf_name node_name template_name.
  apply (pod_name_of_a_step wf_name node_name template_name
           (of_string "id") (of_string "wf.step")).
  - vm_compute. discriminate.
  - vm_compute. reflexivity.
Defined.

(** X24: [fnva] returns [hval_init] itself for empty data, reduced or
    not; for data that is not empty and a modulus [fnv_size] that is not
    zero the result is below [fnv_size].  A hash of one part can be
    carried on over the next part. *)
Theorem fnva_range (data : list N) (hval_init fnv_prime fnv_size : N) :
  fnva [] hval_init fnv_prime fnv_size = hval_init ∧
  (fnv_size ≠ 0%N → data ≠ [] →
     (fnva data hval_init fnv_prime fnv_size < fnv_size)%N) ∧
  (∀ more, fnva (data ++ more) hval_init fnv_prime fnv_size
           = fnva more (fnva data hval_init fnv_prime fnv_size)
                  fnv_prime fnv_size).
Proof.
  split_and!.
  - done.
  - intros Hsize Hdata.
    destruct (exists_last Hdata) as (data' & b & ->).
    unfold fnva. rewrite fold_left_app. simpl. by apply N.mod_lt.
  - intros more. unfold fnva. apply fold_left_app.
Qed.

Lemma fnva_range_witness :
  (fnva [104; 105]%N FNV1_32_INIT FNV_32_PRIME (2 ^ 32) < 2 ^ 32)%N.
Proof.
  apply (proj1 (proj2 (fnva_range [104; 105]%N FNV1_32_INIT FNV_32_PRIME
                         (2 ^ 32)%N))); done.
Defined.
End PodNameMore.

(** ** argo_objects.py: the wrappers *)

Module ArgoObjectTheory.
Import Doc ArgoObject.
#[local] Set Warnings "-clear-no-such-hyp".

(** A tree only depends on the objects it is made of. *)
Lemma tree_frame h h' v j F :
  tree h v j F → (∀ l, l ∈ F → h' !! l = h !! l) → tree h' v j F.
Proof.
  intros Ht. revert h'.
  induction Ht as [|l data d F Hl Hd IH Hfresh|l data li F Hl Hd IH Hfresh
                   | |k w j data d F1 F2 Hw IHw Hd IHd Hdisj
                   | |w j data li F1 F2 Hw IHw Hd IHd Hdisj]
    using tree_mut with
    (P0 := λ data d F _, ∀ h', (∀ l, l ∈ F → h' !! l = h !! l) →
                           items h' data d F)
    (P1 := λ data li F _, ∀ h', (∀ l, l ∈ F → h' !! l = h !! l) →
                            elems h' data li F);
    intros h' Hsame.
  - apply tree_plain.
  - apply (tree_dict _ _ data); [|apply IH; intros; apply Hsame; set_solver|done].
    rewrite Hsame by set_solver. done.
  - apply (tree_list _ _ data); [|apply IH; intros; apply Hsame; set_solver|done].
    rewrite Hsame by set_solver. done.
  - apply items_nil.
  - apply items_cons; [apply IHw|apply IHd|done];
      intros; apply Hsame; set_solver.
  - apply elems_nil.
  - apply elems_cons; [apply IHw|apply IHd|done];
      intros; apply Hsame; set_solver.
Qed.

Lemma items_frame h h' data d F :
  items h data d F → (∀ l, l ∈ F → h' !! l = h !! l) → items h' data d F.
Proof.
  induction 1 as [|k w j data d F1 F2 Hw Hd IH Hdisj]; intros Hsame.
  - constructor.
  - constructor; [|apply IH; intros; apply Hsame; set_solver|done].
    eapply tree_frame; [done|]. intros. apply Hsame. set_solver.
Qed.

Lemma elems_frame h h' data li F :
  elems h data li F → (∀ l, l ∈ F → h' !! l = h !! l) → elems h' data li F.
Proof.
  induction 1 as [|w j data li F1 F2 Hw Hd IH Hdisj]; intros Hsame.
  - constructor.
  - constructor; [|apply IH; intros; apply Hsame; set_solver|done].
    eapply tree_frame; [done|]. intros. apply Hsame. set_solver.
Qed.

Lemma tree_dom h v j F : tree h v j F → F ⊆ dom h.
Proof.
  induction 1 as [|l data d F Hl Hd IH Hfresh|l data li F Hl Hd IH Hfresh
                  | |k w j data d F1 F2 Hw IHw Hd IHd Hdisj
                  | |w j data li F1 F2 Hw IHw Hd IHd Hdisj]
    using tree_mut with
    (P0 := λ data d F _, F ⊆ dom h) (P1 := λ data li F _, F ⊆ dom h).
  - apply empty_subseteq.
  - apply elem_of_dom_2 in Hl. apply union_subseteq. split; [|done].
    by apply singleton_subseteq_l.
  - apply elem_of_dom_2 in Hl. apply union_subseteq. split; [|done].
    by apply singleton_subseteq_l.
  - apply empty_subseteq.
  - by apply union_subseteq.
  - apply empty_subseteq.
  - by apply union_subseteq.
Qed.

(** [recover] reads a tree back as its document. *)
Lemma tree_recover h v j F :
  tree h v j F → ∀ n, size F ≤ n → recover_rec n h v = Some j.
Proof.
  induction 1 as [|l data d F Hl Hd IH Hfresh|l data li F Hl Hd IH Hfresh
                  | |k w j data d F1 F2 Hw IHw Hd IHd Hdisj
                  | |w j data li F1 F2 Hw IHw Hd IHd Hdisj]
    using tree_mut with
    (P0 := λ data d F _, ∀ n, size F ≤ n →
       mapM (λ kw : string * wval, pair kw.1 <$> recover_rec n h kw.2) data
       = Some d)
    (P1 := λ data li F _, ∀ n, size F ≤ n →
       mapM (recover_rec n h) data = Some li);
    intros n Hn.
  - by destruct n.
  - rewrite size_union, size_singleton in Hn by set_solver.
    destruct n as [|n]; [lia|]. simpl. rewrite Hl.
    rewrite IH by lia. done.
  - rewrite size_union, size_singleton in Hn by set_solver.
    destruct n as [|n]; [lia|]. simpl. rewrite Hl.
    rewrite IH by lia. done.
  - done.
  - rewrite size_union in Hn by done. simpl.
    rewrite IHw by lia. simpl. rewrite IHd by lia. done.
  - done.
  - rewrite size_union in Hn by done. simpl.
    rewrite IHw by lia. simpl. rewrite IHd by lia. done.
Qed.

Lemma wrap_items_spec d :
  Forall (λ kv : string * json, ∀ h, wrapped h (wrap kv.2 h).1 kv.2 (wrap kv.2 h).2) d →
  ∀ h, ∃ F, items (wrap_items wrap d h).2 (wrap_items wrap d h).1 d F ∧
            F ## dom h ∧ dom (wrap_items wrap d h).2 = dom h ∪ F ∧
            ∀ l, l ∈ dom h → (wrap_items wrap d h).2 !! l = h !! l.
Proof.
  induction 1 as [|[k j] d Hj Hd IH]; intros h; simpl.
  { exists ∅. split_and!; [constructor|set_solver..|done]. }
  simpl in Hj. destruct (Hj h) as (F1 & Ht1 & Hd1 & Hdom1 & Hfr1).
  destruct (wrap j h) as [w h1]. simpl in *.
  destruct (IH h1) as (F2 & Ht2 & Hd2 & Hdom2 & Hfr2).
  destruct (wrap_items wrap d h1) as [ws h2]. simpl in *.
  exists (F1 ∪ F2). split_and!.
  - constructor; [|done|set_solver].
    eapply tree_frame; [done|]. intros l Hl. apply Hfr2. set_solver.
  - set_solver.
  - set_solver.
  - intros l Hl. rewrite Hfr2 by set_solver. by apply Hfr1.
Qed.

Lemma wrap_elems_spec li :
  Forall (λ j, ∀ h, wrapped h (wrap j h).1 j (wrap j h).2) li →
  ∀ h, ∃ F, elems (wrap_elems wrap li h).2 (wrap_elems wrap li h).1 li F ∧
            F ## dom h ∧ dom (wrap_elems wrap li h).2 = dom h ∪ F ∧
            ∀ l, l ∈ dom h → (wrap_elems wrap li h).2 !! l = h !! l.
Proof.
  induction 1 as [|j li Hj Hd IH]; intros h; simpl.
  { exists ∅. split_and!; [constructor|set_solver..|done]. }
  destruct (Hj h) as (F1 & Ht1 & Hd1 & Hdom1 & Hfr1).
  destruct (wrap j h) as [w h1]. simpl in *.
  destruct (IH h1) as (F2 & Ht2 & Hd2 & Hdom2 & Hfr2).
  destruct (wrap_elems wrap li h1) as [ws h2]. simpl in *.
  exists (F1 ∪ F2). split_and!.
  - constructor; [|done|set_solver].
    eapply tree_frame; [done|]. intros l Hl. apply Hfr2. set_solver.
  - set_solver.
  - set_solver.
  - intros l Hl. rewrite Hfr2 by set_solver. by apply Hfr1.
Qed.

Lemma wrap_spec j h : wrapped h (wrap j h).1 j (wrap j h).2.
Proof.
  revert h. induction j as [| | | |li IH|d IH] using json_ind; intros h;
    try (exists ∅; split_and!; [constructor|set_solver..|done]).
  - simpl.
    set (self := fresh (dom h)).
    assert (self ∉ dom h) as Hself by apply is_fresh.
    set (h0 := <[self := OList (Plain <$> li)]> h).
    destruct (wrap_elems_spec li IH h0) as (F & Ht & Hd & Hdom & Hfr).
    destruct (wrap_elems wrap li h0) as [data h1]. simpl in *.
    assert (dom h0 = {[self]} ∪ dom h) as Hdom0 by (unfold h0; set_solver).
    exists ({[self]} ∪ F). split_and!.
    + apply (tree_list _ _ data); [by rewrite lookup_insert_eq| |set_solver].
      eapply elems_frame; [done|]. intros l Hl.
      rewrite lookup_insert_ne; [done|set_solver].
    + set_solver.
    + set_solver.
    + intros l Hl. rewrite lookup_insert_ne by set_solver.
      rewrite Hfr by set_solver. unfold h0.
      rewrite lookup_insert_ne; [done|set_solver].
  - simpl.
    set (self := fresh (dom h)).
    assert (self ∉ dom h) as Hself by apply is_fresh.
    set (h0 := <[self := ODict (prod_map id Plain <$> d)]> h).
    destruct (wrap_items_spec d IH h0) as (F & Ht & Hd & Hdom & Hfr).
    destruct (wrap_items wrap d h0) as [data h1]. simpl in *.
    assert (dom h0 = {[self]} ∪ dom h) as Hdom0 by (unfold h0; set_solver).
    exists ({[self]} ∪ F). split_and!.
    + apply (tree_dict _ _ data); [by rewrite lookup_insert_eq| |set_solver].
      eapply items_frame; [done|]. intros l Hl.
      rewrite lookup_insert_ne; [done|set_solver].
    + set_solver.
    + set_solver.
    + intros l Hl. rewrite lookup_insert_ne by set_solver.
      rewrite Hfr by set_solver. unfold h0.
      rewrite lookup_insert_ne; [done|set_solver].
Qed.

Lemma wrap_dict d h :
  wrap (JDict d) h = (Wrapped (ArgoObjectDict d h).1, (ArgoObjectDict d h).2).
Proof.
  unfold ArgoObjectDict. simpl.
  by destruct (wrap_items wrap d _).
Qed.

Lemma wrap_list li h :
  wrap (JList li) h = (Wrapped (ArgoObjectList li h).1, (ArgoObjectList li h).2).
Proof.
  unfold ArgoObjectList. simpl.
  by destruct (wrap_elems wrap li _).
Qed.

Lemma wrapped_recover h l j h' :
  wrapped h (Wrapped l) j h' →
  recover l h' = Some j ∧ (l ∉ dom h) ∧ ∀ l0, l0 ∈ dom h → h' !! l0 = h !! l0.
Proof.
  intros (F & Ht & Hd & Hdom & Hfr). split_and!; [| |done].
  - unfold recover. eapply tree_recover; [done|].
    apply tree_dom in Ht. apply subseteq_size in Ht.
    rewrite size_dom in Ht. lia.
  - inversion Ht; subst; set_solver.
Qed.






Lemma wget_wset_ne key key' w data :
  key ≠ key' → wget key' (wset key w data) = wget key' data.
Proof.
  intros Hne. induction data as [|[k w'] data IH]; simpl.
  - by rewrite decide_False.
  - destruct (decide (key = k)) as [->|]; simpl.
    + by rewrite !decide_False.
    + destruct (decide (key' = k)); [done|apply IH].
Qed.





(** X25: a wrapper made by [ArgoObjectDict] or [ArgoObjectList]
    [recover]s to the document it was made from, at every depth of
    nesting; the wrapper is a new object, and making it changes no object
    that was there. *)
Theorem recover_after_wrapping (d : dict) (li : list json) (h : heap) :
  (recover (ArgoObjectDict d h).1 (ArgoObjectDict d h).2 = Some (JDict d) ∧
   ((ArgoObjectDict d h).1 ∉ dom h) ∧
   ∀ l, l ∈ dom h → (ArgoObjectDict d h).2 !! l = h !! l) ∧
  (recover (ArgoObjectList li h).1 (ArgoObjectList li h).2 = Some (JList li) ∧
   ((ArgoObjectList li h).1 ∉ dom h) ∧
   ∀ l, l ∈ dom h → (ArgoObjectList li h).2 !! l = h !! l).
Proof.
  split.
  - apply wrapped_recover. pose proof (wrap_spec (JDict d) h) as Hw.
    by rewrite wrap_dict in Hw.
  - apply wrapped_recover. pose proof (wrap_spec (JList li) h) as Hw.
    by rewrite wrap_list in Hw.
Qed.

Lemma recover_after_wrapping_witness :
  recover (ArgoObjectDict [("a", JDict [("b", JList [JInt 1; JDict []])])] ∅).1
          (ArgoObjectDict [("a", JDict [("b", JList [JInt 1; JDict []])])] ∅).2
  = Some (JDict [("a", JDict [("b", JList [JInt 1; JDict []])])]).
Proof.
  apply (proj1 (proj1 (recover_after_wrapping
           [("a", JDict [("b", JList [JInt 1; JDict []])])] [] ∅))).
Defined.







End ArgoObjectTheory.

(** ** argo_objects.py: the steps of a workflow *)

Module WorkflowTheory.
Import Doc Workflow DocTheory.
#[local] Set Warnings "-clear-no-such-hyp".

Lemma prefix_app p s :
  String.prefix p s = true ↔ ∃ rest, s = p +:+ rest.
Proof.
  revert s. induction p as [|a p IH]; intros s.
  - split; [intros _; by exists s|intros _; by destruct s].
  - destruct s as [|b s]; simpl.
    + split; [done|]. by intros [rest ?].
    + destruct (Ascii.ascii_dec a b) as [->|Hne].
      * rewrite IH. split; intros [rest Hrest]; exists rest.
        -- by rewrite Hrest.
        -- by injection Hrest.
      * split; [done|]. intros [rest Hrest]. by injection Hrest.
Qed.

Lemma append_assoc (a b c : string) : (a +:+ b) +:+ c = a +:+ (b +:+ c).
Proof.
  induction a as [|x a IH]; [done|].
  change (String x ((a +:+ b) +:+ c) = String x (a +:+ (b +:+ c))).
  by rewrite IH.
Qed.

Lemma append_empty_r (a : string) : a +:+ "" = a.
Proof.
  induction a as [|x a IH]; [done|].
  change (String x (a +:+ "") = String x a). by rewrite IH.
Qed.

Lemma find_at_0_prefix s p :
  find_at_0 s p = true ↔ ∃ rest, s = p +:+ rest.
Proof.
  rewrite <-prefix_app. unfold find_at_0. rewrite bool_decide_eq_true.
  destruct s as [|b s].
  - destruct p; simpl; naive_solver.
  - cbn [String.index].
    destruct (String.prefix p (String b s)); [naive_solver|].
    destruct (String.index 0 p s); naive_solver.
Qed.

Lemma match_str s names :
  ∃ b, match_ (JStr s) names = Ok b ∧
       (b = true ↔ ∃ name, name ∈ names ∧ names_it name s).
Proof.
  induction names as [|name names (b & IH & Hb)]; simpl.
  - exists false. split; [done|]. split; [done|].
    intros (name & Hin & _). by apply elem_of_nil in Hin.
  - destruct (bool_decide (s = name) || find_at_0 s (name +:+ "("))
      eqn:Hhere.
    + exists true. split; [done|]. split; [|done]. intros _.
      exists name. split; [by left|].
      apply orb_true_iff in Hhere as [Heq|Hfind].
      * left. by apply bool_decide_eq_true in Heq.
      * right. apply find_at_0_prefix in Hfind as [rest ->].
        exists rest. apply append_assoc.
    + exists b. split; [done|]. rewrite Hb. split.
      * intros (name' & Hin & Hit). exists name'. split; [by right|done].
      * intros (name' & Hin & Hit). apply elem_of_cons in Hin as [->|Hin].
        -- exfalso. apply orb_false_iff in Hhere as [Heq Hfind].
           apply bool_decide_eq_false in Heq.
           destruct Hit as [?|[rest ->]]; [done|].
           assert (find_at_0 (name +:+ "(" +:+ rest) (name +:+ "(") = true)
             as Hyes; [|by rewrite Hyes in Hfind].
           apply find_at_0_prefix. exists rest. symmetry.
           apply append_assoc.
        -- by exists name'.
Qed.

Lemma match_true n names :
  match_ n names = Ok true →
  ∃ s name, n = JStr s ∧ name ∈ names ∧ names_it name s.
Proof.
  intros Hm. destruct n as [| | |s|li|d];
    try (destruct names; simpl in Hm; [done|]; try done;
         by destruct (has "find" d)).
  destruct (match_str s names) as (b & Hb & Hiff). rewrite Hb in Hm.
  injection Hm as ->. destruct (proj1 Hiff eq_refl) as (name & ? & ?).
  by exists s, name.
Qed.

Lemma in_names_true v names :
  in_names v names = true ↔ ∃ s, v = JStr s ∧ s ∈ names.
Proof.
  destruct v as [| | |s|li|d]; simpl;
    try (split; [done|by intros (? & ? & ?)]).
  rewrite bool_decide_eq_true. split; [by exists s|].
  by intros (? & [= ->] & ?).
Qed.

Lemma gate (m k : res bool) :
  bind m (λ b : bool, if negb b then Ok false else k) = Ok true
  ↔ m = Ok true ∧ k = Ok true.
Proof. destruct m as [[]|]; simpl; naive_solver. Qed.

Lemma gate_if (c : bool) (k : res bool) :
  (if c then Ok false else k) = Ok true ↔ c = false ∧ k = Ok true.
Proof. destruct c; naive_solver. Qed.

Lemma stage_name (o : option (list string)) step :
  match o with
  | Some names => bind (item step "displayName") (λ n, match_ n names)
  | None => Ok true
  end = Ok true
  ↔ ∀ names, o = Some names →
      ∃ s name, dget "displayName" step = Some (JStr s) ∧
                name ∈ names ∧ names_it name s.
Proof.
  destruct o as [names|]; [|naive_solver]. unfold item. split.
  - destruct (dget "displayName" step) as [n|]; simpl; [|done].
    intros (s & name & -> & ? & ?)%match_true ? [= <-]. by exists s, name.
  - intros H. destruct (H names eq_refl) as (s & name & -> & Hin & Hit).
    simpl. destruct (match_str s names) as (b & -> & Hb).
    f_equal. apply Hb. by exists name.
Qed.

Lemma stage_key (o : option (list string)) step :
  match o with
  | Some keys => bind (step_key step) (λ k, Ok (in_names k keys))
  | None => Ok true
  end = Ok true
  ↔ ∀ keys, o = Some keys → ∃ k, step_key step = Ok (JStr k) ∧ k ∈ keys.
Proof.
  destruct o as [keys|]; [|naive_solver]. split.
  - destruct (step_key step) as [k|]; simpl; [|done].
    intros [= (s & -> & ?)%in_names_true] ? [= <-]. by exists s.
  - intros H. destruct (H keys eq_refl) as (k & -> & Hin). simpl.
    f_equal. by apply bool_decide_eq_true.
Qed.

Lemma stage_entry (o : option (list string)) step key :
  match o with
  | Some l =>
    negb (match dget key step with
          | Some v => in_names v l
          | None => false
          end)
  | None => false
  end = false
  ↔ ∀ l, o = Some l → ∃ p, dget key step = Some (JStr p) ∧ p ∈ l.
Proof.
  destruct o as [l|]; [|naive_solver]. rewrite negb_false_iff. split.
  - destruct (dget key step) as [v|]; [|done].
    intros (s & -> & ?)%in_names_true ? [= <-]. by exists s.
  - intros H. destruct (H l eq_refl) as (p & -> & Hin).
    simpl. by apply bool_decide_eq_true.
Qed.

Lemma stage_id (o : option (list string)) step :
  match o with
  | Some ids => bind (item step "id") (λ v, Ok (in_names v ids))
  | None => Ok true
  end = Ok true
  ↔ ∀ ids, o = Some ids → ∃ i, dget "id" step = Some (JStr i) ∧ i ∈ ids.
Proof.
  destruct o as [ids|]; [|naive_solver]. unfold item. split.
  - destruct (dget "id" step) as [v|]; simpl; [|done].
    intros [= (s & -> & ?)%in_names_true] ? [= <-]. by exists s.
  - intros H. destruct (H ids eq_refl) as (i & -> & Hin). simpl.
    f_equal. by apply bool_decide_eq_true.
Qed.

Lemma stage_started step (k : res bool) :
  bind (item step "startedAt")
       (λ t, match t with JNull => Ok false | _ => k end) = Ok true
  ↔ (∃ t, dget "startedAt" step = Some t ∧ t ≠ JNull) ∧ k = Ok true.
Proof.
  unfold item. destruct (dget "startedAt" step) as [t|]; simpl.
  - destruct t; naive_solver.
  - naive_solver.
Qed.

(** A node is kept when it has started and passes the filters given, and
    only then. *)
Lemma keep_passes f step : keep f step = Ok true ↔ passes f step.
Proof.
  unfold keep, passes.
  rewrite stage_started, !gate, !gate_if.
  rewrite stage_name, stage_key, stage_id.
  rewrite (stage_entry _ _ "phase"), (stage_entry _ _ "type").
  naive_solver.
Qed.

(** Insertion keeps a list sorted, for an order that is total and
    transitive on the elements at hand. *)
Lemma insert_by_sorted_on {A} (le : A → A → bool) (D : A → Prop) x l :
  (∀ a b, D a → D b → le a b = true ∨ le b a = true) →
  (∀ a b c, D a → D b → D c → le a b = true → le b c = true →
            le a c = true) →
  D x → Forall D l →
  StronglySorted (λ a b, le a b = true) l →
  StronglySorted (λ a b, le a b = true) (insert_by le x l).
Proof.
  intros Htotal Htrans Hx Hl Hsorted.
  induction Hsorted as [|y l Hs IH Hy]; simpl.
  - repeat constructor.
  - apply Forall_cons in Hl as [Hdy Hl].
    destruct (le x y) eqn:Hxy.
    + constructor; [by constructor|]. constructor; [done|].
      apply Forall_forall. intros z Hz.
      apply (Htrans x y z); try done.
      * by eapply Forall_forall in Hl.
      * by eapply Forall_forall in Hy.
    + constructor; [by apply IH|].
      rewrite insert_by_perm. constructor; [|done].
      destruct (Htotal x y Hx Hdy) as [Hle|Hle]; [congruence|done].
Qed.

Lemma sort_by_sorted_on {A} (le : A → A → bool) (l : list A) :
  (∀ a b, a ∈ l → b ∈ l → le a b = true ∨ le b a = true) →
  (∀ a b c, a ∈ l → b ∈ l → c ∈ l → le a b = true → le b c = true →
            le a c = true) →
  StronglySorted (λ a b, le a b = true) (sort_by le l).
Proof.
  intros Htotal Htrans.
  assert (∀ l', l' ⊆ l →
            StronglySorted (λ a b, le a b = true) (sort_by le l')) as H.
  { induction l' as [|x l' IH]; intros Hsub; simpl; [constructor|].
    apply (insert_by_sorted_on le (λ a, a ∈ l)); try done.
    - apply Hsub. by left.
    - apply Forall_forall. intros y Hy. rewrite sort_by_perm in Hy.
      apply Hsub. by right.
    - apply IH. intros y Hy. apply Hsub. by right. }
  by apply H.
Qed.

Lemma sorted_impl {A} (R R' : A → A → Prop) l :
  (∀ a b, R a b → R' a b) → StronglySorted R l → StronglySorted R' l.
Proof.
  intros HR. induction 1 as [|x l Hl IH Hx]; constructor; [done|].
  eapply Forall_impl; [done|]. intros y. apply HR.
Qed.

Section get_step_facts.
Context {T : Type}.
Variable ArgoStep : dict → json → res T.
Variable lt : json → json → bool.

(** The loop keeps the nodes that [keep] keeps, in their order, each with
    the step made of it. *)
Lemma select_spec self f nodes l :
  select ArgoStep self f nodes = Ok l →
  Forall (λ sx : dict * T,
            keep f sx.1 = Ok true ∧
            ∃ workflow, workflow_name self = Ok workflow ∧
                        ArgoStep sx.1 workflow = Ok sx.2) l ∧
  sublist (JDict <$> l.*1) nodes ∧
  (∀ step, JDict step ∈ nodes → keep f step = Ok true → step ∈ l.*1).
Proof.
  revert l. induction nodes as [|node nodes IH]; intros l; simpl.
  { intros [= <-]. split_and!; [constructor|constructor|].
    intros step Hin. by apply elem_of_nil in Hin. }
  destruct node as [| | | | |step]; simpl; try done.
  destruct (keep f step) as [[]|] eqn:Hkeep; simpl; [| |done].
  - destruct (workflow_name self) as [workflow|] eqn:Hwf; simpl; [|done].
    destruct (ArgoStep step workflow) as [x|] eqn:Hx; simpl; [|done].
    destruct (select ArgoStep self f nodes) as [xs|]; simpl; [|done].
    intros [= <-]. destruct (IH xs eq_refl) as (Hall & Hsub & Hin).
    split_and!.
    + constructor; [|done]. split; [done|]. by exists workflow.
    + simpl. by constructor.
    + intros step' Hin' Hk. apply elem_of_cons in Hin' as [[= ->]|Hin'].
      * by left.
      * right. by apply Hin.
  - intros Hsel. destruct (IH l Hsel) as (Hall & Hsub & Hin).
    split_and!; [done|by constructor|].
    intros step' Hin' Hk. apply elem_of_cons in Hin' as [[= ->]|Hin'].
    + congruence.
    + by apply Hin.
Qed.

(** X29: what [get_step] returns, for a workflow whose status has a dict of
    nodes: the steps made of the nodes that have started and pass every
    filter given, of those only and of each of them, a node whose
    [startedAt] is [None] never being among them; in an order in which no
    step starts before one that precedes it, when [<] on the start times
    of the nodes that have started is the strict part of a total
    preorder. *)
Theorem get_step_selects_and_sorts (self st nodes : dict)
    (name key phase id type : option Names) (steps : list T) :
  let f := mkFilters (listed name) (listed key) (listed phase) (listed id)
                     (listed type) in
  dget "status" self = Some (JDict st) →
  dget "nodes" st = Some (JDict nodes) →
  let started := λ a : dict, JDict a ∈ nodes.*2 ∧ time a ≠ JNull in
  (∀ a b, started a → started b →
     lt (time a) (time b) = true → lt (time b) (time a) = false) →
  (∀ a b c, started a → started b → started c →
     lt (time b) (time a) = false → lt (time c) (time b) = false →
     lt (time c) (time a) = false) →
  get_step ArgoStep lt self name key phase id type = Ok steps →
  ∃ chosen : list (dict * T),
    steps = chosen.*2 ∧
    (∀ step, step ∈ chosen.*1 ↔ JDict step ∈ nodes.*2 ∧ passes f step) ∧
    JDict <$> chosen.*1 ⊆+ nodes.*2 ∧
    Forall (λ sx : dict * T,
              ∃ workflow, workflow_name self = Ok workflow ∧
                          ArgoStep sx.1 workflow = Ok sx.2) chosen ∧
    StronglySorted (λ a b : dict * T, lt (time b.1) (time a.1) = false)
                   chosen.
Proof.
  intros f Hstatus Hnodes started Hasym Htrans. unfold get_step.
  rewrite Hstatus. simpl. rewrite Hnodes. fold f.
  destruct (select ArgoStep self f nodes.*2) as [l|] eqn:Hsel; simpl; [|done].
  intros [= <-]. destruct (select_spec _ _ _ _ Hsel) as (Hall & Hsub & Hin).
  pose proof (sort_by_perm (le_time lt) l) as Hperm.
  assert (∀ sx, sx ∈ l → JDict sx.1 ∈ nodes.*2) as Hnode.
  { intros sx Hsx. eapply (sublist_submseteq), elem_of_submseteq in Hsub;
      [done|]. apply list_elem_of_fmap. exists sx.1. split; [done|].
    apply list_elem_of_fmap. by exists sx. }
  assert (∀ sx, sx ∈ l → started sx.1) as Hstarted.
  { intros sx Hsx. split; [by apply Hnode|].
    eapply Forall_forall in Hall as [Hk _]; [|done].
    apply keep_passes in Hk as [(t & Ht & Hnull) _].
    unfold time. by rewrite Ht. }
  exists (sort_by (le_time lt) l). split_and!.
  - done.
  - intros step. rewrite Hperm. split.
    + intros (sx & -> & Hsx)%list_elem_of_fmap. split; [by apply Hnode|].
      apply keep_passes. by eapply Forall_forall in Hall as [? _].
    + intros [Hn Hp]. apply Hin; [done|]. by apply keep_passes.
  - rewrite Hperm. by apply sublist_submseteq.
  - rewrite Hperm. eapply Forall_impl; [done|]. by intros sx [_ ?].
  - assert (StronglySorted (λ a b, le_time lt a b = true)
              (sort_by (le_time lt) l)) as Hsorted.
    { apply sort_by_sorted_on; unfold le_time.
      - intros a b Ha Hb.
        destruct (lt (time b.1) (time a.1)) eqn:Hba; [|by left].
        right. rewrite (Hasym b.1 a.1); auto.
      - intros a b c Ha Hb Hc. rewrite !negb_true_iff.
        apply Htrans; auto. }
    eapply sorted_impl; [|done].
    intros a b. unfold le_time. by rewrite negb_true_iff.
Qed.
End get_step_facts.

Lemma get_step_selects_and_sorts_witness :
  let f := mkFilters None None (Some ["Succeeded"]) None None in
  let made := λ (step : dict) (_ : json), Ok step in
  ∃ chosen : list (dict * dict),
    [WorkflowSamples.early; WorkflowSamples.late] = chosen.*2 ∧
    (∀ step, step ∈ chosen.*1 ↔
       JDict step ∈ WorkflowSamples.three_nodes.*2 ∧ passes f step) ∧
    JDict <$> chosen.*1 ⊆+ WorkflowSamples.three_nodes.*2 ∧
    Forall (λ sx : dict * dict,
              ∃ workflow, workflow_name WorkflowSamples.workflow = Ok workflow ∧
                          made sx.1 workflow = Ok sx.2) chosen ∧
    StronglySorted (λ a b : dict * dict,
                      WorkflowSamples.str_lt (time b.1) (time a.1) = false)
                   chosen.
Proof.
  intros f made.
  apply (get_step_selects_and_sorts made WorkflowSamples.str_lt
           WorkflowSamples.workflow
           [("nodes", JDict WorkflowSamples.three_nodes)]
           WorkflowSamples.three_nodes
           None None (Some (One "Succeeded")) None None).
  - reflexivity.
  - reflexivity.
  - intros a b [Ha Hta] [Hb Htb]. simpl in Ha, Hb.
    repeat (apply elem_of_cons in Ha as [[= ->]|Ha]);
      [..|by apply elem_of_nil in Ha];
      repeat (apply elem_of_cons in Hb as [[= ->]|Hb]);
      try (by apply elem_of_nil in Hb); try done; vm_compute; congruence.
  - intros a b c [Ha Hta] [Hb Htb] [Hc Htc]. simpl in Ha, Hb, Hc.
    repeat (apply elem_of_cons in Ha as [[= ->]|Ha]);
      [..|by apply elem_of_nil in Ha];
      repeat (apply elem_of_cons in Hb as [[= ->]|Hb]);
      try (by apply elem_of_nil in Hb);
      repeat (apply elem_of_cons in Hc as [[= ->]|Hc]);
      try (by apply elem_of_nil in Hc); try done; vm_compute; congruence.
  - vm_compute. reflexivity.
Defined.

(** X30: [match] holds of a display name and a list of names exactly when
    the display name is one of the names, or one of them followed by an
    opening parenthesis and anything: a name that is only the beginning of
    the display name does not name it. *)
Theorem match_names_a_step (s : string) (names : list string) :
  (∃ b, match_ (JStr s) names = Ok b ∧
        (b = true ↔ ∃ name, name ∈ names ∧ names_it name s)) ∧
  (∀ name more, more ≠ "" → (∀ rest, more ≠ "(" +:+ rest) →
     match_ (JStr (name +:+ more)) [name] = Ok false).
Proof.
  split; [apply match_str|].
  intros name more Hmore Hparen.
  destruct (match_str (name +:+ more) [name]) as (b & -> & Hb).
  f_equal. destruct b; [|done]. exfalso.
  destruct (proj1 Hb eq_refl) as (name' & Hin & Hit).
  apply list_elem_of_singleton in Hin as ->.
  destruct Hit as [Heq|[rest Heq]].
  - apply Hmore. rewrite <-(append_empty_r name) in Heq at 2.
    by apply (inj _) in Heq.
  - apply (inj _) in Heq. by apply (Hparen rest).
Qed.

Lemma match_names_a_step_witness :
  match_ (JStr "step2") ["step"] = Ok false.
Proof.
  apply (proj2 (match_names_a_step "" []) "step" "2"); [done|].
  intros rest. discriminate.
Defined.
End WorkflowTheory.
